(** * go-di: a hierarchical dependency-injection container

    A shallow embedding of [container.go] (package [di]) and the proofs of
    its resolution, caching and teardown properties.

    Pointers are handles: a [*container] is an index into the arena
    [containers], a [*factory] an index into [records], a pointer returned
    by [reflect.New] an index into [objects].  The model is sequential (the
    [sync.RWMutex] of a container is not represented). *)

From Stdlib Require Import ZArith.
From stdpp Require Import base option list strings gmap.

Set Default Proof Using "Type".
Set Warnings "-register-all,-clear-no-such-hyp".

(** ** Data model *)

(** [type Lifetime int]: the three constants [Transient = 0], [Scoped = 1]
    and [Singleton = 2], and every other [int], which a caller may pass as
    well: [Beyond k] is [Lifetime(2 + k)], [Negative k] is [Lifetime(-k)]. *)
Inductive Lifetime :=
| Transient
| Scoped
| Singleton
| Beyond (k : positive)
| Negative (k : positive).

Definition Lifetime_int (l : Lifetime) : Z :=
  match l with
  | Transient => 0
  | Scoped => 1
  | Singleton => 2
  | Beyond k => 2 + Z.pos k
  | Negative k => Z.neg k
  end.

Definition int_Lifetime (n : Z) : Lifetime :=
  match n with
  | 0%Z => Transient
  | 1%Z => Scoped
  | 2%Z => Singleton
  | Z.pos k => Beyond (k - 2)%positive
  | Z.neg k => Negative k
  end.

(** The part of [reflect.Type] the container looks at.  [TInterface] stands
    for [interface{}]. *)
Inductive GoType :=
| TInt
| TString
| TInterface
| TSlice (elem : GoType)
| TPtr (elem : GoType)
| TStruct (name : string) (fields : list StructField)
with StructField :=
| Field (Name : string) (Type_ : GoType) (di : string).

Inductive Kind := Int | String_ | Interface | Slice | Ptr | Struct.

Definition kind (t : GoType) : Kind :=
  match t with
  | TInt => Int
  | TString => String_
  | TInterface => Interface
  | TSlice _ => Slice
  | TPtr _ => Ptr
  | TStruct _ _ => Struct
  end.

Definition field_name (f : StructField) : string := let 'Field n _ _ := f in n.
Definition field_type (f : StructField) : GoType := let 'Field _ t _ := f in t.
(** [f.Tag.Get("di")]; the empty string when the field has no such tag. *)
Definition field_di (f : StructField) : string := let 'Field _ _ d := f in d.

(** A field is exported when its name starts with an upper-case letter. *)
Definition exported (f : StructField) : bool :=
  match field_name f with
  | String a _ => (65 <=? Ascii.nat_of_ascii a)%nat && (Ascii.nat_of_ascii a <=? 90)%nat
  | EmptyString => false
  end.

(** [interface{}] values.  [VNil] is the nil interface; [VPtr t None] is a
    typed nil pointer, [VPtr t (Some a)] points to [objects !! a]. *)
Inductive Value :=
| VNil
| VInt (n : Z)
| VString (s : string)
| VSlice (elem : GoType) (items : list Value)
| VPtr (elem : GoType) (addr : option nat)
| VStruct (name : string) (decl : list StructField) (vals : list Value).

(** [reflect.TypeOf]; [None] is the nil [reflect.Type] of a nil interface. *)
Definition TypeOf (v : Value) : option GoType :=
  match v with
  | VNil => None
  | VInt _ => Some TInt
  | VString _ => Some TString
  | VSlice e _ => Some (TSlice e)
  | VPtr e _ => Some (TPtr e)
  | VStruct n d _ => Some (TStruct n d)
  end.

(** The zero value of a type, as [reflect.New] allocates it. *)
Fixpoint zero (t : GoType) : Value :=
  match t with
  | TInt => VInt 0
  | TString => VString ""
  | TInterface => VNil
  | TSlice e => VSlice e []
  | TPtr e => VPtr e None
  | TStruct n fs => VStruct n fs (map zero_field fs)
  end
with zero_field (f : StructField) : Value :=
  match f with Field _ t _ => zero t end.

(** [reflect.Type.String]. *)
Fixpoint type_string (t : GoType) : string :=
  match t with
  | TInt => "int"
  | TString => "string"
  | TInterface => "interface {}"
  | TSlice e => "[]" +:+ type_string e
  | TPtr e => "*" +:+ type_string e
  | TStruct n _ => n
  end.

(** Type identity, used by [reflect.Value.Set] to decide assignability. *)
Fixpoint type_eqb (t u : GoType) : bool :=
  match t, u with
  | TInt, TInt | TString, TString | TInterface, TInterface => true
  | TSlice a, TSlice b | TPtr a, TPtr b => type_eqb a b
  | TStruct n fs, TStruct m gs =>
      String.eqb n m &&
      (fix go (fs gs : list StructField) : bool :=
         match fs, gs with
         | [], [] => true
         | f :: fs', g :: gs' => field_eqb f g && go fs' gs'
         | _, _ => false
         end) fs gs
  | _, _ => false
  end
with field_eqb (f g : StructField) : bool :=
  match f, g with
  | Field n t d, Field m u e => String.eqb n m && type_eqb t u && String.eqb d e
  end.

Definition assignable (from to : GoType) : bool :=
  match to with
  | TInterface => true
  | _ => type_eqb from to
  end.

(** [var ErrNoMatchingTag error]; any other error comes from user code.  A
    Go [error] is an [option error], [None] being nil. *)
Inductive error := ErrNoMatchingTag | ErrUser (msg : string).

(** A user-supplied [Constructor] is a Go closure over the [Container] it is
    given.  The constructors represented here are those that wire an
    instance with that container, as the package asks them to: such a
    closure is the calls it makes on the container and the value it
    returns.  It may allocate, call [c.Resolve], [c.ResolveAll] and
    [c.Inject], continue with what they return, and panic.  A closure that
    registers, closes or uses another container it has captured is not
    among them. *)
Inductive Program :=
| Return (v : Value) (err : option error)
| New (t : GoType) (k : nat → Program)
| CallResolve (tag : string) (k : Value → option error → Program)
| CallResolveAll (tag : string) (k : list Value → option error → Program)
| CallInject (v : Value) (k : option error → Program)
| Raise (msg : string).

(** [type Constructor func(c Container) (interface{}, error)]: the closure
    built by [UseType] (capturing [typ]), the one built by [UseValue]
    (capturing [v]), a user function, or the nil function. *)
Inductive Constructor :=
| TypeCtor (typ : option GoType)
| ValueCtor (v : Value)
| UserCtor (p : Program)
| NilCtor.

(** [type Destructor func(i interface{}) error]: the destructors
    represented here are those that clean up the instance they are given
    and return; they do not call into a container. *)
Definition Destructor := Value → option error.

Module alias.
Record t := mk { Tag : string; Aliased : string }.
End alias.

Module factory.
Record t := mk {
  Tag : string;
  Lifetime : Lifetime;
  Constructor : Constructor;
  Destructor : option Destructor
}.
End factory.

(** An entry of [destructors]: the closure
    [func() error { return f.Destructor(instance) }], which captures the
    factory pointer [f] and the instance. *)
Record teardown := Teardown { td_factory : nat; td_instance : Value }.

Record container := Container {
  parent : option nat;
  aliases : list alias.t;
  factories : list nat;
  cache : gmap nat Value;
  destructors : list teardown
}.

(** Calls into user code, recorded in the order they happen. *)
Inductive Event :=
| CtorCall (f : nat) (this : nat)
| DtorCall (f : nat) (instance : Value).

Record State := mkState {
  containers : list container;
  records : list factory.t;
  objects : list Value;
  trace : list Event
}.

Definition empty_container (p : option nat) : container :=
  Container p [] [] ∅ [].

Definition nil_factory : factory.t :=
  factory.mk "" Transient NilCtor None.

Definition get (s : State) (c : nat) : container :=
  default (empty_container None) (containers s !! c).

Definition deref (s : State) (f : nat) : factory.t :=
  default nil_factory (records s !! f).

Definition with_containers (cs : list container) (s : State) : State :=
  mkState cs (records s) (objects s) (trace s).

Definition update (c : nat) (g : container → container) (s : State) : State :=
  with_containers (alter g c (containers s)) s.

Definition emit (e : Event) (s : State) : State :=
  mkState (containers s) (records s) (objects s) (trace s ++ [e]).

(** ** Outcomes *)

(** A call returns, panics, or runs out of [fuel] (the bound on the nesting
    of constructor calls). *)
Inductive Outcome (A : Type) :=
| Done (a : A) (s : State)
| Panic (msg : string) (s : State)
| Diverge.
Arguments Done {A} a s.
Arguments Panic {A} msg s.
Arguments Diverge {A}.

Definition M (A : Type) : Type := State → Outcome A.

Definition ret {A} (a : A) : M A := λ s, Done a s.

Definition bind {A B} (m : M A) (k : A → M B) : M B :=
  λ s, match m s with
       | Done a s' => k a s'
       | Panic msg s' => Panic msg s'
       | Diverge => Diverge
       end.

Definition panic {A} (msg : string) : M A := λ s, Panic msg s.

Notation "'let*' x ':=' m 'in' k" := (bind m (λ x, k))
  (at level 10, x pattern, m at level 100, k at level 200).

(** ** Registration *)

(** [newContainer(parent)]: a fresh container at the end of the arena. *)
Definition newContainer (parent : option nat) : M nat :=
  λ s, Done (length (containers s))
            (with_containers (containers s ++ [empty_container parent]) s).

Definition NewScope (this : nat) : M nat := newContainer (Some this).

Definition add_factory (p : nat) (c : container) : container :=
  Container (parent c) (aliases c) (factories c ++ [p]) (cache c) (destructors c).

Definition add_alias (a : alias.t) (c : container) : container :=
  Container (parent c) (aliases c ++ [a]) (factories c) (cache c) (destructors c).

(** [this.factories = append(this.factories, &factory{...})]: the record is
    allocated at the end of [records] and its pointer appended. *)
Definition register (this : nat) (f : factory.t) : M unit :=
  λ s, let p := length (records s) in
       Done () (update this (add_factory p)
                  (mkState (containers s) (records s ++ [f]) (objects s) (trace s))).

Definition UseType (this : nat) (tag : string) (v : Value) (lifetime : Lifetime) : M unit :=
  register this (factory.mk tag lifetime (TypeCtor (TypeOf v)) None).

Definition UseValue (this : nat) (tag : string) (v : Value) : M unit :=
  register this (factory.mk tag Transient (ValueCtor v) None).

Definition UseFactory (this : nat) (tag : string) (ctor : Constructor)
    (dtor : option Destructor) (lifetime : Lifetime) : M unit :=
  register this (factory.mk tag lifetime ctor dtor).

Definition Use (this : nat) (tag tagOrTypeName : string) : M unit :=
  λ s, Done () (update this (add_alias (alias.mk tag tagOrTypeName)) s).

(** [t.String()] on the nil type of a nil interface is a nil dereference. *)
Definition type_name (v : Value) : M string :=
  match TypeOf v with
  | Some t => ret (type_string t)
  | None => panic "invalid memory address or nil pointer dereference"
  end.

Definition RegisterType (this : nat) (v : Value) (lifetime : Lifetime) : M unit :=
  let* tag := type_name v in UseType this tag v lifetime.

Definition RegisterValue (this : nat) (v : Value) : M unit :=
  let* tag := type_name v in UseValue this tag v.

Definition RegisterFactory (this : nat) (v : Value) (ctor : Constructor)
    (dtor : option Destructor) (lifetime : Lifetime) : M unit :=
  let* tag := type_name v in UseFactory this tag ctor dtor lifetime.

(** ** Alias resolution *)

(** [tags.Contains]. *)
Fixpoint Contains (this : list string) (tag : string) : bool :=
  match this with
  | [] => false
  | x :: rest => if String.eqb x tag then true else Contains rest tag
  end.

(** [for c := this; c != nil; c = c.parent]: the containers the loop visits.
    A parent is created before its children, so its handle is smaller and
    the walk from [c] takes at most [c] steps. *)
Fixpoint chain_from (n : nat) (s : State) (c : nat) : list nat :=
  c :: match n with
       | 0 => []
       | S n' => match parent (get s c) with
                 | Some p => chain_from n' s p
                 | None => []
                 end
       end.

Definition chain (s : State) (this : nat) : list nat := chain_from this s this.

(** The body of [for _, alias := range c.aliases] for the tag [t = tags[i]]. *)
Definition visit_alias (t : string) (tags : list string) (a : alias.t) : list string :=
  if negb (String.eqb t (alias.Tag a)) then tags
  else if Contains tags (alias.Aliased a) then tags
  else tags ++ [alias.Aliased a].

(** One round of the outer loop: every container of the chain, every alias. *)
Definition scan (s : State) (this : nat) (t : string) (tags : list string) : list string :=
  foldl (λ tags c, foldl (visit_alias t) tags (aliases (get s c))) tags (chain s this).

(** [for i := 0; i < len(tags); i++], with a bound on the number of rounds. *)
Fixpoint expand (fuel : nat) (s : State) (this : nat) (tags : list string) (i : nat)
    : option (list string) :=
  match tags !! i with
  | None => Some tags
  | Some t =>
      match fuel with
      | 0 => None
      | S n => expand n s this (scan s this t tags) (S i)
      end
  end.

(** Every alias the loops can see. *)
Definition chain_aliases (s : State) (this : nat) : list alias.t :=
  concat (map (λ c, aliases (get s c)) (chain s this)).

(** [resolveAliases]: the loop is run for one round more than there are
    aliases, which is enough for it to end ([resolveAliases_ends]). *)
Definition resolveAliases (s : State) (this : nat) (tag : string) : list string :=
  default [tag] (expand (S (length (chain_aliases s this))) s this [tag] 0).

(** ** Looking up factory records *)

Definition matches (s : State) (tags : list string) (f : nat) : bool :=
  Contains tags (factory.Tag (deref s f)).

(** [for i := len(c.factories) - 1; 0 <= i; i--] of [Resolve]: [n] is [i+1]. *)
Fixpoint last_match (s : State) (tags : list string) (fs : list nat) (n : nat) : option nat :=
  match n with
  | 0 => None
  | S i =>
      match fs !! i with
      | Some f => if matches s tags f then Some f else last_match s tags fs i
      | None => last_match s tags fs i
      end
  end.

Fixpoint first_in_chain (s : State) (tags : list string) (cs : list nat) : option nat :=
  match cs with
  | [] => None
  | c :: rest =>
      match last_match s tags (factories (get s c)) (length (factories (get s c))) with
      | Some f => Some f
      | None => first_in_chain s tags rest
      end
  end.

(** The closure at the head of [Resolve]: the record that wins, if any. *)
Definition lookup_factory (s : State) (this : nat) (tag : string) : option nat :=
  first_in_chain s (resolveAliases s this tag) (chain s this).

(** The same loop in [ResolveAll], which appends every match. *)
Fixpoint all_matches (s : State) (tags : list string) (fs : list nat) (n : nat)
    (acc : list nat) : list nat :=
  match n with
  | 0 => acc
  | S i =>
      match fs !! i with
      | Some f => all_matches s tags fs i (if matches s tags f then acc ++ [f] else acc)
      | None => all_matches s tags fs i acc
      end
  end.

Definition collect_factories (s : State) (this : nat) (tag : string) : list nat :=
  let tags := resolveAliases s this tag in
  foldl (λ acc c, all_matches s tags (factories (get s c)) (length (factories (get s c))) acc)
        [] (chain s this).

(** ** Instances, resolution and injection *)

(** The closure [root] of [createInstance]: the end of the parent chain. *)
Definition root (s : State) (this : nat) : nat := default this (last (chain s this)).

Definition set_cache (f : nat) (v : Value) (c : container) : container :=
  Container (parent c) (aliases c) (factories c) (<[f := v]> (cache c)) (destructors c).

Definition add_destructor (d : teardown) (c : container) : container :=
  Container (parent c) (aliases c) (factories c) (cache c) (destructors c ++ [d]).

Definition clear_destructors (c : container) : container :=
  Container (parent c) (aliases c) (factories c) (cache c) [].

(** A type of size zero: a struct all of whose fields have size zero,
    [struct{}] first of all. *)
Fixpoint zero_size (t : GoType) : bool :=
  match t with
  | TStruct _ fs => forallb zero_size_field fs
  | _ => false
  end
with zero_size_field (f : StructField) : bool :=
  match f with Field _ t _ => zero_size t end.

(** The address an object is at.  The allocator gives every object of
    non-zero size an address of its own, and every object of size zero the
    address of [runtime.zerobase]. *)
Inductive Address := Zerobase | Heap (a : nat).

Definition address_eqb (x y : Address) : bool :=
  match x, y with
  | Zerobase, Zerobase => true
  | Heap a, Heap b => Nat.eqb a b
  | _, _ => false
  end.

Definition address (t : GoType) (a : nat) : Address :=
  if zero_size t then Zerobase else Heap a.

(** [v == w] for two interface values that hold pointers: the same dynamic
    type and the same address. *)
Definition same_pointer (v w : Value) : bool :=
  match v, w with
  | VPtr t (Some a), VPtr u (Some b) =>
      type_eqb t u && address_eqb (address t a) (address u b)
  | VPtr t None, VPtr u None => type_eqb t u
  | _, _ => false
  end.

(** [reflect.New(t)]: a new object holding the zero value of [t].  The
    handle names the object; the pointer Go returns for it is its
    [address], which two objects of size zero share. *)
Definition alloc (t : GoType) : M nat :=
  λ s, Done (length (objects s))
            (mkState (containers s) (records s) (objects s ++ [zero t]) (trace s)).

Definition set_field (i : nat) (x : Value) (o : Value) : Value :=
  match o with
  | VStruct n d vals => VStruct n d (<[i := x]> vals)
  | _ => o
  end.

Definition store (a i : nat) (x : Value) (s : State) : State :=
  mkState (containers s) (records s) (alter (set_field i x) a (objects s)) (trace s).

(** [val.Field(i).Set(reflect.ValueOf(x))] on the struct at [target]
    ([None] when the struct was passed by value and is not addressable),
    with the checks of [reflect.Value.Set] in their order. *)
Definition Set_field (target : option nat) (f : StructField) (i : nat) (x : Value) : M unit :=
  λ s,
    if negb (exported f) then
      Panic "reflect: reflect.Value.Set using value obtained using unexported field" s
    else
      match target with
      | None => Panic "reflect: reflect.Value.Set using unaddressable value" s
      | Some a =>
          match TypeOf x with
          | None => Panic "reflect: call of reflect.Value.Set on zero Value" s
          | Some t =>
              if assignable t (field_type f) then Done () (store a i x s)
              else Panic "reflect.Set: value is not assignable to the field type" s
          end
      end.

(** The container whose cache holds the instances of a record resolved on
    [this]: [this] for [Scoped], [root] for [Singleton] (the two
    [switch f.Lifetime] around the constructor call, which have no other
    case and no default). *)
Definition cache_owner (s : State) (this : nat) (l : Lifetime) : option nat :=
  match l with
  | Scoped => Some this
  | Singleton => Some (root s this)
  | _ => None
  end.

(** The container whose [destructors] get the teardown closure (the
    [switch f.Lifetime] under [if f.Destructor != nil]): [this] for
    [Transient], which falls through to [Scoped], [root] for [Singleton],
    none for any other value. *)
Definition destructor_owner (s : State) (this : nat) (l : Lifetime) : option nat :=
  match l with
  | Transient | Scoped => Some this
  | Singleton => Some (root s this)
  | _ => None
  end.

(** [cached, ok := this.cache[f]] or [root.cache[f]]. *)
Definition cached (s : State) (this f : nat) : option Value :=
  match cache_owner s this (factory.Lifetime (deref s f)) with
  | Some o => cache (get s o) !! f
  | None => None
  end.

(** [this.cache[f] = instance] or [root.cache[f] = instance]. *)
Definition keep (owner : option nat) (f : nat) (instance : Value) (s : State) : State :=
  match owner with
  | Some o => update o (set_cache f instance) s
  | None => s
  end.

(** [if f.Destructor != nil { switch f.Lifetime { ... append(..., func()
    error {...}) } }]. *)
Definition defer (dtor : option Destructor) (owner : option nat) (f : nat)
    (instance : Value) (s : State) : State :=
  match dtor, owner with
  | Some _, Some o => update o (add_destructor (Teardown f instance)) s
  | _, _ => s
  end.

Section Create.

(** [createInstance] as it is called from inside a constructor: one
    nesting level further down. *)
Variable create : nat → nat → M (Value * option error).

Definition Resolve_with (this : nat) (tag : string) : M (Value * option error) :=
  λ s, match lookup_factory s this tag with
       | Some f => create this f s
       | None => Done (VNil, Some ErrNoMatchingTag) s
       end.

(** [for i := len(factories) - 1; 0 <= i; i--] of [ResolveAll]: [n] is
    [i+1]. *)
Fixpoint create_all (this : nat) (fs : list nat) (n : nat) (instances : list Value)
    : M (list Value * option error) :=
  match n with
  | 0 => ret (instances, None)
  | S i =>
      match fs !! i with
      | Some f =>
          let* r := create this f in
          match r.2 with
          | Some err => ret ([], Some err)
          | None => create_all this fs i (instances ++ [r.1])
          end
      | None => create_all this fs i instances
      end
  end.

Definition ResolveAll_with (this : nat) (tag : string) : M (list Value * option error) :=
  λ s, let fs := collect_factories s this tag in
       create_all this fs (length fs) [] s.

(** [for i := 0; i < t.NumField(); i++] of [Inject], at field [i]. *)
Fixpoint inject_fields (this : nat) (target : option nat) (fs : list StructField) (i : nat)
    : M (option error) :=
  match fs with
  | [] => ret None
  | f :: rest =>
      if String.eqb (field_di f) "" then inject_fields this target rest (S i)
      else
        let* r := Resolve_with this (field_di f) in
        match r.2 with
        | Some err => ret (Some err)
        | None =>
            let* _ := Set_field target f i r.1 in
            inject_fields this target rest (S i)
        end
  end.

Definition Inject_with (this : nat) (v : Value) : M (option error) :=
  match v with
  | VNil | VPtr _ None => panic "reflect: call of reflect.Value.Type on zero Value"
  | VPtr (TStruct _ fs) (Some a) => inject_fields this (Some a) fs 0
  | VStruct _ fs _ => inject_fields this None fs 0
  | _ => panic "struct or pointer to struct required"
  end.

(** A user constructor running on the container [this] it was given. *)
Fixpoint run (this : nat) (p : Program) : M (Value * option error) :=
  match p with
  | Return v err => ret (v, err)
  | New t k => let* a := alloc t in run this (k a)
  | CallResolve tag k => let* r := Resolve_with this tag in run this (k r.1 r.2)
  | CallResolveAll tag k => let* r := ResolveAll_with this tag in run this (k r.1 r.2)
  | CallInject v k => let* err := Inject_with this v in run this (k err)
  | Raise msg => panic msg
  end.

(** The closure [UseType] registers; the result of [c.Inject] is dropped. *)
Definition construct_type (c : nat) (typ : GoType) : M (Value * option error) :=
  let instanceType := match typ with TPtr e => e | _ => typ end in
  let* a := alloc instanceType in
  let* _ := match kind instanceType with
            | Struct => Inject_with c (VPtr instanceType (Some a))
            | _ => ret None
            end in
  match kind typ with
  | Ptr => ret (VPtr instanceType (Some a), None)
  | _ => λ s, Done (default VNil (objects s !! a), None) s
  end.

(** [f.Constructor(this)]. *)
Definition call_constructor (this : nat) (ctor : Constructor) : M (Value * option error) :=
  match ctor with
  | TypeCtor (Some typ) => construct_type this typ
  | TypeCtor None | NilCtor => panic "invalid memory address or nil pointer dereference"
  | ValueCtor v => ret (v, None)
  | UserCtor p => run this p
  end.

Definition createInstance_body (this : nat) (f : nat) : M (Value * option error) :=
  λ s,
    let r := deref s f in
    let l := factory.Lifetime r in
    match cached s this f with
    | Some v => Done (v, None) s
    | None =>
        match call_constructor this (factory.Constructor r) (emit (CtorCall f this) s) with
        | Done (instance, Some err) s1 => Done (instance, Some err) s1
        | Done (instance, None) s1 =>
            Done (instance, None)
                 (defer (factory.Destructor r) (destructor_owner s this l) f instance
                    (keep (cache_owner s this l) f instance s1))
        | Panic msg s1 => Panic msg s1
        | Diverge => Diverge
        end
    end.

End Create.

(** [createInstance] with at most [fuel] constructor calls nested inside it. *)
Fixpoint createInstance (fuel : nat) : nat → nat → M (Value * option error) :=
  match fuel with
  | 0 => λ _ _ _, Diverge
  | S n => createInstance_body (createInstance n)
  end.

Definition Resolve (fuel : nat) : nat → string → M (Value * option error) :=
  Resolve_with (createInstance fuel).

Definition ResolveAll (fuel : nat) : nat → string → M (list Value * option error) :=
  ResolveAll_with (createInstance fuel).

Definition Inject (fuel : nat) : nat → Value → M (option error) :=
  Inject_with (createInstance fuel).

(** ** Teardown *)

(** [dtors[i]()]: the closure calls [f.Destructor(instance)]. *)
Definition call_teardown (d : teardown) : M (option error) :=
  λ s, match factory.Destructor (deref s (td_factory d)) with
       | Some dtor => Done (dtor (td_instance d)) (emit (DtorCall (td_factory d) (td_instance d)) s)
       | None => Panic "invalid memory address or nil pointer dereference" s
       end.

(** [for i := len(dtors) - 1; 0 <= i; i--] of [Close]: [n] is [i+1]. *)
Fixpoint run_teardowns (dtors : list teardown) (n : nat) : M (option error) :=
  match n with
  | 0 => ret None
  | S i =>
      match dtors !! i with
      | Some d =>
          let* err := call_teardown d in
          match err with
          | Some e => ret (Some e)
          | None => run_teardowns dtors i
          end
      | None => run_teardowns dtors i
      end
  end.

Definition Close (this : nat) : M (option error) :=
  λ s, let dtors := destructors (get s this) in
       run_teardowns dtors (length dtors) (update this clear_destructors s).

(** ** The tests of the repository, run on the model *)

(** [newContainer(nil)] in an empty process. *)
Definition start : State := mkState [empty_container None] [] [] [].

Definition state_of {A} (o : Outcome A) : State :=
  match o with Done _ s | Panic _ s => s | Diverge => start end.

Definition result_of {A} (o : Outcome A) : option A :=
  match o with Done a _ => Some a | _ => None end.

(** The state a call ends in, for chaining the calls of a test. *)
Definition after {A} (m : M A) (s : State) : State := state_of (m s).

Definition MyStruct : GoType :=
  TStruct "di.MyStruct" [Field "Name" TString ""; Field "Value" TString ""].

Definition MyStruct2 : GoType :=
  TStruct "di.MyStruct2" [Field "MyStruct" (TPtr MyStruct) "*di.MyStruct"].

Definition boom : error := ErrUser "boom".

(** [TestResolve_Hierarchical] with an alias cycle added: the root holds
    ["greet"], its scope (container 1) declares ["hi" -> "greet"] and
    ["greet" -> "hi"]. *)
Definition hello : State :=
  after (Use 1 "greet" "hi")
    (after (Use 1 "hi" "greet")
       (after (UseValue 0 "greet" (VString "hello"))
          (after (newContainer (Some 0)) start))).

(** [TestResolve_MultipleRegistration]. *)
Definition params : State :=
  after (UseValue 0 "params" (VInt 3))
    (after (UseValue 0 "params" (VInt 2))
       (after (UseValue 0 "params" (VInt 1)) start)).

Definition succeeds : Destructor := λ _, None.
Definition fails : Destructor := λ _, Some boom.

Definition returns (v : Value) : Constructor := UserCtor (Return v None).

(** A root and its scope (container 1); the root holds three transient
    records with destructors, the second of which fails, and a singleton. *)
Definition registered : State :=
  after (UseFactory 0 "g" (returns (VString "g")) (Some succeeds) Singleton)
    (after (UseFactory 0 "c" (returns (VString "c")) (Some succeeds) Transient)
       (after (UseFactory 0 "b" (returns (VString "b")) (Some fails) Transient)
          (after (UseFactory 0 "a" (returns (VString "a")) (Some succeeds) Transient)
             (after (newContainer (Some 0)) start)))).

(** All four are resolved on the scope. *)
Definition closing : State :=
  after (Resolve 1 1 "c")
    (after (Resolve 1 1 "b")
       (after (Resolve 1 1 "a")
          (after (Resolve 1 1 "g") registered))).

(** A singleton with a destructor whose constructor fails. *)
Definition failing : State :=
  after (UseFactory 0 "x" (UserCtor (Return VNil (Some boom))) (Some succeeds) Singleton)
    (after (newContainer (Some 0)) start).

(** A decidable form of [wf]. *)
Definition wfb (s : State) : bool :=
  forallb (λ c, match parent (get s c) with
                | Some p => p <? c
                | None => true
                end) (seq 0 (length (containers s))).

(** A record whose field [Logger] is annotated with ["logger"], registered
    by [UseType] as ["module"] under each lifetime's rules as a pointer
    type; nothing is registered for ["logger"]. *)
Definition Module_ : GoType :=
  TStruct "di.Module" [Field "Name" TString ""; Field "Logger" TInterface "logger"].

Definition unwired : State :=
  after (UseType 0 "module" (VPtr Module_ None) Transient) start.

(** [TestResolve_ScopedCache] and [TestResolve_SingletonCache]: a root with
    two scopes (containers 1 and 2); the root holds [*di.MyStruct] as a
    scoped record (record 0) and as a singleton under the tag ["one"]
    (record 1). *)
Definition scopes : State :=
  after (UseType 0 "one" (VPtr MyStruct None) Singleton)
    (after (RegisterType 0 (VPtr MyStruct None) Scoped)
       (after (newContainer (Some 0))
          (after (newContainer (Some 0)) start))).


(** ** Notions used in the statements *)

(** An alias edge visible from [this]: declared on it or on an ancestor. *)
Definition alias_edge (s : State) (this : nat) (x y : string) : Prop :=
  ∃ a, a ∈ chain_aliases s this ∧ alias.Tag a = x ∧ alias.Aliased a = y.

Definition visit_all (t : string) (tags : list string) (al : list alias.t) : list string :=
  foldl (visit_alias t) tags al.

(** The invariant of the outer loop of [resolveAliases] at index [i]. *)
Record expanding (s : State) (this : nat) (tag : string) (tags : list string) (i : nat)
    : Prop := {
  exp_nodup : NoDup tags;
  exp_start : tag ∈ tags;
  exp_sound : ∀ x, x ∈ tags → rtc (alias_edge s this) tag x;
  exp_done : ∀ j t y, j < i → tags !! j = Some t → alias_edge s this t y → y ∈ tags
}.

(** Two states with the same registrations: the same records, containers,
    parent links, aliases and factory lists. *)
Record same_registry (s s' : State) : Prop := {
  reg_records : records s' = records s;
  reg_length : length (containers s') = length (containers s);
  reg_parent : ∀ c, parent (get s' c) = parent (get s c);
  reg_aliases : ∀ c, aliases (get s' c) = aliases (get s c);
  reg_factories : ∀ c, factories (get s' c) = factories (get s c)
}.

(** What running resolution code on the container [this] can do to a state:
    registrations stay, cache entries stay, a new cache entry or teardown
    closure appears only where the lifetime of its record puts it, objects
    and calls are only added. *)
Record grows (this : nat) (s s' : State) : Prop := {
  g_registry : same_registry s s';
  g_cache : ∀ c f v, cache (get s c) !! f = Some v → cache (get s' c) !! f = Some v;
  g_cache_new : ∀ c f,
    cache (get s c) !! f = None → is_Some (cache (get s' c) !! f) →
    cache_owner s this (factory.Lifetime (deref s f)) = Some c;
  g_destructors : ∀ c, destructors (get s c) `prefix_of` destructors (get s' c);
  g_teardown : ∀ c d,
    d ∈ destructors (get s' c) →
    d ∈ destructors (get s c) ∨
    (is_Some (factory.Destructor (deref s (td_factory d))) ∧
     destructor_owner s this (factory.Lifetime (deref s (td_factory d))) = Some c);
  g_objects : length (objects s) ≤ length (objects s');
  g_trace : trace s `prefix_of` trace s'
}.

(** The state a call leaves behind, whether it returns or panics. *)
Definition final {A} (o : Outcome A) : option State :=
  match o with
  | Done _ s | Panic _ s => Some s
  | Diverge => None
  end.

(** [m] only ends in states related to the one it started in. *)
Definition preserves {A} (R : State → State → Prop) (m : M A) : Prop :=
  ∀ s s', final (m s) = Some s' → R s s'.

(** The records visible from [this] in registration order: the root's
    first and oldest first, those of [this] last. *)
Definition registration_order (s : State) (this : nat) : list nat :=
  concat (map (λ c, factories (get s c)) (reverse (chain s this))).

(** Those whose tag is in the alias set of [tag]. *)
Definition matching (s : State) (this : nat) (tag : string) : list nat :=
  filter (λ f, matches s (resolveAliases s this tag) f) (registration_order s this).

(** Creating the instances of [fs] from the first to the last; the first
    error ends the call with no instances. *)
Fixpoint create_each (create : nat → nat → M (Value * option error)) (this : nat)
    (fs : list nat) (instances : list Value) : M (list Value * option error) :=
  match fs with
  | [] => ret (instances, None)
  | f :: rest =>
      let* r := create this f in
      match r.2 with
      | Some err => ret ([], Some err)
      | None => create_each create this rest (instances ++ [r.1])
      end
  end.

(** Parents are created before their children: a parent's handle is
    smaller than the child's. *)
Definition wf (s : State) : Prop :=
  ∀ c p, parent (get s c) = Some p → p < c.

Definition parent_of (s : State) (c p : nat) : Prop := parent (get s c) = Some p.

(** [c] itself or one of its ancestors. *)
Definition ancestor (s : State) (c a : nat) : Prop := rtc (parent_of s) c a.

(** One call of the API, ending in a return or a panic.  The [Use...] and
    [Register...] functions that add a record are all [register]. *)
Inductive step (s s' : State) : Prop :=
| step_newContainer p :
    (∀ q, p = Some q → q < length (containers s)) →
    final (newContainer p s) = Some s' → step s s'
| step_register this r : final (register this r s) = Some s' → step s s'
| step_Use this tag target : final (Use this tag target s) = Some s' → step s s'
| step_Resolve fuel this tag : final (Resolve fuel this tag s) = Some s' → step s s'
| step_ResolveAll fuel this tag : final (ResolveAll fuel this tag s) = Some s' → step s s'
| step_Inject fuel this v : final (Inject fuel this v s) = Some s' → step s s'
| step_Close this : final (Close this s) = Some s' → step s s'.

(** The states a program can be in, starting with the root registry alone. *)
Definition reachable (s : State) : Prop := rtc step start s.

(** The invariant of reachable states: parents precede their children, and
    a cached instance belongs to a [Scoped] record, or to a [Singleton]
    record and then sits on a container without parent, a teardown closure
    belongs to a record with a destructor, and that of a [Singleton] record
    sits on a container without parent. *)
Record consistent (s : State) : Prop := {
  c_wf : wf s;
  c_cache : ∀ c f v,
    cache (get s c) !! f = Some v →
    factory.Lifetime (deref s f) = Scoped ∨
    (factory.Lifetime (deref s f) = Singleton ∧ parent (get s c) = None);
  c_teardown : ∀ c d,
    d ∈ destructors (get s c) →
    is_Some (factory.Destructor (deref s (td_factory d))) ∧
    (factory.Lifetime (deref s (td_factory d)) = Singleton → parent (get s c) = None)
}.


(** What the closure [d] returns when it is called in [s]. *)
Definition teardown_result (s : State) (d : teardown) : option error :=
  match factory.Destructor (deref s (td_factory d)) with
  | Some dtor => dtor (td_instance d)
  | None => None
  end.

Definition teardown_call (d : teardown) : Event :=
  DtorCall (td_factory d) (td_instance d).

Definition callable (s : State) (d : teardown) : Prop :=
  is_Some (factory.Destructor (deref s (td_factory d))).

Definition emit_all (es : list Event) (s : State) : State :=
  mkState (containers s) (records s) (objects s) (trace s ++ es).

(** Calling the closures of [l] from the first to the last, up to the first
    error. *)
Fixpoint teardown_each (l : list teardown) : M (option error) :=
  match l with
  | [] => ret None
  | d :: rest =>
      let* err := call_teardown d in
      match err with
      | Some e => ret (Some e)
      | None => teardown_each rest
      end
  end.

(** A record value or a reference to one: what [Inject] accepts. *)
Definition is_record (v : Value) : Prop :=
  match v with
  | VStruct _ _ _ | VPtr (TStruct _ _) _ => True
  | _ => False
  end.

(** The fields of the record [Inject] is given. *)
Definition record_fields (v : Value) : list StructField :=
  match v with
  | VStruct _ fs _ | VPtr (TStruct _ fs) _ => fs
  | _ => []
  end.

(** A constructor that makes a new object each time: whenever it returns
    an instance, that is a pointer to an object of non-zero size allocated
    during the call. *)
Definition allocating (ctor : Constructor) : Prop :=
  ∀ fuel this s v s',
    call_constructor (createInstance fuel) this ctor s = Done (v, None) s' →
    ∃ T a, v = VPtr T (Some a) ∧ zero_size T = false ∧
           length (objects s) ≤ a < length (objects s').

(** The closures pending on a list for the record [g]. *)
Definition closures_of (g : nat) (l : list teardown) : list teardown :=
  filter (λ d, td_factory d = g) l.

(** What happened between [s] and [s'] is accounted for by the constructor
    calls recorded in between: a record whose constructor was not called
    has the cache entries and the pending closures it had. *)
Definition accounted (s s' : State) : Prop :=
  ∃ es, trace s' = trace s ++ es ∧
        ∀ g, (∀ c, CtorCall g c ∉ es) →
             ∀ c, cache (get s' c) !! g = cache (get s c) !! g ∧
                  closures_of g (destructors (get s' c))
                  = closures_of g (destructors (get s c)).

(** A record without a constructor to call: the nil [Constructor], or the
    closure of [UseType] over the nil type of a nil value. *)
Definition nil_constructor (ctor : Constructor) : Prop :=
  ctor = NilCtor ∨ ctor = TypeCtor None.

(** Every cached instance was returned by a constructor. *)
Definition constructed (s : State) : Prop :=
  ∀ c f, is_Some (cache (get s c) !! f) →
         ¬ nil_constructor (factory.Constructor (deref s f)).

(** Resolution on [this] that caches only what a constructor returned. *)
Record earning (this : nat) (s s' : State) : Prop := {
  ea_grows : grows this s s';
  ea_constructed : constructed s → constructed s'
}.

(** ** Further notions *)

(** Every handle in a factory list points to a record. *)
Definition handles_valid (s : State) : Prop :=
  ∀ c f, f ∈ factories (get s c) → f < length (records s).

(** Resolution on [this] that leaves every container but [this] and its
    root as it was. *)
Record confined (this : nat) (s s' : State) : Prop := {
  cf_grows : grows this s s';
  cf_others : ∀ c, c ≠ this → c ≠ root s this → get s' c = get s c
}.

(** The value [Inject] assigns to the field [f] holding [old], when the
    record [Resolve] picks for its tag was registered with [UseValue]. *)
Definition dependency (s : State) (this : nat) (f : StructField) (old : Value) : Value :=
  if String.eqb (field_di f) "" then old
  else match lookup_factory s this (field_di f) with
       | Some g =>
           match factory.Constructor (deref s g) with
           | ValueCtor v => v
           | _ => old
           end
       | None => old
       end.

(** A field [Inject] can fill from a registered value: it has no tag, or it
    is exported and its tag leads to a [UseValue] record whose value may be
    assigned to it. *)
Definition wirable (s : State) (this : nat) (f : StructField) : Prop :=
  field_di f = "" ∨
  (exported f = true ∧
   ∃ g v t, lookup_factory s this (field_di f) = Some g ∧
            deref s g = factory.mk (factory.Tag (deref s g)) Transient (ValueCtor v) None ∧
            TypeOf v = Some t ∧ assignable t (field_type f) = true).

(** The type [reflect.New] is called with in the closure of [UseType]. *)
Definition instance_type (typ : GoType) : GoType :=
  match typ with
  | TPtr e => e
  | _ => typ
  end.

(** A type with nothing to inject: not a struct, or a struct without
    annotated fields. *)
Definition plain (t : GoType) : Prop :=
  match t with
  | TStruct _ fs => Forall (λ f, field_di f = "") fs
  | _ => True
  end.

(** [TestResolve_Aliased_Hierarchical]: the root registers [*di.MyStruct]
    and the alias ["struct"] for it; its scope (container 1) the alias
    ["param"] for ["struct"]. *)
Definition aliased : State :=
  after (Use 1 "param" "struct")
    (after (Use 0 "struct" "*di.MyStruct")
       (after (RegisterType 0 (VPtr MyStruct None) Transient)
          (after (newContainer (Some 0)) start))).

(** [unwired] after its ["module"] was resolved once (object 0, with
    nothing to inject) and a value registered for ["logger"]. *)
Definition wirable_state : State :=
  after (UseValue 0 "logger" (VString "stdout"))
    (after (Resolve 1 0 "module") unwired).

(** The value a record registered with [UseValue] holds. *)
Definition record_value (s : State) (f : nat) : Value :=
  match factory.Constructor (deref s f) with
  | ValueCtor v => v
  | _ => VNil
  end.

(** A record as [UseValue] builds it. *)
Definition value_record (s : State) (f : nat) : Prop :=
  deref s f = factory.mk (factory.Tag (deref s f)) Transient
                (ValueCtor (record_value s f)) None.

(** The example of the package: the root registers the pointer type
    [*di.Module]; a scope (container 1) registers the value its field
    [Logger] is to get. *)
Definition example : State :=
  after (UseValue 1 "logger" (VString "stdout"))
    (after (RegisterType 0 (VPtr Module_ None) Transient)
       (after (newContainer (Some 0)) start)).

(** A record with two annotated fields, only the first of which has a
    value registered in [wirable_state]. *)
Definition Pair_ : GoType :=
  TStruct "di.Pair" [Field "First" TInterface "logger"; Field "Second" TInterface "absent"].

Definition half_wired : State := after (alloc Pair_) wirable_state.

(** [type myLogger struct {}] of the package example, a type of size zero.
    The root registers [*di.myLogger] as a scoped record and has two scopes
    (containers 1 and 2). *)
Definition myLogger : GoType := TStruct "di.myLogger" [].

Definition loggers : State :=
  after (RegisterType 0 (VPtr myLogger None) Scoped)
    (after (newContainer (Some 0))
       (after (newContainer (Some 0)) start)).

(** A scoped record ["x"] whose constructor resolves the scoped ["dep"],
    which has a destructor, and then fails. *)
Definition dependent : State :=
  after (UseFactory 0 "x"
           (UserCtor (CallResolve "dep" (λ _ _, Return VNil (Some boom)))) None Scoped)
    (after (UseFactory 0 "dep" (returns (VString "d")) (Some succeeds) Scoped)
       (after (newContainer (Some 0)) start)).

(** A record registered with [Lifetime(7)], with a destructor. *)
Definition odd : State :=
  after (UseFactory 0 "y" (returns (VString "y")) (Some succeeds) (int_Lifetime 7)) start.

(** [wirable_state] with the pointer type [*di.Pair] registered as a
    scoped record: ["logger"] has a value, ["absent"] has no record. *)
Definition half_typed : State :=
  after (UseType 0 "pair" (VPtr Pair_ None) Scoped) wirable_state.

(** A user constructor that allocates a [di.MyStruct] and returns the
    pointer to it. *)
Definition makes_MyStruct : Constructor :=
  UserCtor (New MyStruct (λ a, Return (VPtr MyStruct (Some a)) None)).

(** * Proofs *)

(** ** Alias resolution *)

Lemma Contains_elem (tags : list string) (x : string) :
  Contains tags x = true ↔ x ∈ tags.
Proof.
  induction tags as [|y tags IH]; simpl.
  - split; [discriminate | by intros ?%elem_of_nil].
  - destruct (String.eqb_spec y x) as [->|Hne].
    + split; [intros _; left | done].
    + rewrite IH. split; [by right | by intros [?|?]%elem_of_cons].
Qed.

Lemma Contains_false (tags : list string) (x : string) :
  Contains tags x = false ↔ x ∉ tags.
Proof.
  rewrite <- Contains_elem. destruct (Contains tags x); naive_solver.
Qed.

Lemma scan_visit_all s this t tags :
  scan s this t tags = visit_all t tags (chain_aliases s this).
Proof.
  unfold scan, visit_all, chain_aliases.
  generalize (chain s this) as cs. intros cs. revert tags.
  induction cs as [|c cs IH]; intros tags; simpl; [done|].
  by rewrite foldl_app, IH.
Qed.

Lemma visit_alias_cases t tags a :
  (visit_alias t tags a = tags ∧ (alias.Tag a = t → alias.Aliased a ∈ tags)) ∨
  (visit_alias t tags a = tags ++ [alias.Aliased a] ∧ alias.Tag a = t ∧
   alias.Aliased a ∉ tags).
Proof.
  unfold visit_alias.
  destruct (String.eqb_spec t (alias.Tag a)) as [->|Hne]; simpl.
  - destruct (Contains tags (alias.Aliased a)) eqn:Hc.
    + left. split; [done|]. intros _. by apply Contains_elem.
    + right. by apply Contains_false in Hc.
  - left. split; [done|]. intros Heq. by destruct Hne.
Qed.

(** What one round does to the list: it only grows at the end, stays free
    of duplicates, gains only targets of edges out of [t], and gains all of
    them. *)
Lemma visit_all_spec t al tags :
  NoDup tags →
  ∃ new, visit_all t tags al = tags ++ new ∧
         NoDup (tags ++ new) ∧
         (∀ y, y ∈ new → ∃ a, a ∈ al ∧ alias.Tag a = t ∧ alias.Aliased a = y) ∧
         (∀ a, a ∈ al → alias.Tag a = t → alias.Aliased a ∈ tags ++ new).
Proof.
  revert tags. induction al as [|a al IH]; intros tags Hnd; simpl.
  - exists []. rewrite app_nil_r. split_and!; try done.
    + by intros y ?%elem_of_nil.
    + by intros a ?%elem_of_nil.
  - destruct (visit_alias_cases t tags a) as [[-> Hin]|(-> & Ht & Hnin)].
    + destruct (IH tags Hnd) as (new & -> & Hnd' & Hsrc & Hall).
      exists new. split_and!; try done.
      * intros y Hy. destruct (Hsrc y Hy) as (b & ? & ? & ?).
        exists b. split_and!; try done. by right.
      * intros b [->|Hb]%elem_of_cons Hb'; [|by apply Hall].
        apply elem_of_app. left. by apply Hin.
    + assert (NoDup (tags ++ [alias.Aliased a])) as Hnd1.
      { apply NoDup_app. split_and!; [done | | apply NoDup_singleton].
        intros x Hx ->%list_elem_of_singleton. done. }
      destruct (IH _ Hnd1) as (new & -> & Hnd' & Hsrc & Hall).
      exists (alias.Aliased a :: new).
      rewrite <- app_assoc in *. simpl in *. split_and!; try done.
      * intros y [->|Hy]%elem_of_cons.
        -- exists a. split_and!; try done. by left.
        -- destruct (Hsrc y Hy) as (b & ? & ? & ?).
           exists b. split_and!; try done. by right.
      * intros b [->|Hb]%elem_of_cons Hb'; [|by apply Hall].
        apply elem_of_app. right. by left.
Qed.

Lemma expanding_init s this tag : expanding s this tag [tag] 0.
Proof.
  split.
  - apply NoDup_singleton.
  - by left.
  - by intros x ->%list_elem_of_singleton.
  - intros; lia.
Qed.

Lemma expanding_step s this tag tags i t :
  expanding s this tag tags i → tags !! i = Some t →
  expanding s this tag (scan s this t tags) (S i).
Proof.
  intros [Hnd Hst Hsound Hdone] Hi. rewrite scan_visit_all.
  destruct (visit_all_spec t (chain_aliases s this) tags Hnd)
    as (new & -> & Hnd' & Hsrc & Hall).
  split.
  - done.
  - apply elem_of_app. by left.
  - intros x [Hx|Hx]%elem_of_app; [by apply Hsound|].
    destruct (Hsrc x Hx) as (a & Ha & Hta & Hax).
    eapply rtc_r.
    + apply Hsound. eapply list_elem_of_lookup_2, Hi.
    + by exists a.
  - intros j u y Hj Hu Hedge.
    destruct (decide (j = i)) as [->|Hne].
    + rewrite lookup_app_l in Hu by (by eapply lookup_lt_Some).
      assert (u = t) as -> by congruence.
      destruct Hedge as (a & Ha & Hta & <-). by apply Hall.
    + assert (j < i) as Hlt by lia.
      apply lookup_lt_Some in Hi.
      rewrite lookup_app_l in Hu by lia.
      apply elem_of_app. left. by eapply Hdone.
Qed.

(** The list never holds more than the starting tag and one tag per alias. *)
Lemma expanding_length s this tag tags i :
  expanding s this tag tags i → length tags ≤ S (length (chain_aliases s this)).
Proof.
  intros [Hnd _ Hsound _].
  assert (tags ⊆ tag :: map alias.Aliased (chain_aliases s this)) as Hsub.
  { intros x Hx. specialize (Hsound x Hx).
    destruct (rtc_inv_r _ _ Hsound) as [->|(z & _ & a & Ha & _ & <-)]; [by left|].
    right. apply list_elem_of_fmap. by exists a. }
  apply NoDup_submseteq in Hsub; [|done].
  apply submseteq_length in Hsub. simpl in Hsub. by rewrite length_map in Hsub.
Qed.

Lemma expanding_closed s this tag tags i x :
  expanding s this tag tags i → length tags ≤ i →
  x ∈ tags ↔ rtc (alias_edge s this) tag x.
Proof.
  intros [Hnd Hst Hsound Hdone] Hlen. split; [apply Hsound|].
  intros Hrtc. apply rtc_nsteps in Hrtc as [n Hn].
  revert x Hn. induction n as [|n IH]; intros x Hn.
  - by inversion Hn; subst.
  - apply nsteps_inv_r in Hn as (z & Hz & Hedge).
    apply IH in Hz. apply list_elem_of_lookup in Hz as [j Hj].
    eapply Hdone; [|exact Hj|exact Hedge].
    apply lookup_lt_Some in Hj. lia.
Qed.

Lemma expand_ends s this tag fuel : ∀ tags i,
  expanding s this tag tags i →
  S (length (chain_aliases s this)) - i ≤ fuel →
  ∃ r, expand fuel s this tags i = Some r ∧ NoDup r ∧
       ∀ x, x ∈ r ↔ rtc (alias_edge s this) tag x.
Proof.
  induction fuel as [|fuel IH]; intros tags i Hinv Hfuel.
  - assert (tags !! i = None) as Hi.
    { apply lookup_ge_None. pose proof (expanding_length _ _ _ _ _ Hinv). lia. }
    exists tags. simpl. rewrite Hi. split_and!; [done | apply Hinv |].
    intros x. eapply expanding_closed; [done|]. by apply lookup_ge_None.
  - simpl. destruct (tags !! i) as [t|] eqn:Hi.
    + apply IH; [by apply expanding_step | lia].
    + exists tags. split_and!; [done | apply Hinv |].
      intros x. eapply expanding_closed; [done|]. by apply lookup_ge_None.
Qed.

Lemma expand_more_fuel s this fuel : ∀ tags i r k,
  expand fuel s this tags i = Some r → expand (fuel + k) s this tags i = Some r.
Proof.
  induction fuel as [|fuel IH]; intros tags i r k; simpl.
  - destruct (tags !! i) eqn:Hi; [done|]. intros <-.
    destruct k; simpl; by rewrite Hi.
  - destruct (tags !! i) eqn:Hi; [|done]. apply IH.
Qed.

Lemma resolveAliases_ends s this tag :
  expand (S (length (chain_aliases s this))) s this [tag] 0
  = Some (resolveAliases s this tag).
Proof.
  unfold resolveAliases.
  destruct (expand_ends s this tag (S (length (chain_aliases s this))) [tag] 0)
    as (r & Hr & _); [apply expanding_init | lia |].
  by rewrite Hr.
Qed.

Lemma resolveAliases_reach s this tag x :
  x ∈ resolveAliases s this tag ↔ rtc (alias_edge s this) tag x.
Proof.
  pose proof (resolveAliases_ends s this tag) as He.
  destruct (expand_ends s this tag (S (length (chain_aliases s this))) [tag] 0)
    as (r & Hr & _ & Hreach); [apply expanding_init | lia |].
  rewrite He in Hr. injection Hr as <-. apply Hreach.
Qed.

Lemma resolveAliases_NoDup s this tag : NoDup (resolveAliases s this tag).
Proof.
  pose proof (resolveAliases_ends s this tag) as He.
  destruct (expand_ends s this tag (S (length (chain_aliases s this))) [tag] 0)
    as (r & Hr & Hnd & _); [apply expanding_init | lia |].
  rewrite He in Hr. by injection Hr as <-.
Qed.

(** ** Reading and updating the arena *)

Lemma get_update (c c' : nat) (g : container → container) (s : State) :
  get (update c g s) c' =
  if decide (c = c' ∧ c < length (containers s)) then g (get s c) else get s c'.
Proof.
  unfold get, update, with_containers; simpl.
  rewrite list_lookup_alter.
  destruct (decide (c = c')) as [<-|Hne]; case_decide as H; try naive_solver.
  - destruct H as [_ Hlt].
    destruct (lookup_lt_is_Some_2 _ _ Hlt) as [x ->]. done.
  - rewrite (lookup_ge_None_2 (containers s) c); [done|].
    destruct (decide (c < length (containers s))); [naive_solver | lia].
Qed.

Lemma get_update_eq c g s :
  c < length (containers s) → get (update c g s) c = g (get s c).
Proof. intros. rewrite get_update. case_decide; naive_solver. Qed.

Lemma get_update_ne c c' g s : c ≠ c' → get (update c g s) c' = get s c'.
Proof. intros. rewrite get_update. case_decide; naive_solver. Qed.

Lemma get_invalid s c : length (containers s) ≤ c → get s c = empty_container None.
Proof. intros H. unfold get. by rewrite lookup_ge_None_2. Qed.

Lemma length_update c g s : length (containers (update c g s)) = length (containers s).
Proof. unfold update; simpl. apply length_alter. Qed.

(** ** States with the same registrations resolve alike *)

Lemma same_registry_refl s : same_registry s s.
Proof. by split. Qed.

Lemma same_registry_trans s1 s2 s3 :
  same_registry s1 s2 → same_registry s2 s3 → same_registry s1 s3.
Proof.
  intros [] []. split; intros; etrans; eauto.
Qed.

Lemma same_registry_sym s1 s2 : same_registry s1 s2 → same_registry s2 s1.
Proof. intros []. split; intros; symmetry; eauto. Qed.

Lemma same_registry_update c g s :
  (∀ x, parent (g x) = parent x) → (∀ x, aliases (g x) = aliases x) →
  (∀ x, factories (g x) = factories x) →
  same_registry s (update c g s).
Proof.
  intros Hp Ha Hf. split; try done.
  - apply length_update.
  - intros c'. rewrite get_update. case_decide as H; [destruct H as [<- _]|]; eauto.
  - intros c'. rewrite get_update. case_decide as H; [destruct H as [<- _]|]; eauto.
  - intros c'. rewrite get_update. case_decide as H; [destruct H as [<- _]|]; eauto.
Qed.

Section SameRegistry.
Context (s s' : State) (Hreg : same_registry s s').

Lemma same_chain_from n c : chain_from n s' c = chain_from n s c.
Proof using Hreg.
  revert c. induction n as [|n IH]; intros c; simpl; [done|].
  rewrite (reg_parent _ _ Hreg). destruct (parent (get s c)); [|done].
  by rewrite IH.
Qed.

Lemma same_chain c : chain s' c = chain s c.
Proof using Hreg. apply same_chain_from. Qed.

Lemma same_root c : root s' c = root s c.
Proof using Hreg. unfold root. by rewrite same_chain. Qed.

Lemma same_deref f : deref s' f = deref s f.
Proof using Hreg. unfold deref. by rewrite (reg_records _ _ Hreg). Qed.

Lemma same_chain_aliases c : chain_aliases s' c = chain_aliases s c.
Proof using Hreg.
  unfold chain_aliases. rewrite same_chain. f_equal.
  apply map_ext. intros c'. apply (reg_aliases _ _ Hreg).
Qed.

Lemma same_scan c t tags : scan s' c t tags = scan s c t tags.
Proof using Hreg. by rewrite !scan_visit_all, same_chain_aliases. Qed.

Lemma same_expand fuel c : ∀ tags i, expand fuel s' c tags i = expand fuel s c tags i.
Proof using Hreg.
  induction fuel as [|fuel IH]; intros tags i; simpl; [done|].
  destruct (tags !! i); [|done]. by rewrite same_scan, IH.
Qed.

Lemma same_resolveAliases c tag : resolveAliases s' c tag = resolveAliases s c tag.
Proof using Hreg.
  unfold resolveAliases. by rewrite same_chain_aliases, same_expand.
Qed.

Lemma same_matches tags f : matches s' tags f = matches s tags f.
Proof using Hreg. unfold matches. by rewrite same_deref. Qed.

Lemma same_last_match tags fs n : last_match s' tags fs n = last_match s tags fs n.
Proof using Hreg.
  induction n as [|n IH]; simpl; [done|].
  destruct (fs !! n); [|done]. by rewrite same_matches, IH.
Qed.

Lemma same_first_in_chain tags cs : first_in_chain s' tags cs = first_in_chain s tags cs.
Proof using Hreg.
  induction cs as [|c cs IH]; simpl; [done|].
  by rewrite (reg_factories _ _ Hreg), same_last_match, IH.
Qed.

Lemma same_lookup_factory c tag : lookup_factory s' c tag = lookup_factory s c tag.
Proof using Hreg.
  unfold lookup_factory. by rewrite same_resolveAliases, same_chain, same_first_in_chain.
Qed.

Lemma same_all_matches tags fs n : ∀ acc,
  all_matches s' tags fs n acc = all_matches s tags fs n acc.
Proof using Hreg.
  induction n as [|n IH]; intros acc; simpl; [done|].
  destruct (fs !! n); [|done]. by rewrite same_matches, IH.
Qed.

Lemma same_collect_factories c tag : collect_factories s' c tag = collect_factories s c tag.
Proof using Hreg.
  unfold collect_factories. rewrite same_resolveAliases, same_chain.
  generalize (chain s c) as cs, (@nil nat) as acc.
  induction cs as [|c' cs IH]; intros acc; simpl; [done|].
  by rewrite (reg_factories _ _ Hreg), same_all_matches, IH.
Qed.

Lemma same_cache_owner c l : cache_owner s' c l = cache_owner s c l.
Proof using Hreg. destruct l; simpl; by rewrite ?same_root. Qed.

Lemma same_destructor_owner c l : destructor_owner s' c l = destructor_owner s c l.
Proof using Hreg. destruct l; simpl; by rewrite ?same_root. Qed.

End SameRegistry.

(** ** Resolution only adds to a state *)

Lemma grows_refl this s : grows this s s.
Proof.
  split; [apply same_registry_refl | done | | done | | done | done].
  - intros c f Hnone [v Hv]. congruence.
  - intros c d Hd. by left.
Qed.

Lemma grows_trans this s1 s2 s3 :
  grows this s1 s2 → grows this s2 s3 → grows this s1 s3.
Proof.
  intros H12 H23. split.
  - eapply same_registry_trans; [apply H12 | apply H23].
  - intros c f v Hv. by apply H23, H12.
  - intros c f Hnone Hsome.
    destruct (cache (get s2 c) !! f) as [v|] eqn:H2.
    + apply (g_cache_new _ _ _ H12); [done | by eexists].
    + pose proof (g_cache_new _ _ _ H23 c f H2 Hsome) as Ho.
      rewrite (same_cache_owner _ _ (g_registry _ _ _ H12)) in Ho.
      by rewrite (same_deref _ _ (g_registry _ _ _ H12)) in Ho.
  - intros c. etrans; [apply H12 | apply H23].
  - intros c d Hd. pose proof (g_registry _ _ _ H12) as Hreg.
    destruct (g_teardown _ _ _ H23 c d Hd) as [Hd2|Hnew].
    + by apply (g_teardown _ _ _ H12).
    + right. by rewrite (same_deref _ _ Hreg), (same_destructor_owner _ _ Hreg) in Hnew.
  - etrans; [apply H12 | apply H23].
  - etrans; [apply H12 | apply H23].
Qed.

Lemma grows_emit this e s : grows this s (emit e s).
Proof.
  split; [done | done | | done | | done |].
  - intros c f Hnone [v Hv]. unfold get in *; simpl in *. congruence.
  - intros c d Hd. by left.
  - simpl. by apply prefix_app_r.
Qed.

Lemma grows_alloc this t s s' : final (alloc t s) = Some s' → grows this s s'.
Proof.
  intros [= <-]. split; [done | done | | done | | | done].
  - intros c f Hnone [v Hv]. unfold get in *; simpl in *. congruence.
  - intros c d Hd. by left.
  - simpl. rewrite length_app. lia.
Qed.

Lemma grows_store this a i x s : grows this s (store a i x s).
Proof.
  split; [done | done | | done | | | done].
  - intros c f Hnone [v Hv]. unfold get in *; simpl in *. congruence.
  - intros c d Hd. by left.
  - simpl. by rewrite length_alter.
Qed.

Lemma grows_add_destructor this f v o s :
  is_Some (factory.Destructor (deref s f)) →
  destructor_owner s this (factory.Lifetime (deref s f)) = Some o →
  grows this s (update o (add_destructor (Teardown f v)) s).
Proof.
  intros Hd Ho. split; [| | | | | done | done].
  - by apply same_registry_update.
  - intros c' f' v'. rewrite get_update. by case_decide as H; [destruct H as [<- _]|].
  - intros c' f' Hnone [v' Hv']. rewrite get_update in Hv'.
    case_decide as H; [destruct H as [<- _]|]; simpl in *; congruence.
  - intros c'. rewrite get_update.
    case_decide as H; [destruct H as [<- _]|]; simpl; [by apply prefix_app_r | done].
  - intros c' d. rewrite get_update.
    case_decide as H; [destruct H as [<- _]|]; simpl; [|by left].
    intros [?| ->%list_elem_of_singleton]%elem_of_app; [by left | by right].
Qed.

Lemma grows_defer this f v s :
  grows this s
    (defer (factory.Destructor (deref s f))
       (destructor_owner s this (factory.Lifetime (deref s f))) f v s).
Proof.
  destruct (factory.Destructor (deref s f)) eqn:Hd; simpl; [|apply grows_refl].
  destruct (destructor_owner s this _) as [o|] eqn:Ho; [|apply grows_refl].
  apply grows_add_destructor; [by rewrite Hd | done].
Qed.

(** Storing the instance of [f] after a miss keeps every entry there was. *)
Lemma grows_set_cache this s s1 o f v :
  grows this s s1 →
  cache (get s o) !! f = None →
  cache_owner s this (factory.Lifetime (deref s f)) = Some o →
  grows this s (update o (set_cache f v) s1).
Proof.
  intros H1 Hmiss Howner.
  assert (same_registry s1 (update o (set_cache f v) s1)) as Hreg
    by by apply same_registry_update.
  split.
  - eapply same_registry_trans; [apply H1 | done].
  - intros c f' v' Hv'. rewrite get_update.
    case_decide as H; [destruct H as [<- _]|]; simpl; [|by apply H1].
    destruct (decide (f = f')) as [<-|Hne]; [congruence|].
    rewrite lookup_insert_ne by done. by apply H1.
  - intros c f' Hnone Hsome. rewrite get_update in Hsome.
    case_decide as H; [destruct H as [<- _]|]; simpl in *;
      [|by apply (g_cache_new _ _ _ H1)].
    destruct (decide (f = f')) as [<-|Hne]; [done|].
    rewrite lookup_insert_ne in Hsome by done. by apply (g_cache_new _ _ _ H1).
  - intros c. rewrite get_update.
    case_decide as H; [destruct H as [<- _]|]; simpl; apply H1.
  - intros c d. rewrite get_update.
    case_decide as H; [destruct H as [<- _]|]; simpl; apply H1.
  - simpl. apply H1.
  - simpl. apply H1.
Qed.

Lemma preserves_ret {A} (R : State → State → Prop) `{!Reflexive R} (a : A) :
  preserves R (ret a).
Proof. by intros s s' [= <-]. Qed.

Lemma preserves_panic {A} (R : State → State → Prop) `{!Reflexive R} msg :
  preserves R (panic (A:=A) msg).
Proof. by intros s s' [= <-]. Qed.

Lemma preserves_bind {A B} (R : State → State → Prop) `{!Transitive R}
    (m : M A) (k : A → M B) :
  preserves R m → (∀ a, preserves R (k a)) → preserves R (bind m k).
Proof.
  intros Hm Hk s s'. unfold bind.
  destruct (m s) as [a s1|msg s1|] eqn:Hms; try done.
  - intros Hks. etrans; [apply Hm; by rewrite Hms | by eapply Hk].
  - intros [= <-]. apply Hm. by rewrite Hms.
Qed.

Lemma preserves_done {A} (R : State → State → Prop) (m : M A) s a s' :
  preserves R m → m s = Done a s' → R s s'.
Proof. intros Hm Hs. apply Hm. by rewrite Hs. Qed.

#[local] Instance grows_reflexive this : Reflexive (grows this).
Proof. intros s. apply grows_refl. Qed.

#[local] Instance grows_transitive this : Transitive (grows this).
Proof. intros s1 s2 s3. apply grows_trans. Qed.

Section CreateGrows.
Context (create : nat → nat → M (Value * option error)).
Context (Hcreate : ∀ this f, preserves (grows this) (create this f)).

Lemma Resolve_with_grows this tag : preserves (grows this) (Resolve_with create this tag).
Proof using Hcreate.
  intros s s'. unfold Resolve_with.
  destruct (lookup_factory s this tag) as [f|].
  - apply Hcreate.
  - intros [= <-]. apply grows_refl.
Qed.

Lemma create_all_grows this fs n : ∀ instances,
  preserves (grows this) (create_all create this fs n instances).
Proof using Hcreate.
  induction n as [|n IH]; intros instances; simpl.
  - apply preserves_ret, _.
  - destruct (fs !! n) as [f|]; [|apply IH].
    apply preserves_bind; [apply _ | apply Hcreate |].
    intros [v [err|]]; simpl; [apply preserves_ret, _ | apply IH].
Qed.

Lemma ResolveAll_with_grows this tag :
  preserves (grows this) (ResolveAll_with create this tag).
Proof using Hcreate. intros s s'. unfold ResolveAll_with. apply create_all_grows. Qed.

Lemma Set_field_grows this target f i x :
  preserves (grows this) (Set_field target f i x).
Proof.
  intros s s'. unfold Set_field.
  destruct (negb (exported f)); [by intros [= <-]|].
  destruct target as [a|]; [|by intros [= <-]].
  destruct (TypeOf x) as [t|]; [|by intros [= <-]].
  destruct (assignable t (field_type f)); [|by intros [= <-]].
  intros [= <-]. apply grows_store.
Qed.

Lemma inject_fields_grows this target fs : ∀ i,
  preserves (grows this) (inject_fields create this target fs i).
Proof using Hcreate.
  induction fs as [|f fs IH]; intros i; simpl.
  - apply preserves_ret, _.
  - destruct (String.eqb (field_di f) ""); [apply IH|].
    apply preserves_bind; [apply _ | apply Resolve_with_grows |].
    intros [v [err|]]; simpl; [apply preserves_ret, _|].
    apply preserves_bind; [apply _ | apply Set_field_grows | intros; apply IH].
Qed.

Lemma Inject_with_grows this v : preserves (grows this) (Inject_with create this v).
Proof using Hcreate.
  destruct v as [| | | |e o|]; simpl; try apply preserves_panic, _.
  - destruct e, o; try apply preserves_panic, _. apply inject_fields_grows.
  - apply inject_fields_grows.
Qed.

Lemma run_grows this p : preserves (grows this) (run create this p).
Proof using Hcreate.
  induction p as [v err|t k IH|tag k IH|tag k IH|v k IH|msg]; simpl;
    [|..|apply preserves_panic, _].
  - apply preserves_ret, _.
  - apply preserves_bind; [apply _ | | done].
    intros s s' [= <-]. by eapply grows_alloc.
  - apply preserves_bind; [apply _ | apply Resolve_with_grows | intros; apply IH].
  - apply preserves_bind; [apply _ | apply ResolveAll_with_grows | intros; apply IH].
  - apply preserves_bind; [apply _ | apply Inject_with_grows | intros; apply IH].
Qed.

Lemma construct_type_grows c typ : preserves (grows c) (construct_type create c typ).
Proof using Hcreate.
  unfold construct_type.
  apply preserves_bind; [apply _ | intros s s' [= <-]; by eapply grows_alloc |].
  intros a. apply preserves_bind; [apply _ | |].
  - destruct (kind _); try apply preserves_ret, _. apply Inject_with_grows.
  - intros _. destruct (kind typ); try apply preserves_ret, _;
      intros s s' [= <-]; apply grows_refl.
Qed.

Lemma call_constructor_grows this ctor :
  preserves (grows this) (call_constructor create this ctor).
Proof using Hcreate.
  destruct ctor as [[typ|]|v|p|]; simpl; try apply preserves_panic, _.
  - apply construct_type_grows.
  - apply preserves_ret, _.
  - apply run_grows.
Qed.

Lemma createInstance_body_grows this f :
  preserves (grows this) (createInstance_body create this f).
Proof using Hcreate.
  intros s s'. unfold createInstance_body.
  destruct (cached s this f) as [v|] eqn:Hc.
  { intros [= <-]. apply grows_refl. }
  destruct (call_constructor create this (factory.Constructor (deref s f))
              (emit (CtorCall f this) s)) as [[v [err|]] s1|msg s1|] eqn:Hctor;
    try done.
  all: assert (grows this s s1) as H1
    by (etrans; [apply grows_emit|];
        apply (call_constructor_grows this (factory.Constructor (deref s f)));
        by rewrite Hctor).
  all: intros [= <-]; try done.
  set (s2 := keep _ f v s1).
  assert (grows this s s2) as H2.
  { subst s2. unfold cached in Hc.
    destruct (cache_owner s this (factory.Lifetime (deref s f))) as [o|] eqn:Ho;
      simpl; [|done].
    by apply grows_set_cache. }
  etrans; [exact H2|]. pose proof (g_registry _ _ _ H2) as Hreg.
  rewrite <- (same_deref _ _ Hreg), <- (same_destructor_owner _ _ Hreg).
  apply grows_defer.
Qed.

End CreateGrows.

Lemma createInstance_grows fuel : ∀ this f,
  preserves (grows this) (createInstance fuel this f).
Proof.
  induction fuel as [|fuel IH]; intros this f; simpl; [done|].
  by apply createInstance_body_grows.
Qed.

Lemma Resolve_grows fuel this tag : preserves (grows this) (Resolve fuel this tag).
Proof. apply Resolve_with_grows, createInstance_grows. Qed.

Lemma ResolveAll_grows fuel this tag : preserves (grows this) (ResolveAll fuel this tag).
Proof. apply ResolveAll_with_grows, createInstance_grows. Qed.

Lemma Inject_grows fuel this v : preserves (grows this) (Inject fuel this v).
Proof. apply Inject_with_grows, createInstance_grows. Qed.

(** ** The order in which records are found *)

Lemma last_match_take s tags fs n :
  n ≤ length fs →
  last_match s tags fs n = last (filter (λ f, matches s tags f) (take n fs)).
Proof.
  induction n as [|n IH]; intros Hn; simpl; [done|].
  destruct (lookup_lt_is_Some_2 fs n) as [f Hf]; [lia|].
  rewrite Hf, (take_S_r _ _ _ Hf), filter_app, filter_cons, filter_nil.
  case_decide as Hm.
  - apply Is_true_true in Hm. by rewrite Hm, last_snoc.
  - apply Is_true_false in Hm. rewrite Hm, app_nil_r. apply IH. lia.
Qed.

Lemma all_matches_take s tags fs n : ∀ acc,
  n ≤ length fs →
  all_matches s tags fs n acc
  = acc ++ reverse (filter (λ f, matches s tags f) (take n fs)).
Proof.
  induction n as [|n IH]; intros acc Hn; simpl.
  - by rewrite app_nil_r.
  - destruct (lookup_lt_is_Some_2 fs n) as [f Hf]; [lia|].
    rewrite Hf, (take_S_r _ _ _ Hf), filter_app, filter_cons, filter_nil.
    rewrite IH by lia. rewrite reverse_app.
    case_decide as Hm.
    + apply Is_true_true in Hm. by rewrite Hm, <- app_assoc.
    + apply Is_true_false in Hm. by rewrite Hm.
Qed.

Lemma first_in_chain_last s tags cs :
  first_in_chain s tags cs
  = last (filter (λ f, matches s tags f)
            (concat (map (λ c, factories (get s c)) (reverse cs)))).
Proof.
  induction cs as [|c cs IH]; simpl; [done|].
  rewrite last_match_take, firstn_all by done.
  rewrite reverse_cons, map_app, concat_app, filter_app. simpl.
  rewrite app_nil_r.
  destruct (last (filter _ (factories (get s c)))) as [f|] eqn:Hl.
  - apply last_Some in Hl as [l' ->]. by rewrite app_assoc, last_snoc.
  - apply last_None in Hl. rewrite Hl, app_nil_r. apply IH.
Qed.

(** [Resolve] takes the last matching record in registration order. *)
Lemma lookup_factory_last s this tag :
  lookup_factory s this tag = last (matching s this tag).
Proof. apply first_in_chain_last. Qed.

(** [ResolveAll] collects the matching records latest first. *)
Lemma collect_factories_reverse s this tag :
  collect_factories s this tag = reverse (matching s this tag).
Proof.
  unfold collect_factories, matching, registration_order.
  generalize (resolveAliases s this tag) as tags. intros tags.
  assert (∀ cs acc,
    foldl (λ acc c, all_matches s tags (factories (get s c))
                      (length (factories (get s c))) acc) acc cs
    = acc ++ reverse (filter (λ f, matches s tags f)
                        (concat (map (λ c, factories (get s c)) (reverse cs))))) as H.
  { induction cs as [|c cs IH]; intros acc; simpl.
    - by rewrite app_nil_r.
    - rewrite IH, all_matches_take, firstn_all by done.
      rewrite reverse_cons, map_app, concat_app, filter_app, reverse_app. simpl.
      by rewrite app_nil_r, app_assoc. }
  by rewrite H.
Qed.

Lemma create_all_each create this fs n : ∀ instances s,
  n ≤ length fs →
  create_all create this fs n instances s
  = create_each create this (reverse (take n fs)) instances s.
Proof.
  induction n as [|n IH]; intros instances s Hn; simpl; [done|].
  destruct (lookup_lt_is_Some_2 fs n) as [f Hf]; [lia|].
  rewrite Hf, (take_S_r _ _ _ Hf), reverse_app. simpl.
  unfold bind.
  destruct (create this f s) as [[v [err|]] s1| |]; simpl; try done.
  apply IH. lia.
Qed.

Lemma ResolveAll_with_each create this tag s :
  ResolveAll_with create this tag s
  = create_each create this (matching s this tag) [] s.
Proof.
  unfold ResolveAll_with.
  rewrite create_all_each, firstn_all by done.
  by rewrite collect_factories_reverse, reverse_involutive.
Qed.

Lemma elem_of_registration_order s this f :
  f ∈ registration_order s this ↔ ∃ c, c ∈ chain s this ∧ f ∈ factories (get s c).
Proof.
  unfold registration_order. rewrite list_elem_of_In, in_concat. split.
  - intros (l & Hl & Hf). apply in_map_iff in Hl as (c & <- & Hc).
    exists c. rewrite <- list_elem_of_In, elem_of_reverse in Hc.
    by rewrite <- list_elem_of_In in Hf.
  - intros (c & Hc & Hf). exists (factories (get s c)).
    split; [|by apply list_elem_of_In].
    apply in_map_iff. exists c. split; [done|].
    by apply list_elem_of_In, elem_of_reverse.
Qed.

Lemma matches_reach s this tag f :
  matches s (resolveAliases s this tag) f = true
  ↔ rtc (alias_edge s this) tag (factory.Tag (deref s f)).
Proof. unfold matches. by rewrite Contains_elem, resolveAliases_reach. Qed.

Lemma elem_of_matching s this tag f :
  f ∈ matching s this tag ↔
  ∃ c, c ∈ chain s this ∧ f ∈ factories (get s c) ∧
       rtc (alias_edge s this) tag (factory.Tag (deref s f)).
Proof.
  unfold matching.
  rewrite list_elem_of_filter, elem_of_registration_order, Is_true_true, matches_reach.
  naive_solver.
Qed.

(** No record visible from [this] carries a tag of the alias set. *)
Lemma matching_nil s this tag :
  matching s this tag = [] ↔
  ∀ c f, c ∈ chain s this → f ∈ factories (get s c) →
         ¬ rtc (alias_edge s this) tag (factory.Tag (deref s f)).
Proof.
  split.
  - intros Hnil c f Hc Hf Hr.
    assert (f ∈ matching s this tag) as Hin by (apply elem_of_matching; eauto).
    rewrite Hnil in Hin. by apply elem_of_nil in Hin.
  - intros Hno. destruct (matching s this tag) as [|f l] eqn:Hm; [done|].
    assert (f ∈ matching s this tag) as Hin by (rewrite Hm; left).
    apply elem_of_matching in Hin as (c & Hc & Hf & Hr). by destruct (Hno c f).
Qed.

Lemma inject_fields_app create this target fs1 fs2 : ∀ i s,
  inject_fields create this target (fs1 ++ fs2) i s =
  match inject_fields create this target fs1 i s with
  | Done None s1 => inject_fields create this target fs2 (i + length fs1) s1
  | o => o
  end.
Proof.
  induction fs1 as [|f fs1 IH]; intros i s; simpl.
  - by rewrite Nat.add_0_r.
  - destruct (String.eqb (field_di f) "").
    { rewrite IH. by replace (S i + length fs1) with (i + S (length fs1)) by lia. }
    unfold bind.
    destruct (Resolve_with create this (field_di f) s) as [[v [err|]] s1| |];
      simpl; try done.
    destruct (Set_field target f i v s1) as [[] s2| |]; try done.
    rewrite IH. by replace (S i + length fs1) with (i + S (length fs1)) by lia.
Qed.

(** ** The parent chain *)

Lemma ancestor_inv s c a :
  ancestor s c a ↔ a = c ∨ ∃ p, parent (get s c) = Some p ∧ ancestor s p a.
Proof.
  split.
  - intros H. destruct (rtc_inv _ _ H) as [->|(p & Hp & Hr)]; [by left|].
    right. by exists p.
  - intros [->|(p & Hp & Hr)]; [apply rtc_refl|]. by eapply rtc_l.
Qed.

Lemma chain_from_ancestors s (Hwf : wf s) n : ∀ c a,
  c ≤ n → a ∈ chain_from n s c ↔ ancestor s c a.
Proof.
  induction n as [|n IH]; intros c a Hc.
  - simpl. rewrite ancestor_inv, list_elem_of_singleton.
    split; [by left|]. intros [?|(p & Hp & _)]; [done|].
    apply Hwf in Hp. lia.
  - simpl. rewrite ancestor_inv, elem_of_cons.
    destruct (parent (get s c)) as [p|] eqn:Hp.
    + rewrite IH by (apply Hwf in Hp; lia). naive_solver.
    + rewrite elem_of_nil. naive_solver.
Qed.

(** Under [wf] the loop over [c.parent] visits exactly the ancestors. *)
Lemma chain_ancestors s this a : wf s → a ∈ chain s this ↔ ancestor s this a.
Proof. intros Hwf. by apply chain_from_ancestors. Qed.

Lemma chain_from_last s (Hwf : wf s) n : ∀ c,
  c ≤ n → ∃ r, last (chain_from n s c) = Some r ∧ parent (get s r) = None.
Proof.
  induction n as [|n IH]; intros c Hc; simpl.
  - exists c. split; [done|].
    destruct (parent (get s c)) as [p|] eqn:Hp; [|done]. apply Hwf in Hp. lia.
  - destruct (parent (get s c)) as [p|] eqn:Hp.
    + destruct (IH p) as (r & Hr & Hnone); [apply Hwf in Hp; lia|].
      exists r. split; [|done].
      destruct (chain_from n s p) eqn:Hch; [by destruct n|]. done.
    + by exists c.
Qed.

(** The root is the ancestor with no parent. *)
Lemma root_no_parent s this : wf s → parent (get s (root s this)) = None.
Proof.
  intros Hwf. unfold root, chain.
  destruct (chain_from_last s Hwf this this) as (r & -> & Hr); done.
Qed.

Lemma root_in_chain s this : root s this ∈ chain s this.
Proof.
  unfold root. destruct (last (chain s this)) as [r|] eqn:Hl; simpl.
  - apply last_Some in Hl as [l' ->]. apply elem_of_app. right. by left.
  - apply last_None in Hl. unfold chain in Hl. by destruct this.
Qed.

Lemma root_ancestor s this : wf s → ancestor s this (root s this).
Proof. intros Hwf. apply chain_ancestors; [done | apply root_in_chain]. Qed.

Lemma chain_head s this : ∃ rest, chain s this = this :: rest.
Proof. unfold chain. destruct this; simpl; eauto. Qed.

Lemma ancestor_le s c a : wf s → ancestor s c a → a ≤ c.
Proof.
  intros Hwf H. induction H as [|c p a Hp _ IH]; [done|].
  apply Hwf in Hp. lia.
Qed.

(** A container with a parent is not a root. *)
Lemma root_of_child s this c p :
  wf s → parent (get s c) = Some p → c ≠ root s this.
Proof. intros Hwf Hp ->. by rewrite root_no_parent in Hp. Qed.

Lemma alias_edge_ancestors s this x y :
  wf s →
  alias_edge s this x y ↔
  ∃ c a, ancestor s this c ∧ a ∈ aliases (get s c) ∧
         alias.Tag a = x ∧ alias.Aliased a = y.
Proof.
  intros Hwf. unfold alias_edge, chain_aliases. split.
  - intros (a & Ha & Hx & Hy).
    rewrite list_elem_of_In, in_concat in Ha. destruct Ha as (l & Hl & Ha).
    apply in_map_iff in Hl as (c & <- & Hc).
    exists c, a. rewrite <- !list_elem_of_In in *.
    split_and!; try done. by apply chain_ancestors.
  - intros (c & a & Hc & Ha & Hx & Hy). exists a. split_and!; try done.
    rewrite list_elem_of_In, in_concat. exists (aliases (get s c)).
    split; [|by apply list_elem_of_In].
    apply in_map_iff. exists c. split; [done|].
    by apply list_elem_of_In, chain_ancestors.
Qed.


Lemma wfb_wf s : wfb s = true → wf s.
Proof.
  unfold wfb. rewrite forallb_forall. intros H c p Hp.
  destruct (decide (c < length (containers s))) as [Hc|Hc].
  - specialize (H c). rewrite Hp in H. apply Nat.ltb_lt, H, in_seq. lia.
  - by rewrite get_invalid in Hp by lia.
Qed.

Lemma chain_valid s this c :
  wf s → this < length (containers s) → c ∈ chain s this → c < length (containers s).
Proof.
  intros Hwf Hthis Hc. apply chain_ancestors, ancestor_le in Hc; [lia | done..].
Qed.

Lemma root_valid s this :
  wf s → this < length (containers s) → root s this < length (containers s).
Proof. intros Hwf Hthis. eapply chain_valid; [done..|apply root_in_chain]. Qed.

Lemma destructor_owner_valid s this l o :
  wf s → this < length (containers s) →
  destructor_owner s this l = Some o → o < length (containers s).
Proof. intros ? ?. destruct l; simpl; intros [= <-]; by try apply root_valid. Qed.

(** ** Reachable states *)

Lemma deref_prefix s s' f :
  records s `prefix_of` records s' → f < length (records s) → deref s' f = deref s f.
Proof.
  intros [k Hk] Hf. unfold deref. by rewrite Hk, lookup_app_l.
Qed.

Lemma deref_invalid s f : length (records s) ≤ f → deref s f = nil_factory.
Proof. intros H. unfold deref. by rewrite lookup_ge_None_2. Qed.

(** A record with a cached instance exists. *)
Lemma cached_valid s c f v :
  consistent s → cache (get s c) !! f = Some v → f < length (records s).
Proof.
  intros Hc Hv. destruct (decide (f < length (records s))) as [|Hge]; [done|].
  apply (c_cache _ Hc) in Hv. rewrite deref_invalid in Hv by lia.
  simpl in Hv. naive_solver.
Qed.

Lemma teardown_valid s c d :
  consistent s → d ∈ destructors (get s c) → td_factory d < length (records s).
Proof.
  intros Hc Hd. destruct (decide (td_factory d < length (records s))) as [|Hge]; [done|].
  apply (c_teardown _ Hc) in Hd as [[x Hx] _]. by rewrite deref_invalid in Hx by lia.
Qed.




Lemma grows_consistent this s s' : consistent s → grows this s s' → consistent s'.
Proof.
  intros Hc H. pose proof (g_registry _ _ _ H) as Hreg. split.
  - intros c p. rewrite (reg_parent _ _ Hreg). apply Hc.
  - intros c f v Hv. rewrite (same_deref _ _ Hreg), (reg_parent _ _ Hreg).
    destruct (cache (get s c) !! f) as [v0|] eqn:H0; [by eapply (c_cache _ Hc)|].
    pose proof (g_cache_new _ _ _ H c f H0 (mk_is_Some _ _ Hv)) as Ho.
    destruct (factory.Lifetime (deref s f)); simpl in Ho; [done | by left | | done..].
    right. split; [done|]. injection Ho as <-. apply root_no_parent, Hc.
  - intros c d Hd. rewrite (same_deref _ _ Hreg), (reg_parent _ _ Hreg).
    destruct (g_teardown _ _ _ H c d Hd) as [Hold|[Hsome Ho]];
      [by apply (c_teardown _ Hc)|].
    split; [done|]. intros Hl. rewrite Hl in Ho. simpl in Ho. injection Ho as <-.
    apply root_no_parent, Hc.
Qed.

(** *** Registration and scopes *)

Lemma newContainer_get p s c :
  get (with_containers (containers s ++ [empty_container p]) s) c =
  if decide (c = length (containers s)) then empty_container p else get s c.
Proof.
  unfold get; simpl. case_decide as H.
  - subst c. by rewrite lookup_app_r, Nat.sub_diag.
  - destruct (decide (c < length (containers s))).
    + by rewrite lookup_app_l.
    + rewrite !lookup_ge_None_2; [done | lia |]. rewrite length_app; simpl. lia.
Qed.


Lemma newContainer_consistent p s s' :
  (∀ q, p = Some q → q < length (containers s)) →
  consistent s → final (newContainer p s) = Some s' → consistent s'.
Proof.
  intros Hp Hc [= <-]. split.
  - intros c q. rewrite newContainer_get. case_decide as H; [|apply Hc].
    subst c. simpl. intros ->. by apply Hp.
  - intros c f v. rewrite newContainer_get.
    replace (deref (with_containers _ s) f) with (deref s f) by done.
    case_decide as H; [done | apply Hc].
  - intros c d. rewrite newContainer_get.
    replace (deref (with_containers _ s) (td_factory d))
      with (deref s (td_factory d)) by done.
    case_decide as H; [by intros ?%elem_of_nil | apply Hc].
Qed.

Lemma register_get this r s c :
  get (update this (add_factory (length (records s)))
         (mkState (containers s) (records s ++ [r]) (objects s) (trace s))) c =
  if decide (this = c ∧ this < length (containers s))
  then add_factory (length (records s)) (get s c) else get s c.
Proof.
  rewrite get_update; simpl. case_decide as H; [destruct H as [<- _]|]; done.
Qed.

Lemma after_register_get this r s c :
  get (after (register this r) s) c =
  if decide (this = c ∧ this < length (containers s))
  then add_factory (length (records s)) (get s c) else get s c.
Proof. apply register_get. Qed.

Lemma after_register_records this r s :
  records (after (register this r) s) = records s ++ [r].
Proof. done. Qed.

Lemma after_register_length this r s :
  length (containers (after (register this r) s)) = length (containers s).
Proof. unfold after, register; simpl. apply length_alter. Qed.


Lemma register_consistent this r s s' :
  consistent s → final (register this r s) = Some s' → consistent s'.
Proof.
  intros Hc [= <-]. split.
  - intros c p. rewrite register_get. case_decide; apply Hc.
  - intros c f v Hv.
    assert (cache (get s c) !! f = Some v) as Hv'.
    { rewrite register_get in Hv. by case_decide. }
    assert (parent (get (update this (add_factory (length (records s)))
              (mkState (containers s) (records s ++ [r]) (objects s) (trace s))) c)
            = parent (get s c)) as ->.
    { rewrite register_get. by case_decide. }
    rewrite (deref_prefix s); [by eapply (c_cache _ Hc) | |by eapply cached_valid].
    simpl. by apply prefix_app_r.
  - intros c d Hd.
    assert (d ∈ destructors (get s c)) as Hd'.
    { rewrite register_get in Hd. by case_decide. }
    assert (parent (get (update this (add_factory (length (records s)))
              (mkState (containers s) (records s ++ [r]) (objects s) (trace s))) c)
            = parent (get s c)) as ->.
    { rewrite register_get. by case_decide. }
    rewrite (deref_prefix s); [by eapply (c_teardown _ Hc) | |by eapply teardown_valid].
    simpl. by apply prefix_app_r.
Qed.


Lemma Use_consistent this tag target s s' :
  consistent s → final (Use this tag target s) = Some s' → consistent s'.
Proof.
  intros Hc [= <-]. split.
  - intros c p. rewrite get_update.
    case_decide as H; [destruct H as [<- _]|]; apply Hc.
  - intros c f v. rewrite get_update.
    replace (deref (update _ _ s) f) with (deref s f) by done.
    case_decide as H; [destruct H as [<- _]|]; apply Hc.
  - intros c d. rewrite get_update.
    replace (deref (update _ _ s) (td_factory d)) with (deref s (td_factory d)) by done.
    case_decide as H; [destruct H as [<- _]|]; apply Hc.
Qed.

(** *** Teardown *)

Lemma run_teardowns_state dtors n : ∀ s s',
  final (run_teardowns dtors n s) = Some s' →
  containers s' = containers s ∧ records s' = records s ∧ objects s' = objects s.
Proof.
  induction n as [|n IH]; intros s s'; simpl.
  - by intros [= <-].
  - destruct (dtors !! n) as [d|]; [|apply IH].
    unfold bind, call_teardown.
    destruct (factory.Destructor (deref s (td_factory d))) as [dtor|]; [|by intros [= <-]].
    destruct (dtor (td_instance d)); [by intros [= <-]|].
    intros H. by apply IH in H.
Qed.

Lemma Close_get this s s' c :
  final (Close this s) = Some s' →
  get s' c = if decide (this = c ∧ this < length (containers s))
             then clear_destructors (get s c) else get s c.
Proof.
  unfold Close. intros H. apply run_teardowns_state in H as (Hc & _ & _).
  trans (get (update this clear_destructors s) c); [unfold get; by rewrite Hc|].
  rewrite get_update. by case_decide as H'; [destruct H' as [<- _]|].
Qed.

Lemma Close_records this s s' : final (Close this s) = Some s' → records s' = records s.
Proof. unfold Close. intros H. by apply run_teardowns_state in H as (_ & -> & _). Qed.


Lemma Close_consistent this s s' :
  consistent s → final (Close this s) = Some s' → consistent s'.
Proof.
  intros Hc H. split.
  - intros c p. rewrite (Close_get _ _ _ _ H).
    case_decide as H'; [destruct H' as [<- _]|]; apply Hc.
  - intros c f v. unfold deref. rewrite (Close_records _ _ _ H), (Close_get _ _ _ _ H).
    case_decide as H'; [destruct H' as [<- _]|]; apply Hc.
  - intros c d. unfold deref. rewrite (Close_records _ _ _ H), (Close_get _ _ _ _ H).
    case_decide as H'; [destruct H' as [<- _]|]; [by intros ?%elem_of_nil | apply Hc].
Qed.

(** *** Every step *)


Lemma step_consistent s s' : consistent s → step s s' → consistent s'.
Proof.
  intros Hc [p Hp H|this r H|this tag target H|fuel this tag H|fuel this tag H
            |fuel this v H|this H].
  - by eapply newContainer_consistent.
  - by eapply register_consistent.
  - by eapply Use_consistent.
  - eapply grows_consistent, Resolve_grows, H. done.
  - eapply grows_consistent, ResolveAll_grows, H. done.
  - eapply grows_consistent, Inject_grows, H. done.
  - by eapply Close_consistent.
Qed.


Lemma steps_consistent s s' : consistent s → rtc step s s' → consistent s'.
Proof.
  intros Hc H. induction H as [|s1 s2 s3 H12 _ IH]; [done|].
  apply IH. by eapply step_consistent.
Qed.

Lemma start_consistent : consistent start.
Proof.
  split.
  - intros c p. unfold get, start; simpl. by destruct c as [|[|c]].
  - intros c f v. unfold get, start; simpl. by destruct c as [|[|c]].
  - intros c d. unfold get, start; simpl. by destruct c as [|[|c]]; intros ?%elem_of_nil.
Qed.

Lemma reachable_consistent s : reachable s → consistent s.
Proof. apply steps_consistent, start_consistent. Qed.



(** ** Teardown *)

Lemma run_teardowns_each dtors n s :
  n ≤ length dtors →
  run_teardowns dtors n s = teardown_each (reverse (take n dtors)) s.
Proof.
  revert s. induction n as [|n IH]; intros s Hn; simpl; [done|].
  destruct (lookup_lt_is_Some_2 dtors n) as [d Hd]; [lia|].
  rewrite Hd, (take_S_r _ _ _ Hd), reverse_app. simpl.
  unfold bind. destruct (call_teardown d s) as [[e|] s1| |]; try done.
  apply IH. lia.
Qed.

Lemma emit_all_nil s : emit_all [] s = s.
Proof. destruct s. unfold emit_all; simpl. by rewrite app_nil_r. Qed.

Lemma emit_all_cons e es s : emit_all (e :: es) s = emit_all es (emit e s).
Proof. unfold emit_all, emit; simpl. by rewrite <- app_assoc. Qed.

Lemma teardown_each_spec l : ∀ s0,
  Forall (callable s0) l →
  ∃ called rest err,
    l = called ++ rest ∧
    teardown_each l s0 = Done err (emit_all (map teardown_call called) s0) ∧
    ((err = None ∧ rest = [] ∧ Forall (λ d, teardown_result s0 d = None) called) ∨
     (∃ ok bad e, called = ok ++ [bad] ∧
                  Forall (λ d, teardown_result s0 d = None) ok ∧
                  teardown_result s0 bad = Some e ∧ err = Some e)).
Proof.
  induction l as [|d l IH]; intros s0 Hcall.
  - exists [], [], None. simpl. rewrite emit_all_nil. split_and!; try done.
    left. by split_and!.
  - apply Forall_cons in Hcall as [[dtor Hd] Hl]. simpl.
    unfold bind, call_teardown. rewrite Hd.
    destruct (dtor (td_instance d)) as [e|] eqn:He.
    + exists [d], l, (Some e). simpl. split_and!; try done.
      right. exists [], d, e. split_and!; try done.
      unfold teardown_result. by rewrite Hd.
    + destruct (IH (emit (DtorCall (td_factory d) (td_instance d)) s0))
        as (called & rest & err & -> & Hrun & Hout); [done|].
      exists (d :: called), rest, err. split_and!; [done | |].
      * rewrite Hrun. simpl. by rewrite emit_all_cons.
      * assert (teardown_result s0 d = None) as Hd0
          by (unfold teardown_result; by rewrite Hd).
        destruct Hout as [(-> & -> & Hok)|(ok & bad & e & -> & Hok & Hbad & ->)].
        -- left. split_and!; try done. by constructor.
        -- right. exists (d :: ok), bad, e. split_and!; try done. by constructor.
Qed.

(** In a reachable state every recorded closure has its destructor. *)
Lemma reachable_callable s c :
  reachable s → Forall (callable s) (destructors (get s c)).
Proof.
  intros Hr. apply reachable_consistent in Hr.
  apply Forall_forall. intros d Hd. by apply (c_teardown _ Hr) in Hd as [? _].
Qed.

(** ** What [createInstance] adds after the constructor *)

Lemma keep_get o f v s c :
  parent (get (keep o f v s) c) = parent (get s c) ∧
  destructors (get (keep o f v s) c) = destructors (get s c).
Proof.
  destruct o as [o|]; simpl; [|done]. rewrite get_update.
  by case_decide as H; [destruct H as [<- _]|].
Qed.

Lemma length_keep o f v s : length (containers (keep o f v s)) = length (containers s).
Proof. destruct o; simpl; [apply length_update | done]. Qed.


Lemma defer_cache dtor o f v s c : cache (get (defer dtor o f v s) c) = cache (get s c).
Proof.
  destruct dtor, o as [o|]; simpl; [|done..]. rewrite get_update.
  by case_decide as H; [destruct H as [<- _]|].
Qed.

Lemma createInstance_hit fuel this f s v :
  cached s this f = Some v → createInstance (S fuel) this f s = Done (v, None) s.
Proof. intros H. simpl. unfold createInstance_body. by rewrite H. Qed.

Lemma createInstance_miss fuel this f s :
  cached s this f = None →
  createInstance (S fuel) this f s =
  match call_constructor (createInstance fuel) this (factory.Constructor (deref s f))
          (emit (CtorCall f this) s) with
  | Done (instance, Some err) s1 => Done (instance, Some err) s1
  | Done (instance, None) s1 =>
      Done (instance, None)
           (defer (factory.Destructor (deref s f))
              (destructor_owner s this (factory.Lifetime (deref s f))) f instance
              (keep (cache_owner s this (factory.Lifetime (deref s f))) f instance s1))
  | Panic msg s1 => Panic msg s1
  | Diverge => Diverge
  end.
Proof. intros H. simpl. unfold createInstance_body. by rewrite H. Qed.

Lemma call_constructor_grows_from fuel this f s r s1 :
  call_constructor (createInstance fuel) this (factory.Constructor (deref s f))
    (emit (CtorCall f this) s) = Done r s1 →
  grows this s s1.
Proof.
  intros H. etrans; [apply (grows_emit this (CtorCall f this))|].
  eapply preserves_done; [|exact H].
  apply call_constructor_grows, createInstance_grows.
Qed.

(** ** Injection *)

Lemma inject_fields_error create this target fs : ∀ i s err s',
  inject_fields create this target fs i s = Done (Some err) s' →
  ∃ f x s0, f ∈ fs ∧ field_di f ≠ "" ∧
            Resolve_with create this (field_di f) s0 = Done (x, Some err) s'.
Proof.
  induction fs as [|f fs IH]; intros i s err s'; simpl; [done|].
  destruct (String.eqb_spec (field_di f) "") as [Hdi|Hdi].
  - intros H. apply IH in H as (g & x & s0 & Hg & Hne & HR).
    exists g, x, s0. split_and!; try done. by right.
  - unfold bind.
    destruct (Resolve_with create this (field_di f) s) as [[x [e|]] s1| |] eqn:HR;
      simpl; try done.
    + intros [= <- <-]. exists f, x, s. split_and!; try done. by left.
    + destruct (Set_field target f i x s1) as [[] s2| |]; try done.
      intros H. apply IH in H as (g & y & s0 & Hg & Hne & HR').
      exists g, y, s0. split_and!; try done. by right.
Qed.

Lemma inject_fields_unannotated create this target fs : ∀ i s,
  Forall (λ f, field_di f = "") fs →
  inject_fields create this target fs i s = Done None s.
Proof.
  induction fs as [|f fs IH]; intros i s Hfs; simpl; [done|].
  apply Forall_cons in Hfs as [-> Hfs]. simpl. by apply IH.
Qed.

(** Injection stops at the first annotated field when its tag has no
    record: nothing has been assigned. *)
Lemma inject_fields_unmatched create this target before f after s :
  Forall (λ f, field_di f = "") before →
  field_di f ≠ "" → lookup_factory s this (field_di f) = None →
  inject_fields create this target (before ++ f :: after) 0 s
  = Done (Some ErrNoMatchingTag) s.
Proof.
  intros Hbefore Hdi Hlookup.
  rewrite inject_fields_app, inject_fields_unannotated by done. simpl.
  destruct (String.eqb_spec (field_di f) "") as [|_]; [done|].
  unfold bind, Resolve_with. by rewrite Hlookup.
Qed.

Lemma objects_keep o f v s : objects (keep o f v s) = objects s.
Proof. by destruct o. Qed.

Lemma objects_defer dtor o f v s : objects (defer dtor o f v s) = objects s.
Proof. by destruct dtor, o. Qed.

(** The closure of [UseType] returns a nil error whenever it returns. *)
Lemma construct_type_no_error create c typ s v err s' :
  construct_type create c typ s = Done (v, err) s' → err = None.
Proof.
  unfold construct_type, bind, alloc.
  set (T := match typ with TPtr e => e | _ => typ end).
  destruct (kind T); unfold ret;
    try (destruct (kind typ); by intros [= _ <-]).
  destruct (Inject_with create c (VPtr T (Some (length (objects s)))) _)
    as [ierr s1| |]; try done.
  destruct (kind typ); by intros [= _ <-].
Qed.

(** The closure of [UseType] on a struct type and on a pointer to one:
    allocate, inject, and return whatever injection returned. *)
Lemma construct_type_record create c n fs s :
  let T := TStruct n fs in
  let a := length (objects s) in
  (construct_type create c T s =
   match Inject_with create c (VPtr T (Some a)) (after (alloc T) s) with
   | Done _ s1 => Done (default VNil (objects s1 !! a), None) s1
   | Panic msg s1 => Panic msg s1
   | Diverge => Diverge
   end) ∧
  (construct_type create c (TPtr T) s =
   match Inject_with create c (VPtr T (Some a)) (after (alloc T) s) with
   | Done _ s1 => Done (VPtr T (Some a), None) s1
   | Panic msg s1 => Panic msg s1
   | Diverge => Diverge
   end).
Proof. split; reflexivity. Qed.

(** ** Building reachable states *)

Lemma step_after_newContainer p s :
  (∀ q, p = Some q → q < length (containers s)) → step s (after (newContainer p) s).
Proof. intros Hp. by eapply step_newContainer. Qed.

Lemma step_after_register this r s : step s (after (register this r) s).
Proof. by eapply step_register. Qed.

Lemma step_after_Use this tag target s : step s (after (Use this tag target) s).
Proof. by eapply step_Use. Qed.

Lemma step_after_Resolve fuel this tag s :
  is_Some (final (Resolve fuel this tag s)) → step s (after (Resolve fuel this tag) s).
Proof.
  intros [s' Hs']. apply (step_Resolve _ _ fuel this tag). unfold after, state_of.
  by destruct (Resolve fuel this tag s).
Qed.

Lemma scopes_reachable : reachable scopes.
Proof.
  unfold reachable, scopes.
  eapply rtc_r; [|apply (step_after_register 0)].
  eapply rtc_r; [|apply (step_after_register 0)].
  eapply rtc_r; [|apply step_after_newContainer; intros q [= <-]; vm_compute; lia].
  eapply rtc_r; [|apply step_after_newContainer; intros q [= <-]; vm_compute; lia].
  apply rtc_refl.
Qed.

(** ** Records and their caches *)




(** The closure of [UseType] on a pointer type returns a pointer to the
    object it has just allocated. *)
Lemma construct_type_fresh create c T s v err s1 :
  (∀ this f, preserves (grows this) (create this f)) →
  construct_type create c (TPtr T) s = Done (v, err) s1 →
  v = VPtr T (Some (length (objects s))) ∧ length (objects s) < length (objects s1).
Proof.
  intros Hcreate.
  assert (length (objects s) < length (objects (after (alloc T) s))) as HA
    by (simpl; rewrite length_app; simpl; lia).
  destruct T as [| | |e|e|n fs];
    try (intros [= <- _ <-]; by split).
  rewrite (proj2 (construct_type_record create c n fs s)).
  destruct (Inject_with create c _ (after (alloc (TStruct n fs)) s))
    as [ierr s'| |] eqn:Hi; try done.
  intros [= <- _ <-]. split; [done|].
  pose proof (preserves_done _ _ _ _ _ (Inject_with_grows create Hcreate c _) Hi) as Hg.
  pose proof (g_objects _ _ _ Hg). lia.
Qed.

(** ** Relations that resolution keeps *)

(** Whatever relation [R] the nested calls of [createInstance] keep, and
    allocation and assignment with them, is kept by the calls a constructor
    can make. *)
Section Keeps.
Context (R : nat → State → State → Prop).
Context (R_refl : ∀ this, Reflexive (R this)).
Context (R_trans : ∀ this, Transitive (R this)).
Context (R_alloc : ∀ this t s s', final (alloc t s) = Some s' → R this s s').
Context (R_store : ∀ this a i x s, R this s (store a i x s)).
Context (create : nat → nat → M (Value * option error)).
Context (Hcreate : ∀ this f, preserves (R this) (create this f)).

Lemma Resolve_with_keeps this tag : preserves (R this) (Resolve_with create this tag).
Proof using R_refl Hcreate.
  intros s s'. unfold Resolve_with.
  destruct (lookup_factory s this tag) as [f|]; [apply Hcreate|].
  by intros [= <-].
Qed.

Lemma create_all_keeps this fs n : ∀ instances,
  preserves (R this) (create_all create this fs n instances).
Proof using R_refl R_trans Hcreate.
  induction n as [|n IH]; intros instances; simpl.
  - apply preserves_ret, _.
  - destruct (fs !! n) as [f|]; [|apply IH].
    apply preserves_bind; [apply _ | apply Hcreate |].
    intros [v [err|]]; simpl; [apply preserves_ret, _ | apply IH].
Qed.

Lemma ResolveAll_with_keeps this tag :
  preserves (R this) (ResolveAll_with create this tag).
Proof using R_refl R_trans Hcreate.
  intros s s'. unfold ResolveAll_with. apply create_all_keeps.
Qed.

Lemma Set_field_keeps this target f i x : preserves (R this) (Set_field target f i x).
Proof using R_refl R_store.
  intros s s'. unfold Set_field.
  destruct (negb (exported f)); [by intros [= <-]|].
  destruct target as [a|]; [|by intros [= <-]].
  destruct (TypeOf x) as [t|]; [|by intros [= <-]].
  destruct (assignable t (field_type f)); [|by intros [= <-]].
  intros [= <-]. apply R_store.
Qed.

Lemma inject_fields_keeps this target fs : ∀ i,
  preserves (R this) (inject_fields create this target fs i).
Proof using R_refl R_trans R_store Hcreate.
  induction fs as [|f fs IH]; intros i; simpl.
  - apply preserves_ret, _.
  - destruct (String.eqb (field_di f) ""); [apply IH|].
    apply preserves_bind; [apply _ | apply Resolve_with_keeps |].
    intros [v [err|]]; simpl; [apply preserves_ret, _|].
    apply preserves_bind; [apply _ | apply Set_field_keeps | intros; apply IH].
Qed.

Lemma Inject_with_keeps this v : preserves (R this) (Inject_with create this v).
Proof using R_refl R_trans R_store Hcreate.
  destruct v as [| | | |e o|]; simpl; try apply preserves_panic, _.
  - destruct e, o; try apply preserves_panic, _. apply inject_fields_keeps.
  - apply inject_fields_keeps.
Qed.

Lemma run_keeps this p : preserves (R this) (run create this p).
Proof using R_refl R_trans R_alloc R_store Hcreate.
  induction p as [v err|t k IH|tag k IH|tag k IH|v k IH|msg]; simpl;
    [|..|apply preserves_panic, _].
  - apply preserves_ret, _.
  - apply preserves_bind; [apply _ | | done]. intros s s'. apply R_alloc.
  - apply preserves_bind; [apply _ | apply Resolve_with_keeps | intros; apply IH].
  - apply preserves_bind; [apply _ | apply ResolveAll_with_keeps | intros; apply IH].
  - apply preserves_bind; [apply _ | apply Inject_with_keeps | intros; apply IH].
Qed.

Lemma construct_type_keeps c typ : preserves (R c) (construct_type create c typ).
Proof using R_refl R_trans R_alloc R_store Hcreate.
  unfold construct_type.
  apply preserves_bind; [apply _ | intros s s'; apply R_alloc |].
  intros a. apply preserves_bind; [apply _ | |].
  - destruct (kind _); try apply preserves_ret, _. apply Inject_with_keeps.
  - intros _. destruct (kind typ); try apply preserves_ret, _;
      by intros s s' [= <-].
Qed.

Lemma call_constructor_keeps this ctor :
  preserves (R this) (call_constructor create this ctor).
Proof using R_refl R_trans R_alloc R_store Hcreate.
  destruct ctor as [[typ|]|v|p|]; simpl; try apply preserves_panic, _.
  - apply construct_type_keeps.
  - apply preserves_ret, _.
  - apply run_keeps.
Qed.

End Keeps.

(** *** Only a constructor call stores for its record *)

Lemma accounted_refl s : accounted s s.
Proof. exists []. split; [by rewrite app_nil_r | done]. Qed.

Lemma accounted_trans s1 s2 s3 : accounted s1 s2 → accounted s2 s3 → accounted s1 s3.
Proof.
  intros (es1 & H1 & K1) (es2 & H2 & K2). exists (es1 ++ es2). split.
  - by rewrite H2, H1, app_assoc.
  - intros g Hg c.
    destruct (K1 g) with (c := c) as [Hc1 Hd1].
    { intros c' Hin. apply (Hg c'), elem_of_app. by left. }
    destruct (K2 g) with (c := c) as [Hc2 Hd2].
    { intros c' Hin. apply (Hg c'), elem_of_app. by right. }
    split; congruence.
Qed.

Lemma accounted_frame s s' es :
  containers s' = containers s → trace s' = trace s ++ es → accounted s s'.
Proof.
  intros Hc Ht. exists es. split; [done|]. intros g _ c. unfold get. by rewrite Hc.
Qed.

Lemma trace_keep o f v s : trace (keep o f v s) = trace s.
Proof. by destruct o. Qed.

Lemma trace_defer dtor o f v s : trace (defer dtor o f v s) = trace s.
Proof. by destruct dtor, o. Qed.

Lemma closures_of_defer g dtor o f v s c :
  g ≠ f →
  closures_of g (destructors (get (defer dtor o f v s) c))
  = closures_of g (destructors (get s c)).
Proof.
  intros Hne. destruct dtor, o as [o|]; simpl; try done.
  rewrite get_update. case_decide as H; [destruct H as [<- _]|]; [|done].
  unfold closures_of. simpl. rewrite filter_app, filter_cons_False, filter_nil.
  - by rewrite app_nil_r.
  - simpl. congruence.
Qed.

Lemma cache_keep_ne g o f v s c :
  g ≠ f → cache (get (keep o f v s) c) !! g = cache (get s c) !! g.
Proof.
  intros Hne. destruct o as [o|]; simpl; [|done].
  rewrite get_update. case_decide as H; [destruct H as [<- _]|]; [|done].
  simpl. by rewrite lookup_insert_ne.
Qed.

(** The constructor of [f] has returned [v] in [s1]: with the cache entry
    and the closure stored for [f], the call is accounted for. *)
Lemma accounted_record f this v o1 o2 dtor s s1 :
  accounted (emit (CtorCall f this) s) s1 →
  accounted s (defer dtor o2 f v (keep o1 f v s1)).
Proof.
  intros (es & Ht & K). exists (CtorCall f this :: es). split.
  - rewrite trace_defer, trace_keep, Ht. simpl. by rewrite <- app_assoc.
  - intros g Hg c.
    assert (g ≠ f) as Hne.
    { intros ->. apply (Hg this). by left. }
    destruct (K g) with (c := c) as [Hc Hd].
    { intros c' Hin. apply (Hg c'). by right. }
    split.
    + by rewrite defer_cache, cache_keep_ne.
    + rewrite closures_of_defer by done.
      by rewrite (proj2 (keep_get _ _ _ _ _)), Hd.
Qed.

Lemma createInstance_body_accounted create this f :
  (∀ this f, preserves accounted (create this f)) →
  preserves accounted (createInstance_body create this f).
Proof.
  intros Hcreate s s'. unfold createInstance_body.
  destruct (cached s this f) as [v|]; [intros [= <-]; apply accounted_refl|].
  assert (preserves accounted
            (call_constructor create this (factory.Constructor (deref s f)))) as Hctor.
  { apply (call_constructor_keeps (λ _, accounted)).
    - intros _ x. apply accounted_refl.
    - intros _ x y z. apply accounted_trans.
    - intros _ t s0 s0' [= <-]. apply (accounted_frame _ _ []); [done|].
      simpl. by rewrite app_nil_r.
    - intros _ a i x s0. apply (accounted_frame _ _ []); [done|].
      simpl. by rewrite app_nil_r.
    - done. }
  assert (accounted s (emit (CtorCall f this) s)) as Hemit
    by by apply (accounted_frame _ _ [CtorCall f this]).
  destruct (call_constructor create this _ _) as [[v [err|]] s1|msg s1|] eqn:Hrun;
    try done; intros [= <-].
  - eapply accounted_trans; [exact Hemit|]. apply Hctor. by rewrite Hrun.
  - apply (accounted_record f this). apply Hctor. by rewrite Hrun.
  - eapply accounted_trans; [exact Hemit|]. apply Hctor. by rewrite Hrun.
Qed.

Lemma createInstance_accounted fuel : ∀ this f,
  preserves accounted (createInstance fuel this f).
Proof.
  induction fuel as [|fuel IH]; intros this f; simpl; [done|].
  by apply createInstance_body_accounted.
Qed.

Lemma call_constructor_accounted fuel this ctor :
  preserves accounted (call_constructor (createInstance fuel) this ctor).
Proof.
  apply (call_constructor_keeps (λ _, accounted)).
  - intros _ x. apply accounted_refl.
  - intros _ x y z. apply accounted_trans.
  - intros _ t s0 s0' [= <-]. apply (accounted_frame _ _ []); [done|].
    simpl. by rewrite app_nil_r.
  - intros _ a i x s0. apply (accounted_frame _ _ []); [done|].
    simpl. by rewrite app_nil_r.
  - intros t g. apply createInstance_accounted.
Qed.

(** *** Only what a constructor returned is cached *)

Lemma earning_refl this s : earning this s s.
Proof. split; [apply grows_refl | done]. Qed.

Lemma earning_trans this s1 s2 s3 :
  earning this s1 s2 → earning this s2 s3 → earning this s1 s3.
Proof. intros [G12 C12] [G23 C23]. split; [by eapply grows_trans | auto]. Qed.

Lemma earning_frame this s s' :
  grows this s s' → containers s' = containers s → earning this s s'.
Proof.
  intros Hg Hc. split; [done|]. intros H c f.
  rewrite (same_deref _ _ (g_registry _ _ _ Hg)).
  unfold get. rewrite Hc. apply H.
Qed.

Lemma call_constructor_not_nil create this ctor s r s' :
  call_constructor create this ctor s = Done r s' → ¬ nil_constructor ctor.
Proof. intros H [->| ->]; done. Qed.

Lemma createInstance_body_earning create this f :
  (∀ this f, preserves (earning this) (create this f)) →
  preserves (earning this) (createInstance_body create this f).
Proof.
  intros Hcreate s s' Hfinal. split.
  { eapply (createInstance_body_grows create); [|exact Hfinal].
    intros t g s0 s0' H0. by apply (ea_grows t), (Hcreate t g). }
  intros Hs. revert Hfinal. unfold createInstance_body.
  destruct (cached s this f) as [v|]; [by intros [= <-]|].
  assert (preserves (earning this)
            (call_constructor create this (factory.Constructor (deref s f)))) as Hctor.
  { apply (call_constructor_keeps earning).
    - intros t x. apply earning_refl.
    - intros t x y z. apply earning_trans.
    - intros t ty s0 s0' H0. apply earning_frame; [by eapply grows_alloc|].
      by injection H0 as <-.
    - intros t a i x s0. apply earning_frame; [apply grows_store | done].
    - done. }
  assert (∀ s1, final (call_constructor create this (factory.Constructor (deref s f))
                        (emit (CtorCall f this) s)) = Some s1 →
                constructed s1 ∧ same_registry s s1) as Hrun.
  { intros s1 H1. pose proof (Hctor _ _ H1) as [G C]. split.
    - apply C. intros c g. apply Hs.
    - eapply same_registry_trans; [|apply G]. done. }
  destruct (call_constructor create this _ _) as [[v [err|]] s1|msg s1|] eqn:Hcall;
    try done; intros [= <-]; try by apply Hrun.
  destruct (Hrun s1 eq_refl) as [Hs1 Hreg].
  intros c g [x Hx]. rewrite defer_cache in Hx.
  replace (deref (defer _ _ f v (keep _ f v s1)) g) with (deref s1 g)
    by (by destruct (factory.Destructor _), (destructor_owner _ _ _), (cache_owner _ _ _)).
  destruct (decide (g = f)) as [->|Hne].
  - rewrite (same_deref _ _ Hreg). by eapply call_constructor_not_nil.
  - rewrite cache_keep_ne in Hx by done. apply (Hs1 c). by eexists.
Qed.

Lemma createInstance_earning fuel : ∀ this f,
  preserves (earning this) (createInstance fuel this f).
Proof.
  induction fuel as [|fuel IH]; intros this f; simpl; [done|].
  by apply createInstance_body_earning.
Qed.

Lemma step_constructed s s' :
  consistent s → constructed s → step s s' → constructed s'.
Proof.
  assert (∀ t, Reflexive (earning t)) as Hrefl by (intros t x; apply earning_refl).
  assert (∀ t, Transitive (earning t)) as Htrans
    by (intros t x y z; apply earning_trans).
  assert (∀ t a i x s0, earning t s0 (store a i x s0)) as Hstore.
  { intros t a i x s0. apply earning_frame; [apply grows_store | done]. }
  intros Hc Hs [p Hp H|this r H|this tag target H|fuel this tag H|fuel this tag H
               |fuel this v H|this H].
  - injection H as <-. intros c f. rewrite newContainer_get.
    replace (deref (with_containers _ s) f) with (deref s f) by done.
    case_decide; [by intros [? ?] | apply Hs].
  - injection H as <-. intros c f Hf.
    assert (is_Some (cache (get s c) !! f)) as Hf'.
    { rewrite register_get in Hf. by case_decide. }
    rewrite (deref_prefix s); [by apply (Hs c) | by apply prefix_app_r |].
    destruct Hf' as [v Hv]. by eapply cached_valid.
  - injection H as <-. intros c f. rewrite get_update.
    replace (deref (update _ _ s) f) with (deref s f) by done.
    case_decide as H; [destruct H as [<- _]|]; apply Hs.
  - eapply ea_constructed; [|done].
    eapply (Resolve_with_keeps earning Hrefl); [|exact H]. apply createInstance_earning.
  - eapply ea_constructed; [|done].
    eapply (ResolveAll_with_keeps earning Hrefl Htrans); [|exact H].
    apply createInstance_earning.
  - eapply ea_constructed; [|done].
    eapply (Inject_with_keeps earning Hrefl Htrans Hstore); [|exact H].
    apply createInstance_earning.
  - intros c f. unfold deref. rewrite (Close_records _ _ _ H), (Close_get _ _ _ _ H).
    case_decide as H'; [destruct H' as [<- _]|]; apply Hs.
Qed.

Lemma steps_constructed s s' :
  consistent s → constructed s → rtc step s s' → constructed s'.
Proof.
  intros Hc Hs H. induction H as [|s1 s2 s3 H12 _ IH]; [done|].
  apply IH; [by eapply step_consistent | by eapply step_constructed].
Qed.

Lemma reachable_constructed s : reachable s → constructed s.
Proof.
  apply steps_constructed; [apply start_consistent|].
  intros c f [v Hv]. unfold get, start in Hv; simpl in Hv. by destruct c as [|[|c]].
Qed.

(** *** Pointers *)

Lemma type_eqb_refl : ∀ t, type_eqb t t = true.
Proof.
  fix IH 1. intros [| | |e|e|n fs]; simpl; try done; try apply IH.
  rewrite String.eqb_refl. simpl. revert fs. fix IHfs 1.
  intros [|[m u d] fs]; [done|]. simpl.
  by rewrite !String.eqb_refl, (IH u), (IHfs fs).
Qed.

(** Two objects of one type are at the same address exactly when the type
    has size zero, or they are one object. *)
Lemma same_pointer_objects T a b :
  same_pointer (VPtr T (Some a)) (VPtr T (Some b)) = zero_size T || Nat.eqb a b.
Proof.
  simpl. rewrite type_eqb_refl. unfold address. by destruct (zero_size T).
Qed.


(** *** Lifetimes *)

(** [Lifetime] and [int] are the same values. *)
Lemma int_Lifetime_int l : int_Lifetime (Lifetime_int l) = l.
Proof.
  destruct l as [| | |k|k]; try done.
  change (Lifetime_int (Beyond k)) with (Z.pos (2 + k)).
  unfold int_Lifetime.
  destruct (2 + k)%positive as [p|[p|p|]|] eqn:E; try lia; f_equal; lia.
Qed.

Lemma Lifetime_int_Lifetime n : Lifetime_int (int_Lifetime n) = n.
Proof.
  destruct n as [|[p|[p|p|]|]|p]; try done; simpl; lia.
Qed.

(** Only [Scoped] and [Singleton] records are cached, and only the three
    constants have their destructor recorded. *)
Lemma cache_owner_Some s this l o :
  cache_owner s this l = Some o →
  (l = Scoped ∧ o = this) ∨ (l = Singleton ∧ o = root s this).
Proof. destruct l; simpl; naive_solver. Qed.

Lemma destructor_owner_None s this l :
  destructor_owner s this l = None ↔ (2 < Lifetime_int l ∨ Lifetime_int l < 0)%Z.
Proof. destruct l; simpl; split; try done; lia. Qed.

(** ** Wiring registered values *)

Lemma createInstance_transient fuel this f s :
  factory.Lifetime (deref s f) = Transient →
  createInstance (S fuel) this f s =
  match call_constructor (createInstance fuel) this (factory.Constructor (deref s f))
          (emit (CtorCall f this) s) with
  | Done (instance, None) s1 =>
      Done (instance, None)
           (defer (factory.Destructor (deref s f)) (Some this) f instance s1)
  | o => o
  end.
Proof.
  intros Hl. rewrite createInstance_miss by (unfold cached; by rewrite Hl).
  rewrite Hl. simpl. by destruct (call_constructor _ _ _ _) as [[v [e|]] s1| |].
Qed.

Lemma lookup_factory_same s s0 this tag :
  containers s0 = containers s → records s0 = records s →
  lookup_factory s0 this tag = lookup_factory s this tag.
Proof.
  intros Hc Hr. apply same_lookup_factory. split; try done.
  - by rewrite Hc.
  - intros c. unfold get. by rewrite Hc.
  - intros c. unfold get. by rewrite Hc.
  - intros c. unfold get. by rewrite Hc.
Qed.

Lemma inject_fields_wires s this a n fs fuel fs2 : ∀ i s0 vals0,
  containers s0 = containers s → records s0 = records s →
  Forall (wirable s this) fs2 →
  objects s0 !! a = Some (VStruct n fs vals0) →
  ∃ s' vals',
    inject_fields (createInstance (S fuel)) this (Some a) fs2 i s0 = Done None s' ∧
    containers s' = containers s ∧ records s' = records s ∧
    objects s' !! a = Some (VStruct n fs vals') ∧
    length vals' = length vals0 ∧
    length (objects s') = length (objects s0) ∧
    (∀ b, b ≠ a → objects s' !! b = objects s0 !! b) ∧
    (∀ j, j < i → vals' !! j = vals0 !! j) ∧
    (∀ j f, fs2 !! j = Some f →
            vals' !! (i + j) = dependency s this f <$> vals0 !! (i + j)) ∧
    (∀ j, i + length fs2 ≤ j → vals' !! j = vals0 !! j).
Proof.
  induction fs2 as [|f fs2 IH]; intros i s0 vals0 Hc Hr Hw Hobj.
  - exists s0, vals0. simpl. split_and!; try done.
  - apply Forall_cons in Hw as [Hf Hw]. cbn [inject_fields].
    destruct (String.eqb_spec (field_di f) "") as [Hdi|Hdi].
    + destruct (IH (S i) s0 vals0 Hc Hr Hw Hobj)
        as (s' & vals' & Hrun & Hc' & Hr' & Hobj' & Hlen & Hlo & Hother & Hbefore & Hafter & Hbeyond).
      exists s', vals'. split_and!; try done.
      * intros j Hj. apply Hbefore. lia.
      * intros [|j] g Hg; simpl in Hg.
        -- injection Hg as <-. rewrite Nat.add_0_r, Hbefore by lia.
           unfold dependency. rewrite Hdi. simpl. by destruct (vals0 !! i).
        -- replace (i + S j) with (S i + j) by lia. by apply Hafter.
      * intros j Hj. apply Hbeyond. simpl in Hj. lia.
    + destruct Hf as [Hf|(Hexp & g & v & t & Hl & Hg & Ht & Hassign)]; [done|].
      unfold bind, Resolve_with.
      rewrite (lookup_factory_same s s0) by done. rewrite Hl.
      assert (deref s0 g = deref s g) as Hd by (unfold deref; by rewrite Hr).
      rewrite createInstance_miss by (unfold cached; by rewrite Hd, Hg).
      rewrite Hd, Hg.
      cbn [factory.Constructor factory.Destructor factory.Lifetime call_constructor
             ret defer keep cache_owner fst snd].
      unfold Set_field. cbn [fst snd]. rewrite Hexp, Ht, Hassign. cbn [negb].
      set (s1 := store a i v (emit (CtorCall g this) s0)).
      assert (objects s1 !! a = Some (VStruct n fs (<[i:=v]> vals0))) as Hobj1.
      { unfold s1, store; simpl. rewrite list_lookup_alter.
        rewrite decide_True by done. by rewrite Hobj. }
      destruct (IH (S i) s1 (<[i:=v]> vals0) Hc Hr Hw Hobj1)
        as (s' & vals' & Hrun & Hc' & Hr' & Hobj' & Hlen & Hlo & Hother & Hbefore & Hafter & Hbeyond).
      exists s', vals'. split_and!; try done.
      * by rewrite Hlen, length_insert.
      * rewrite Hlo. unfold s1, store; simpl. by rewrite length_alter.
      * intros b Hb. rewrite Hother by done. unfold s1, store; simpl.
        by rewrite list_lookup_alter_ne.
      * intros j Hj. rewrite Hbefore by lia. by rewrite list_lookup_insert_ne by lia.
      * assert (dependency s this f = λ _, v) as Hdep.
        { unfold dependency. destruct (String.eqb_spec (field_di f) ""); [done|].
          by rewrite Hl, Hg. }
        intros [|j] h Hh; simpl in Hh.
        -- injection Hh as <-. rewrite Nat.add_0_r, Hbefore by lia. rewrite Hdep.
           destruct (decide (i < length vals0)) as [Hi|Hi].
           ++ rewrite list_lookup_insert_eq by done.
              by destruct (lookup_lt_is_Some_2 vals0 i Hi) as [x ->].
           ++ rewrite list_insert_ge by lia. by rewrite lookup_ge_None_2 by lia.
        -- replace (i + S j) with (S i + j) by lia. rewrite (Hafter j h Hh).
           by rewrite list_lookup_insert_ne by lia.
      * intros j Hj. simpl in Hj. rewrite Hbeyond by lia.
        by rewrite list_lookup_insert_ne by lia.
Qed.

Lemma inject_record_wires s this a fuel n fs vals :
  Forall (wirable s this) fs →
  objects s !! a = Some (VStruct n fs vals) →
  ∃ s' vals',
    Inject (S fuel) this (VPtr (TStruct n fs) (Some a)) s = Done None s' ∧
    objects s' !! a = Some (VStruct n fs vals') ∧
    ∀ j f, fs !! j = Some f → vals' !! j = dependency s this f <$> vals !! j.
Proof.
  intros Hw Hobj.
  destruct (inject_fields_wires s this a n fs fuel fs 0 s vals eq_refl eq_refl Hw Hobj)
    as (s' & vals' & Hrun & _ & _ & Hobj' & _ & _ & _ & _ & Hafter & _).
  by exists s', vals'.
Qed.

Lemma dependency_same s s0 this f old :
  containers s0 = containers s → records s0 = records s →
  dependency s0 this f old = dependency s this f old.
Proof.
  intros Hc Hr. unfold dependency, deref.
  by rewrite (lookup_factory_same s s0), Hr.
Qed.

Lemma wirable_same s s0 this f :
  containers s0 = containers s → records s0 = records s →
  wirable s this f → wirable s0 this f.
Proof.
  intros Hc Hr [Hf|(Hexp & g & v & t & Hl & Hg & Ht & Ha)]; [by left|].
  right. split; [done|]. exists g, v, t.
  rewrite (lookup_factory_same s s0) by done.
  unfold deref in *. rewrite Hr. by split_and!.
Qed.


(** Injection stops at the first field whose tag has no record; the fields
    before it keep what they were given. *)
Lemma inject_record_unmatched s this a fuel n before f rest vals :
  Forall (wirable s this) before →
  field_di f ≠ "" → lookup_factory s this (field_di f) = None →
  objects s !! a = Some (VStruct n (before ++ f :: rest) vals) →
  ∃ s' vals',
    Inject (S fuel) this (VPtr (TStruct n (before ++ f :: rest)) (Some a)) s
    = Done (Some ErrNoMatchingTag) s' ∧
    objects s' !! a = Some (VStruct n (before ++ f :: rest) vals') ∧
    (∀ j g, before !! j = Some g → vals' !! j = dependency s this g <$> vals !! j) ∧
    (∀ j, length before ≤ j → vals' !! j = vals !! j) ∧
    containers s' = containers s ∧ records s' = records s.
Proof.
  intros Hw Hdi Hnone Hobj.
  destruct (inject_fields_wires s this a n (before ++ f :: rest) fuel before 0 s vals
              eq_refl eq_refl Hw Hobj)
    as (s' & vals' & Hrun & Hc' & Hr' & Hobj' & Hlen & Hlo & Hother & _ & Hafter & Hbeyond).
  exists s', vals'. split_and!; try done.
  unfold Inject, Inject_with. rewrite inject_fields_app, Hrun.
  cbn [inject_fields]. destruct (String.eqb_spec (field_di f) ""); [done|].
  unfold bind, Resolve_with. by rewrite (lookup_factory_same s s'), Hnone.
Qed.

(** The closure of [UseType] for a struct type or a pointer to one, when
    the record has no instance cached: [createInstance] returns what the
    closure made, with a nil error, whatever [c.Inject] returned. *)
Lemma createInstance_UseType fuel s this f tag l typ n fs :
  let T := TStruct n fs in
  deref s f = factory.mk tag l (TypeCtor (Some typ)) None →
  typ = T ∨ typ = TPtr T →
  cached s this f = None →
  let a := length (objects s) in
  createInstance (S fuel) this f s
  = match Inject fuel this (VPtr T (Some a))
            (after (alloc T) (emit (CtorCall f this) s)) with
    | Done _ s1 =>
        let instance := match typ with
                        | TPtr _ => VPtr T (Some a)
                        | _ => default VNil (objects s1 !! a)
                        end in
        Done (instance, None) (keep (cache_owner s this l) f instance s1)
    | Panic msg s1 => Panic msg s1
    | Diverge => Diverge
    end.
Proof.
  intros T Hrec Htyp Hmiss a.
  rewrite createInstance_miss, Hrec by done.
  cbn [factory.Constructor factory.Destructor factory.Lifetime call_constructor defer].
  unfold Inject.
  destruct Htyp as [->| ->].
  - rewrite (proj1 (construct_type_record _ this n fs _)).
    change (length (objects (emit (CtorCall f this) s))) with a.
    by destruct (Inject_with _ this _ _) as [err s1|msg s1|].
  - rewrite (proj2 (construct_type_record _ this n fs _)).
    change (length (objects (emit (CtorCall f this) s))) with a.
    by destruct (Inject_with _ this _ _) as [err s1|msg s1|].
Qed.

(** *** Constructors that allocate *)


Lemma allocating_makes_MyStruct : allocating makes_MyStruct.
Proof.
  intros fuel this s v s' [= <- <-].
  exists MyStruct, (length (objects s)). split_and!; [done | done | lia |].
  simpl. rewrite length_app. simpl. lia.
Qed.

(** * The properties of the container *)

(** ** Alias sets *)

(** C7: the alias-set computation ends, cycle or not: after at most one
    round per visible alias plus one the loop of [resolveAliases] has
    returned, whatever larger bound it is run with.  A tag is never appended
    twice, and the result holds exactly the tags reachable from the starting
    tag along the alias edges declared on the container and on its
    ancestors. *)
Theorem resolveAliases_terminates (s : State) (this : nat) (tag : string) :
  (∀ fuel, S (length (chain_aliases s this)) ≤ fuel →
           expand fuel s this [tag] 0 = Some (resolveAliases s this tag)) ∧
  NoDup (resolveAliases s this tag) ∧
  (∀ x, x ∈ resolveAliases s this tag ↔ rtc (alias_edge s this) tag x) ∧
  (wf s → ∀ x y,
     alias_edge s this x y ↔
     ∃ c a, ancestor s this c ∧ a ∈ aliases (get s c) ∧
            alias.Tag a = x ∧ alias.Aliased a = y).
Proof.
  split_and!.
  - intros fuel Hfuel.
    replace fuel with (S (length (chain_aliases s this))
                       + (fuel - S (length (chain_aliases s this)))) by lia.
    apply expand_more_fuel, resolveAliases_ends.
  - apply resolveAliases_NoDup.
  - apply resolveAliases_reach.
  - intros Hwf x y. by apply alias_edge_ancestors.
Qed.

(** A cycle of aliases between ["hi"] and ["greet"]: each is found once. *)
Example resolveAliases_cycle : resolveAliases hello 1 "hi" = ["hi"; "greet"].
Proof. reflexivity. Qed.

(** ** Tags without a record *)

(** C1, as the code has it: when no record of [this] or of one of its
    ancestors carries a tag of the alias set of [t], [Resolve] returns no
    instance and [ErrNoMatchingTag], and so does [Inject] on a record
    (passed by reference or by value) once the fields before the one
    annotated [t] are injected; [ResolveAll] returns no instance and no
    error. *)
Theorem unmatched_tag (s : State) (this : nat) (t : string) (fuel : nat) :
  wf s →
  (∀ c f, ancestor s this c → f ∈ factories (get s c) →
          ¬ rtc (alias_edge s this) t (factory.Tag (deref s f))) →
  Resolve fuel this t s = Done (VNil, Some ErrNoMatchingTag) s ∧
  ResolveAll fuel this t s = Done ([], None) s ∧
  (t ≠ "" → ∀ n before f after s1,
     field_di f = t →
     (∀ a, Inject fuel this (VPtr (TStruct n before) (Some a)) s = Done None s1 →
           Inject fuel this (VPtr (TStruct n (before ++ f :: after)) (Some a)) s
           = Done (Some ErrNoMatchingTag) s1) ∧
     (∀ vals vals',
           Inject fuel this (VStruct n before vals) s = Done None s1 →
           Inject fuel this (VStruct n (before ++ f :: after) vals') s
           = Done (Some ErrNoMatchingTag) s1)).
Proof.
  intros Hwf Hno.
  assert (matching s this t = []) as Hnil.
  { apply matching_nil. intros c f Hc. apply Hno. by apply chain_ancestors. }
  clear Hno. rename Hnil into Hno.
  assert (lookup_factory s this t = None) as Hlookup
    by by rewrite lookup_factory_last, Hno.
  split_and!.
  - unfold Resolve, Resolve_with. by rewrite Hlookup.
  - unfold ResolveAll. by rewrite ResolveAll_with_each, Hno.
  - intros Ht n before f after s1 Hf.
    assert (∀ target,
      inject_fields (createInstance fuel) this target before 0 s = Done None s1 →
      inject_fields (createInstance fuel) this target (before ++ f :: after) 0 s
      = Done (Some ErrNoMatchingTag) s1) as Hfields.
    { intros target Hbefore. rewrite inject_fields_app, Hbefore. simpl.
      rewrite Hf. destruct (String.eqb_spec t "") as [|_]; [done|].
      unfold bind, Resolve_with.
      assert (grows this s s1) as Hg.
      { eapply preserves_done; [|exact Hbefore].
        apply inject_fields_grows, createInstance_grows. }
      by rewrite (same_lookup_factory _ _ (g_registry _ _ _ Hg)), Hlookup. }
    split; intros; by apply Hfields.
Qed.

(** ["missing"] is not registered in [hello]; the record [L] has its
    second field annotated with it. *)
Lemma unmatched_tag_witness :
  Resolve 1 1 "missing" hello = Done (VNil, Some ErrNoMatchingTag) hello ∧
  Inject 1 1 (VStruct "di.L" [Field "Name" TString ""; Field "Logger" TInterface "missing"]
                [VString ""; VNil]) hello
  = Done (Some ErrNoMatchingTag) hello.
Proof.
  assert (wf hello) as Hwf by (apply wfb_wf; reflexivity).
  assert (∀ c f, ancestor hello 1 c → f ∈ factories (get hello c) →
                 ¬ rtc (alias_edge hello 1) "missing" (factory.Tag (deref hello f))) as H.
  { intros c f Hc. apply chain_ancestors in Hc; [|done]. revert c f Hc.
    apply matching_nil. reflexivity. }
  destruct (unmatched_tag hello 1 "missing" 1 Hwf H) as (HR & _ & HI).
  split; [exact HR|].
  assert ("missing" ≠ "") as Hne by discriminate.
  destruct (HI Hne "di.L" [Field "Name" TString ""] (Field "Logger" TInterface "missing")
              [] hello eq_refl) as [_ Hval].
  apply (Hval [VString ""] [VString ""; VNil]). reflexivity.
Defined.

(** [ResolveAll] of an unregistered tag is not an error. *)
Lemma ResolveAll_unmatched_no_error :
  matching hello 1 "missing" = [] ∧
  ResolveAll 1 1 "missing" hello = Done ([], None) hello.
Proof. split; reflexivity. Qed.

(** ** Shadowing *)

(** C4: [Resolve] creates the instance of the last matching record in
    registration order (the root's records first, those of the calling
    container last, each container's in the order they were registered),
    and [ResolveAll] creates the instances of all matching records from the
    first to the last in that order.  In particular, of two records
    registered one after the other under [tag] on [this], the second is the
    one [Resolve] picks, and they come last, in that order, for
    [ResolveAll].  The matching records are those of [this] and of its
    ancestors whose tag is in the alias set of [tag]. *)
Theorem shadowing_order (s : State) (this : nat) (tag : string) (fuel : nat) :
  wf s → this < length (containers s) →
  (∀ f, f ∈ matching s this tag ↔
        ∃ c, ancestor s this c ∧ f ∈ factories (get s c) ∧
             rtc (alias_edge s this) tag (factory.Tag (deref s f))) ∧
  Resolve fuel this tag s
  = match last (matching s this tag) with
    | Some f => createInstance fuel this f s
    | None => Done (VNil, Some ErrNoMatchingTag) s
    end ∧
  ResolveAll fuel this tag s
  = create_each (createInstance fuel) this (matching s this tag) [] s ∧
  ∀ r1 r2,
    factory.Tag r1 = tag → factory.Tag r2 = tag →
    let f1 := length (records s) in
    let f2 := S (length (records s)) in
    let s2 := after (register this r2) (after (register this r1) s) in
    deref s2 f1 = r1 ∧ deref s2 f2 = r2 ∧
    (∃ older, matching s2 this tag = older ++ [f1; f2]) ∧
    Resolve fuel this tag s2 = createInstance fuel this f2 s2.
Proof.
  intros Hwf Hthis. split_and!.
  - intros f. rewrite elem_of_matching. split.
    + intros (c & Hc & H). exists c. by rewrite <- chain_ancestors.
    + intros (c & Hc & H). exists c. by rewrite chain_ancestors.
  - unfold Resolve, Resolve_with. rewrite lookup_factory_last.
    by destruct (last (matching s this tag)).
  - apply ResolveAll_with_each.
  - intros r1 r2 Hr1 Hr2 f1 f2 s2.
    set (s1 := after (register this r1) s) in s2.
    assert (records s2 = records s ++ [r1; r2]) as Hrec.
    { unfold s2, s1. by rewrite !after_register_records, <- app_assoc. }
    assert (deref s2 f1 = r1) as Hd1.
    { unfold deref. rewrite Hrec. by rewrite lookup_app_r, Nat.sub_diag. }
    assert (deref s2 f2 = r2) as Hd2.
    { unfold deref, f2. rewrite Hrec. rewrite lookup_app_r by lia.
      by replace (S _ - _) with 1 by lia. }
    assert (factories (get s2 this) = factories (get s this) ++ [f1; f2]) as Hfs.
    { unfold s2, s1. rewrite after_register_get, after_register_length.
      rewrite decide_True by done.
      rewrite after_register_get, after_register_records.
      rewrite decide_True by done. simpl.
      rewrite <- app_assoc, length_app. simpl. unfold f2, f1.
      by rewrite Nat.add_1_r. }
    assert (∃ older, matching s2 this tag = older ++ [f1; f2]) as [older Holder].
    { unfold matching, registration_order.
      destruct (chain_head s2 this) as [rest ->].
      rewrite reverse_cons, map_app, concat_app, filter_app. simpl.
      rewrite app_nil_r, Hfs, filter_app.
      eexists. rewrite app_assoc. f_equal.
      assert (∀ f, factory.Tag (deref s2 f) = tag →
                   matches s2 (resolveAliases s2 this tag) f) as Hm.
      { intros f Hf. apply Is_true_true, matches_reach. rewrite Hf. apply rtc_refl. }
      rewrite filter_cons_True by (apply Hm; by rewrite Hd1).
      rewrite filter_cons_True by (apply Hm; by rewrite Hd2). done. }
    split_and!; [done | done | by exists older |].
    unfold Resolve, Resolve_with.
    rewrite lookup_factory_last, Holder.
    change (older ++ [f1; f2]) with (older ++ [f1] ++ [f2]).
    by rewrite app_assoc, last_snoc.
Qed.

(** [TestResolve_MultipleRegistration] and [TestResolveAll]. *)
Lemma shadowing_order_witness :
  Resolve 1 0 "params" params = Done (VInt 3, None) (emit (CtorCall 2 0) params) ∧
  result_of (ResolveAll 1 0 "params" params) = Some ([VInt 1; VInt 2; VInt 3], None).
Proof.
  assert (wf params) as Hwf by (apply wfb_wf; reflexivity).
  assert (0 < length (containers params)) as H by (vm_compute; lia).
  destruct (shadowing_order params 0 "params" 1 Hwf H) as (_ & HR & HA & _).
  split; [rewrite HR | rewrite HA]; reflexivity.
Defined.

(** ** Teardown *)

(** C5: [Close] empties the pending-destructor list of the calling
    container and of no other, and calls the recorded closures from the
    most recently recorded one backwards.  Either all of them return nil and
    so does [Close], or one of them returns an error: [Close] returns it,
    and the closures recorded before that one ([rest]) are not called. *)
Theorem Close_reverse_order (s : State) (this : nat) :
  Forall (callable s) (destructors (get s this)) →
  ∃ called rest err s',
    Close this s = Done err s' ∧
    reverse (destructors (get s this)) = called ++ rest ∧
    trace s' = trace s ++ map teardown_call called ∧
    ((err = None ∧ rest = [] ∧ Forall (λ d, teardown_result s d = None) called) ∨
     (∃ ok bad e, called = ok ++ [bad] ∧
                  Forall (λ d, teardown_result s d = None) ok ∧
                  teardown_result s bad = Some e ∧ err = Some e)) ∧
    destructors (get s' this) = [] ∧
    (∀ c, c ≠ this → get s' c = get s c) ∧
    (∀ c, cache (get s' c) = cache (get s c)).
Proof.
  intros Hcall. unfold Close.
  rewrite run_teardowns_each, firstn_all by done.
  destruct (teardown_each_spec (reverse (destructors (get s this)))
              (update this clear_destructors s))
    as (called & rest & err & Hsplit & Hrun & Hout).
  { apply Forall_forall. intros d Hd. rewrite elem_of_reverse in Hd.
    change (callable s d). rewrite Forall_forall in Hcall. by apply Hcall. }
  exists called, rest, err, (emit_all (map teardown_call called)
                               (update this clear_destructors s)).
  split_and!; [done | done | done | exact Hout | | |].
  - replace (get (emit_all _ _) this)
      with (get (update this clear_destructors s) this) by done.
    rewrite get_update. case_decide as H; [done|].
    rewrite get_invalid; [done|].
    destruct (decide (this < length (containers s))); [naive_solver | lia].
  - intros c Hc. replace (get (emit_all _ _) c)
      with (get (update this clear_destructors s) c) by done.
    by apply get_update_ne.
  - intros c. replace (get (emit_all _ _) c)
      with (get (update this clear_destructors s) c) by done.
    rewrite get_update. by case_decide as H; [destruct H as [<- _]|].
Qed.

(** On [closing], [Close] calls the destructor of ["c"], then that of
    ["b"], which fails: that of ["a"] is not called, and the closure of the
    singleton ["g"], recorded on the root, is left where it is. *)
Lemma Close_reverse_order_witness :
  ∃ called rest err s',
    Close 1 closing = Done err s' ∧
    reverse (destructors (get closing 1)) = called ++ rest ∧
    trace s' = trace closing ++ map teardown_call called ∧
    ((err = None ∧ rest = [] ∧ Forall (λ d, teardown_result closing d = None) called) ∨
     (∃ ok bad e, called = ok ++ [bad] ∧
                  Forall (λ d, teardown_result closing d = None) ok ∧
                  teardown_result closing bad = Some e ∧ err = Some e)) ∧
    destructors (get s' 1) = [] ∧
    (∀ c, c ≠ 1 → get s' c = get closing c) ∧
    (∀ c, cache (get s' c) = cache (get closing c)).
Proof.
  apply Close_reverse_order.
  repeat constructor; by eexists.
Defined.

Example Close_closing :
  destructors (get closing 1)
  = [Teardown 0 (VString "a"); Teardown 1 (VString "b"); Teardown 2 (VString "c")] ∧
  destructors (get closing 0) = [Teardown 3 (VString "g")] ∧
  result_of (Close 1 closing) = Some (Some boom) ∧
  trace (state_of (Close 1 closing))
  = trace closing ++ [DtorCall 2 (VString "c"); DtorCall 1 (VString "b")] ∧
  destructors (get (state_of (Close 1 closing)) 0) = [Teardown 3 (VString "g")].
Proof. split_and!; reflexivity. Qed.

(** ** Failing constructors *)

(** C10, as the code has it: when the constructor of a record returns an
    error, [createInstance] (and with it [Resolve]) returns the instance
    and the error of the constructor at once, in the state the constructor
    left: the call itself stores no cache entry and appends no teardown
    closure.  What the constructor did before it failed stays: the calls
    [nested] in it have cached their instances and recorded their closures.
    A record whose constructor was not called in between ([f] itself,
    unless its constructor resolves [f] again) has, on every container, the
    cache entry and the pending closures it had before. *)
Theorem constructor_error_is_atomic (s : State) (this f fuel : nat)
    (v : Value) (e : error) (s1 : State) :
  cached s this f = None →
  call_constructor (createInstance fuel) this (factory.Constructor (deref s f))
    (emit (CtorCall f this) s) = Done (v, Some e) s1 →
  createInstance (S fuel) this f s = Done (v, Some e) s1 ∧
  (∀ tag, lookup_factory s this tag = Some f →
          Resolve (S fuel) this tag s = Done (v, Some e) s1) ∧
  ∃ nested,
    trace s1 = trace s ++ CtorCall f this :: nested ∧
    ∀ g, (∀ c, CtorCall g c ∉ nested) →
         ∀ c, cache (get s1 c) !! g = cache (get s c) !! g ∧
              closures_of g (destructors (get s1 c))
              = closures_of g (destructors (get s c)).
Proof.
  intros Hmiss Hctor.
  assert (createInstance (S fuel) this f s = Done (v, Some e) s1) as Hcreate
    by by rewrite createInstance_miss, Hctor.
  split_and!; [done | |].
  - intros tag Htag. unfold Resolve, Resolve_with. by rewrite Htag.
  - destruct (call_constructor_accounted fuel this (factory.Constructor (deref s f))
                (emit (CtorCall f this) s) s1) as (nested & Ht & K).
    { by rewrite Hctor. }
    exists nested. split; [|exact K].
    rewrite Ht. simpl. by rewrite <- app_assoc.
Qed.

(** On [dependent], the constructor of ["x"] (record 1) resolves ["dep"]
    (record 0) on the scope and fails: nothing is stored for ["x"]. *)
Lemma constructor_error_is_atomic_witness :
  let s1 := after (Resolve 2 1 "x") dependent in
  Resolve 2 1 "x" dependent = Done (VNil, Some boom) s1 ∧
  (∀ c, cache (get s1 c) !! 1 = cache (get dependent c) !! 1 ∧
        closures_of 1 (destructors (get s1 c))
        = closures_of 1 (destructors (get dependent c))).
Proof.
  intros s1.
  assert (cached dependent 1 1 = None) as Hmiss by reflexivity.
  assert (call_constructor (createInstance 1) 1 (factory.Constructor (deref dependent 1))
            (emit (CtorCall 1 1) dependent) = Done (VNil, Some boom) s1)
    as Hctor by reflexivity.
  destruct (constructor_error_is_atomic dependent 1 1 1 VNil boom s1 Hmiss Hctor)
    as (_ & HR & nested & Ht & K).
  split; [by apply HR|].
  apply K. intros c Hin.
  assert (nested = [CtorCall 0 1]) as ->.
  { vm_compute in Ht. by injection Ht as <-. }
  by apply list_elem_of_singleton in Hin.
Defined.

(** The failing call is not atomic for the state as a whole: ["dep"], which
    the constructor of ["x"] resolved before it failed, is now cached on
    the scope, and its teardown closure is pending there. *)
Lemma failed_constructor_keeps_dependency :
  ∃ s1, Resolve 2 1 "x" dependent = Done (VNil, Some boom) s1 ∧
        cache (get dependent 1) !! 0 = None ∧
        cache (get s1 1) !! 0 = Some (VString "d") ∧
        destructors (get dependent 1) = [] ∧
        destructors (get s1 1) = [Teardown 0 (VString "d")].
Proof. eexists. split_and!; reflexivity. Qed.

(** A constructor that fails at once leaves every container as it was. *)
Example failing_at_once :
  Resolve 1 1 "x" failing = Done (VNil, Some boom) (emit (CtorCall 0 1) failing).
Proof. reflexivity. Qed.

(** ** Recording teardown closures *)

(** C6, as the code has it: resolving a record that has a destructor
    appends a teardown closure bound to the produced instance exactly when
    the constructor was called, returned no error, and the lifetime of the
    record is one of the three constants.  On a cache hit the constructor
    is not called and the state does not change; when the constructor
    returns an error, or panics, the state stays as the constructor left
    it; when it returns an instance, one closure for that instance is
    appended to the list of [this] for [Transient] and [Scoped], to the
    list of the root (the ancestor of [this] without parent) for
    [Singleton], and to no other list; for any other [Lifetime] value no
    list changes. *)
Theorem teardown_recorded_on_owner (s : State) (this f fuel : nat) (dtor : Destructor) :
  wf s → this < length (containers s) →
  factory.Destructor (deref s f) = Some dtor →
  let r := root s this in
  (ancestor s this r ∧ parent (get s r) = None) ∧
  (∀ v, cached s this f = Some v →
        createInstance (S fuel) this f s = Done (v, None) s) ∧
  (cached s this f = None →
   (∀ v err s1,
      call_constructor (createInstance fuel) this (factory.Constructor (deref s f))
        (emit (CtorCall f this) s) = Done (v, err) s1 →
      ∃ s', createInstance (S fuel) this f s = Done (v, err) s' ∧
            let appended_to o :=
              destructors (get s' o) = destructors (get s1 o) ++ [Teardown f v] ∧
              ∀ c, c ≠ o → destructors (get s' c) = destructors (get s1 c) in
            match err, factory.Lifetime (deref s f) with
            | Some _, _ => s' = s1
            | None, (Transient | Scoped) => appended_to this
            | None, Singleton => appended_to r
            | None, _ => ∀ c, destructors (get s' c) = destructors (get s1 c)
            end) ∧
   (∀ msg s1,
      call_constructor (createInstance fuel) this (factory.Constructor (deref s f))
        (emit (CtorCall f this) s) = Panic msg s1 →
      createInstance (S fuel) this f s = Panic msg s1)).
Proof.
  intros Hwf Hthis Hdtor r. split_and!.
  - by apply root_ancestor.
  - by apply root_no_parent.
  - intros v Hhit. by apply createInstance_hit.
  - intros Hmiss. split; [|intros msg s1 Hctor; by rewrite createInstance_miss, Hctor].
    intros v err s1 Hctor.
    rewrite createInstance_miss, Hctor by done.
    destruct err as [e|]; [by eexists|].
    eexists. split; [done|]. rewrite Hdtor.
    pose proof (call_constructor_grows_from _ _ _ _ _ _ Hctor) as Hg.
    assert (∀ o, destructor_owner s this (factory.Lifetime (deref s f)) = Some o →
      let s' := defer (Some dtor) (Some o) f v
                  (keep (cache_owner s this (factory.Lifetime (deref s f))) f v s1) in
      destructors (get s' o) = destructors (get s1 o) ++ [Teardown f v] ∧
      ∀ c, c ≠ o → destructors (get s' c) = destructors (get s1 c)) as Happ.
    { intros o Ho s'.
      assert (o < length (containers (keep (cache_owner s this
                (factory.Lifetime (deref s f))) f v s1))) as Hvalid.
      { rewrite length_keep, (reg_length _ _ (g_registry _ _ _ Hg)).
        by eapply destructor_owner_valid. }
      split.
      - unfold s'. simpl. rewrite get_update_eq by done. simpl.
        by rewrite (proj2 (keep_get _ _ _ _ _)).
      - intros c Hc. unfold s'. simpl. rewrite get_update_ne by done.
        by rewrite (proj2 (keep_get _ _ _ _ _)). }
    destruct (factory.Lifetime (deref s f)) eqn:Hl; simpl.
    + by apply Happ.
    + by apply Happ.
    + by apply Happ.
    + done.
    + done.
Qed.

(** Resolving the singleton ["g"] of [registered] on the scope records its
    closure on the root. *)
Lemma teardown_recorded_on_owner_witness :
  ∃ s', createInstance 1 1 3 registered = Done (VString "g", None) s' ∧
        destructors (get s' 0) = [Teardown 3 (VString "g")] ∧
        destructors (get s' 1) = [].
Proof.
  assert (wf registered) as Hwf by (apply wfb_wf; reflexivity).
  assert (1 < length (containers registered)) as Hthis by (vm_compute; lia).
  destruct (teardown_recorded_on_owner registered 1 3 0 succeeds Hwf Hthis eq_refl)
    as (_ & _ & Hmiss).
  destruct (Hmiss eq_refl) as [Hdone _].
  destruct (Hdone (VString "g") None
              (emit (CtorCall 3 1) registered) eq_refl) as (s' & Hs' & Hown & Hother).
  exists s'. split_and!; [exact Hs' | exact Hown | by apply Hother].
Defined.

(** The constructor of ["x"] is called and fails: no closure is recorded. *)
Lemma failed_constructor_records_nothing :
  is_Some (factory.Destructor (deref failing 0)) ∧
  ∃ s', Resolve 1 1 "x" failing = Done (VNil, Some boom) s' ∧
        trace s' = trace failing ++ [CtorCall 0 1] ∧
        destructors (get s' 0) = destructors (get failing 0) ∧
        destructors (get s' 1) = destructors (get failing 1).
Proof.
  split; [by eexists|]. eexists. split_and!; reflexivity.
Qed.

(** A record registered with [Lifetime(7)]: its constructor is called on
    every [Resolve], nothing is cached and its destructor is never
    recorded. *)
Example odd_lifetime_records_nothing :
  int_Lifetime 7 = Beyond 5 ∧
  is_Some (factory.Destructor (deref odd 0)) ∧
  Resolve 1 0 "y" odd = Done (VString "y", None) (emit (CtorCall 0 0) odd).
Proof. split_and!; [reflexivity | by eexists | reflexivity]. Qed.

(** ** Injection targets *)

(** C8: [Inject] on a value that is neither a record nor a reference to one
    panics, in the state it was called in; and when [Inject] returns an
    error, its argument is a record and the error is the one [Resolve]
    returned for the tag of one of its annotated fields. *)
Theorem Inject_requires_record (s : State) (this fuel : nat) (v : Value) :
  (¬ is_record v → ∃ msg, Inject fuel this v s = Panic msg s) ∧
  (∀ err s', Inject fuel this v s = Done (Some err) s' →
     is_record v ∧
     ∃ f x s0, f ∈ record_fields v ∧ field_di f ≠ "" ∧
               Resolve fuel this (field_di f) s0 = Done (x, Some err) s').
Proof.
  split.
  - intros Hv. unfold Inject, Inject_with.
    destruct v as [| | | |e o|]; simpl in Hv;
      [by eexists | by eexists | by eexists | by eexists | | by destruct Hv].
    destruct e; simpl in Hv; [destruct o; by eexists..|by destruct Hv].
  - intros err s'. unfold Inject, Inject_with.
    destruct v as [| | | |e o|]; try done.
    + destruct e, o; try done. intros H. split; [done|].
      by eapply inject_fields_error.
    + intros H. split; [done|]. by eapply inject_fields_error.
Qed.

(** [Inject] on an [int], on a nil interface and on a pointer to a pointer. *)
Example Inject_panics :
  Inject 1 0 (VInt 5) start = Panic "struct or pointer to struct required" start ∧
  Inject 1 0 VNil start = Panic "reflect: call of reflect.Value.Type on zero Value" start ∧
  Inject 1 0 (VPtr (TPtr MyStruct) (Some 0)) start
  = Panic "struct or pointer to struct required" start.
Proof. split_and!; reflexivity. Qed.

(** ** Types registered with [UseType] *)

(** C9: the constructor that [UseType] registers for a struct type, or for
    a pointer to one, drops what [c.Inject] returns.  It allocates the
    instance and calls [c.Inject] on it; whatever error that call returns,
    [createInstance] (and [Resolve]) return the instance with a nil error,
    in the state injection left, and store it as the lifetime says; only a
    panic of [c.Inject] gets through.  In particular, when the fields before
    [field] can be filled from registered values and the tag of [field] has
    no record, [c.Inject] returns [ErrNoMatchingTag], and [Resolve] returns
    the instance with a nil error: the fields before [field] hold the
    values they were given, [field] and the fields after it their zero
    values. *)
Theorem UseType_drops_injection_error (s : State) (this f fuel : nat)
    (tag : string) (l : Lifetime) (typ : GoType) (n : string) (fs : list StructField) :
  let T := TStruct n fs in
  deref s f = factory.mk tag l (TypeCtor (Some typ)) None →
  typ = T ∨ typ = TPtr T →
  cached s this f = None →
  let a := length (objects s) in
  let sA := after (alloc T) (emit (CtorCall f this) s) in
  let instance s1 := match typ with
                     | TPtr _ => VPtr T (Some a)
                     | _ => default VNil (objects s1 !! a)
                     end in
  let stored s1 := keep (cache_owner s this l) f (instance s1) s1 in
  (∀ err s1,
     Inject fuel this (VPtr T (Some a)) sA = Done err s1 →
     createInstance (S fuel) this f s = Done (instance s1, None) (stored s1) ∧
     ∀ tag', lookup_factory s this tag' = Some f →
             Resolve (S fuel) this tag' s = Done (instance s1, None) (stored s1)) ∧
  (∀ msg s1,
     Inject fuel this (VPtr T (Some a)) sA = Panic msg s1 →
     createInstance (S fuel) this f s = Panic msg s1) ∧
  (∀ before field rest,
     fs = before ++ field :: rest →
     Forall (wirable s this) before →
     field_di field ≠ "" → lookup_factory s this (field_di field) = None →
     ∃ s1 vals,
       Inject (S fuel) this (VPtr T (Some a)) sA = Done (Some ErrNoMatchingTag) s1 ∧
       objects s1 !! a = Some (VStruct n fs vals) ∧
       (∀ j g, before !! j = Some g →
               vals !! j = dependency s this g <$> map zero_field fs !! j) ∧
       (∀ j, length before ≤ j → vals !! j = map zero_field fs !! j) ∧
       ∀ tag', lookup_factory s this tag' = Some f →
               Resolve (S (S fuel)) this tag' s
               = Done (match typ with
                       | TPtr _ => VPtr T (Some a)
                       | _ => VStruct n fs vals
                       end, None) (stored s1)).
Proof.
  intros T Hrec Htyp Hmiss a sA instance stored.
  assert (∀ fu err s1,
    Inject fu this (VPtr T (Some a)) sA = Done err s1 →
    createInstance (S fu) this f s = Done (instance s1, None) (stored s1)) as Hdrop.
  { intros fu err s1 HI.
    rewrite (createInstance_UseType fu s this f tag l typ n fs Hrec Htyp Hmiss).
    fold T a sA. by rewrite HI. }
  split_and!.
  - intros err s1 HI. split; [by eapply Hdrop|].
    intros tag' Htag. unfold Resolve, Resolve_with. rewrite Htag. by eapply Hdrop.
  - intros msg s1 HI.
    rewrite (createInstance_UseType fuel s this f tag l typ n fs Hrec Htyp Hmiss).
    fold T a sA. by rewrite HI.
  - intros before field rest Hfs Hw Hdi Hnone.
    assert (objects sA !! a = Some (VStruct n (before ++ field :: rest)
                                      (map zero_field fs))) as Hobj.
    { unfold sA, a, T. simpl. rewrite lookup_app_r, Nat.sub_diag by done.
      simpl. by rewrite Hfs. }
    assert (Forall (wirable sA this) before) as HwA.
    { eapply Forall_impl; [exact Hw|]. intros g. by apply wirable_same. }
    assert (lookup_factory sA this (field_di field) = None) as HnoneA
      by by rewrite (lookup_factory_same s sA).
    destruct (inject_record_unmatched sA this a fuel n before field rest
                (map zero_field fs) HwA Hdi HnoneA Hobj)
      as (s1 & vals & HI & Hobj1 & Hdep & Hkeep & _ & _).
    rewrite <- Hfs in HI, Hobj1. fold T in HI.
    exists s1, vals. split_and!; [done | done | | done |].
    + intros j g Hg. rewrite (Hdep j g Hg).
      destruct (map zero_field fs !! j); simpl; [|done].
      by rewrite (dependency_same s sA).
    + intros tag' Htag. unfold Resolve, Resolve_with. rewrite Htag.
      rewrite (Hdrop (S fuel) _ s1 HI). unfold stored, instance.
      rewrite Hobj1. by destruct Htyp as [->| ->].
Qed.

(** ["pair"] of [half_typed] is the pointer type [*di.Pair]: its field
    [First] gets the value registered for ["logger"], nothing is registered
    for the tag ["absent"] of its field [Second], and [Resolve] returns the
    pointer without an error. *)
Lemma UseType_drops_injection_error_witness :
  ∃ s' vals,
    Resolve 2 0 "pair" half_typed = Done (VPtr Pair_ (Some 1), None) s' ∧
    objects s' !! 1
    = Some (VStruct "di.Pair"
              [Field "First" TInterface "logger"; Field "Second" TInterface "absent"]
              vals) ∧
    vals !! 0 = Some (VString "stdout") ∧ vals !! 1 = Some VNil.
Proof.
  assert (Forall (wirable half_typed 0) [Field "First" TInterface "logger"]) as Hw.
  { constructor; [|by constructor].
    right. split; [reflexivity|].
    exists 1, (VString "stdout"), TString. by split_and!. }
  assert ("absent" ≠ "") as Hne by discriminate.
  destruct (UseType_drops_injection_error half_typed 0 2 0 "pair" Scoped (TPtr Pair_)
              "di.Pair"
              [Field "First" TInterface "logger"; Field "Second" TInterface "absent"]
              eq_refl (or_intror eq_refl) eq_refl) as (_ & _ & H).
  destruct (H [Field "First" TInterface "logger"] (Field "Second" TInterface "absent") []
              eq_refl Hw Hne eq_refl) as (s1 & vals & HI & Hobj & Hdep & Hkeep & HR).
  eexists _, vals. split_and!.
  - by apply HR.
  - rewrite objects_keep. exact Hobj.
  - apply (Hdep 0 (Field "First" TInterface "logger") eq_refl).
  - apply (Hkeep 1). simpl. lia.
Defined.

(** ** Singletons *)



(** ** Scoped records *)




(** On [loggers], the scopes 1 and 2 each get a [*di.myLogger] of their
    own from the constructor of [UseType], and the two pointers are equal:
    [struct{}] has size zero. *)
Example loggers_share_an_address :
  let s1 := after (Resolve 1 1 "*di.myLogger") loggers in
  let s2 := after (Resolve 1 2 "*di.myLogger") s1 in
  Resolve 1 1 "*di.myLogger" loggers = Done (VPtr myLogger (Some 0), None) s1 ∧
  Resolve 1 2 "*di.myLogger" s1 = Done (VPtr myLogger (Some 1), None) s2 ∧
  trace s2 = [CtorCall 0 1; CtorCall 0 2] ∧
  same_pointer (VPtr myLogger (Some 1)) (VPtr myLogger (Some 0)) = true.
Proof. split_and!; reflexivity. Qed.

(** * Further properties of the container *)

(** ** What resolution leaves alone *)

Lemma confined_refl this s : confined this s s.
Proof. split; [apply grows_refl | done]. Qed.

Lemma confined_trans this s1 s2 s3 :
  confined this s1 s2 → confined this s2 s3 → confined this s1 s3.
Proof.
  intros [G12 O12] [G23 O23]. split; [by eapply grows_trans|].
  intros c Hc Hr. rewrite O23, O12; try done.
  by rewrite (same_root _ _ (g_registry _ _ _ G12)).
Qed.

Lemma confined_of_grows this s s' :
  grows this s s' → containers s' = containers s → confined this s s'.
Proof. intros Hg Hc. split; [done|]. intros c _ _. unfold get. by rewrite Hc. Qed.

Lemma confined_keeps_alloc this t s s' : final (alloc t s) = Some s' → confined this s s'.
Proof.
  intros H. apply confined_of_grows; [by eapply grows_alloc|]. by injection H as <-.
Qed.

Lemma confined_keeps_store this a i x s : confined this s (store a i x s).
Proof. apply confined_of_grows; [apply grows_store | done]. Qed.

Lemma cache_owner_cases s this l o :
  cache_owner s this l = Some o → o = this ∨ o = root s this.
Proof. destruct l; simpl; naive_solver. Qed.

Lemma destructor_owner_cases s this l o :
  destructor_owner s this l = Some o → o = this ∨ o = root s this.
Proof. destruct l; simpl; naive_solver. Qed.

Lemma createInstance_body_confined create this f :
  (∀ this f, preserves (confined this) (create this f)) →
  preserves (confined this) (createInstance_body create this f).
Proof.
  intros Hcreate s s' Hfinal. split.
  { eapply (createInstance_body_grows create); [|exact Hfinal].
    intros t g s0 s0' H0. by apply (cf_grows t), (Hcreate t g). }
  intros c Hc Hr. revert Hfinal. unfold createInstance_body.
  destruct (cached s this f) as [v|]; [by intros [= <-]|].
  assert (preserves (confined this)
            (call_constructor create this (factory.Constructor (deref s f)))) as Hctor.
  { apply (call_constructor_keeps confined).
    - intros t x. apply confined_refl.
    - intros t x y z. apply confined_trans.
    - intros t ty s0 s0'. apply confined_keeps_alloc.
    - intros t a i x s0. apply confined_keeps_store.
    - done. }
  assert (∀ s1, final (call_constructor create this (factory.Constructor (deref s f))
                        (emit (CtorCall f this) s)) = Some s1 →
                get s1 c = get s c) as Hsame.
  { intros s1 H1. apply (cf_others this); [|done..].
    eapply confined_trans; [|by apply Hctor].
    apply confined_of_grows; [apply grows_emit | done]. }
  destruct (call_constructor create this _ _) as [[v [err|]] s1|msg s1|]; try done.
  - intros [= <-]. by apply Hsame.
  - intros [= <-]. trans (get s1 c); [|by apply Hsame].
    assert (get (keep (cache_owner s this (factory.Lifetime (deref s f))) f v s1) c
            = get s1 c) as Hkeep.
    { destruct (cache_owner s this _) as [o|] eqn:Ho; simpl; [|done].
      apply get_update_ne. destruct (cache_owner_cases _ _ _ _ Ho); congruence. }
    destruct (factory.Destructor (deref s f)); simpl; [|done].
    destruct (destructor_owner s this _) as [o|] eqn:Ho; [|done].
    rewrite get_update_ne; [done|].
    destruct (destructor_owner_cases _ _ _ _ Ho); congruence.
  - intros [= <-]. by apply Hsame.
Qed.

Lemma createInstance_confined fuel : ∀ this f,
  preserves (confined this) (createInstance fuel this f).
Proof.
  induction fuel as [|fuel IH]; intros this f; simpl; [done|].
  by apply createInstance_body_confined.
Qed.

(** X8: resolution on a container touches that container and its root
    only.  With constructors that use only the container they are given,
    through [Resolve], [ResolveAll] and [Inject] (the constructors of this
    development), whatever [Resolve], [ResolveAll] or [Inject] on [this]
    end in (a return or a panic), every other container, be it a sibling, a
    child or an ancestor between [this] and the root, is exactly as it
    was: its cache, its pending destructors, its registrations. *)
Theorem resolution_is_confined (s s' : State) (this fuel : nat) :
  (∀ tag, final (Resolve fuel this tag s) = Some s' →
          ∀ c, c ≠ this → c ≠ root s this → get s' c = get s c) ∧
  (∀ tag, final (ResolveAll fuel this tag s) = Some s' →
          ∀ c, c ≠ this → c ≠ root s this → get s' c = get s c) ∧
  (∀ v, final (Inject fuel this v s) = Some s' →
        ∀ c, c ≠ this → c ≠ root s this → get s' c = get s c).
Proof.
  assert (∀ t, Reflexive (confined t)) as Hrefl
    by (intros t x; apply confined_refl).
  assert (∀ t, Transitive (confined t)) as Htrans
    by (intros t x y z; apply confined_trans).
  split_and!.
  - intros tag H. apply (cf_others this).
    eapply (Resolve_with_keeps confined Hrefl); [|exact H].
    apply createInstance_confined.
  - intros tag H. apply (cf_others this).
    eapply (ResolveAll_with_keeps confined Hrefl Htrans); [|exact H].
    apply createInstance_confined.
  - intros v H. apply (cf_others this).
    eapply (Inject_with_keeps confined Hrefl Htrans); [| |exact H].
    + intros t a i x s0. apply confined_keeps_store.
    + apply createInstance_confined.
Qed.

(** X9: resolution never takes anything away.  With constructors that use
    only the container they are given, through [Resolve], [ResolveAll] and
    [Inject] (the constructors of this development), after [Resolve] on any
    container, every container has its parent, aliases and factory list,
    every record is unchanged, every tag resolves to the same record from
    every container, every cached instance is still cached and every
    pending teardown closure still pending, in the same order; no object
    and no recorded call has gone (an object may have been written to by
    [Inject]). *)
Theorem resolution_only_adds (s s' : State) (this fuel : nat) (tag : string) :
  final (Resolve fuel this tag s) = Some s' →
  records s' = records s ∧
  (∀ c, parent (get s' c) = parent (get s c) ∧
        aliases (get s' c) = aliases (get s c) ∧
        factories (get s' c) = factories (get s c)) ∧
  (∀ c t, lookup_factory s' c t = lookup_factory s c t) ∧
  (∀ c f v, cache (get s c) !! f = Some v → cache (get s' c) !! f = Some v) ∧
  (∀ c, destructors (get s c) `prefix_of` destructors (get s' c)) ∧
  length (objects s) ≤ length (objects s') ∧
  trace s `prefix_of` trace s'.
Proof.
  intros H. apply Resolve_grows in H. pose proof (g_registry _ _ _ H) as Hreg.
  split_and!.
  - apply Hreg.
  - intros c. split_and!; apply Hreg.
  - intros c t. by apply same_lookup_factory.
  - apply H.
  - apply H.
  - apply H.
  - apply H.
Qed.

(** Resolving the scoped [*di.MyStruct] on scope 1 of [scopes] leaves
    scope 2 as it was. *)
Lemma resolution_only_adds_witness :
  lookup_factory (after (Resolve 1 1 "*di.MyStruct") scopes) 2 "one"
  = lookup_factory scopes 2 "one".
Proof.
  assert (final (Resolve 1 1 "*di.MyStruct" scopes)
          = Some (after (Resolve 1 1 "*di.MyStruct") scopes)) as H by reflexivity.
  destruct (resolution_only_adds _ _ 1 1 "*di.MyStruct" H) as (_ & _ & Hl & _).
  apply Hl.
Defined.

(** ** More on teardown *)

Lemma closing_reachable : reachable closing.
Proof.
  unfold reachable, closing, registered.
  do 4 (eapply rtc_r; [|apply step_after_Resolve; by eexists]).
  do 4 (eapply rtc_r; [|apply (step_after_register 0)]).
  eapply rtc_r; [|apply step_after_newContainer; intros q [= <-]; vm_compute; lia].
  apply rtc_refl.
Qed.

Lemma Close_done this s err s' :
  Close this s = Done err s' →
  ∃ called,
    called `prefix_of` reverse (destructors (get s this)) ∧
    s' = emit_all (map teardown_call called) (update this clear_destructors s).
Proof.
  unfold Close. rewrite run_teardowns_each, firstn_all by done.
  generalize (update this clear_destructors s) as s0.
  induction (reverse (destructors (get s this))) as [|d l IH]; intros s0; simpl.
  - intros [= _ <-]. exists []. split; [done|]. by rewrite emit_all_nil.
  - unfold bind, call_teardown.
    destruct (factory.Destructor (deref s0 (td_factory d))) as [dtor|]; [|done].
    destruct (dtor (td_instance d)) as [e|].
    + intros [= _ <-]. exists [d]. split; [by apply prefix_cons, prefix_nil|].
      simpl. by rewrite emit_all_cons, emit_all_nil.
    + intros H. apply IH in H as (called & Hpre & ->).
      exists (d :: called). split; [by apply prefix_cons|].
      simpl. by rewrite emit_all_cons.
Qed.

(** X6: closing a scope never tears a singleton down.  In a reachable
    state, the pending list of a container that has a parent holds no
    closure of a [Singleton] record: those are recorded on the root.  With
    destructors that clean up their instance and do not call into a
    container (the destructors of this development), [Close] on such a
    container returns, calls only closures of that list, and leaves every
    other container, the root with its pending closures included, as it
    was. *)
Theorem Close_spares_singletons (s : State) (this p : nat) :
  reachable s → parent (get s this) = Some p →
  Forall (λ d, factory.Lifetime (deref s (td_factory d)) ≠ Singleton)
    (destructors (get s this)) ∧
  ∃ called err s',
    Close this s = Done err s' ∧
    called `prefix_of` reverse (destructors (get s this)) ∧
    trace s' = trace s ++ map teardown_call called ∧
    Forall (λ d, factory.Lifetime (deref s (td_factory d)) ≠ Singleton) called ∧
    ∀ c, c ≠ this → get s' c = get s c.
Proof.
  intros Hr Hp. pose proof (reachable_consistent _ Hr) as Hc.
  assert (Forall (λ d, factory.Lifetime (deref s (td_factory d)) ≠ Singleton)
            (destructors (get s this))) as Hlist.
  { apply Forall_forall. intros d Hin Hl.
    apply (c_teardown _ Hc) in Hin as [_ Hroot]. rewrite Hroot in Hp; done. }
  split; [done|].
  destruct (teardown_each_spec (reverse (destructors (get s this)))
              (update this clear_destructors s))
    as (called & rest & err & Hsplit & Hrun & _).
  { apply Forall_forall. intros d Hd. rewrite elem_of_reverse in Hd.
    change (callable s d). by apply (c_teardown _ Hc) in Hd as [? _]. }
  exists called, err, (emit_all (map teardown_call called)
                         (update this clear_destructors s)).
  split_and!.
  - unfold Close. by rewrite run_teardowns_each, firstn_all.
  - rewrite Hsplit. by apply prefix_app_r.
  - done.
  - apply Forall_forall. intros d Hd.
    rewrite Forall_forall in Hlist. apply Hlist.
    rewrite <- elem_of_reverse, Hsplit. apply elem_of_app. by left.
  - intros c Hne. replace (get (emit_all _ _) c)
      with (get (update this clear_destructors s) c) by done.
    by apply get_update_ne.
Qed.

(** Closing scope 1 of [closing] runs the destructors of ["c"] and ["b"]
    and leaves the closure of the singleton ["g"] on the root. *)
Lemma Close_spares_singletons_witness :
  Forall (λ d, factory.Lifetime (deref closing (td_factory d)) ≠ Singleton)
    (destructors (get closing 1)) ∧
  ∃ called err s',
    Close 1 closing = Done err s' ∧
    called `prefix_of` reverse (destructors (get closing 1)) ∧
    trace s' = trace closing ++ map teardown_call called ∧
    Forall (λ d, factory.Lifetime (deref closing (td_factory d)) ≠ Singleton) called ∧
    ∀ c, c ≠ 1 → get s' c = get closing c.
Proof. apply (Close_spares_singletons closing 1 0 closing_reachable). reflexivity. Defined.

Lemma update_clear_id this s :
  destructors (get s this) = [] → update this clear_destructors s = s.
Proof.
  intros Hd. destruct s as [cs rs os tr]. unfold update, with_containers; simpl. f_equal.
  unfold get in Hd; simpl in Hd. apply list_eq. intros i.
  rewrite list_lookup_alter. case_decide as Hi; [subst i|done].
  destruct (cs !! this) as [[p al fs ca ds]|] eqn:Hc; simpl in *; [|done].
  by subst ds.
Qed.

(** X7: [Close] forgets what it did not run.  With destructors that clean
    up their instance and do not call into a container (the destructors of
    this development), whatever a first [Close] returned, also an error
    that left closures uncalled, the pending list is empty afterwards, and
    a second [Close] of the same container calls no destructor, changes
    nothing and returns nil. *)
Theorem Close_twice (s s' : State) (this : nat) (err : option error) :
  Close this s = Done err s' →
  destructors (get s' this) = [] ∧ Close this s' = Done None s'.
Proof.
  intros H. apply Close_done in H as (called & _ & ->).
  assert (destructors (get (emit_all (map teardown_call called)
                             (update this clear_destructors s)) this) = []) as Hd.
  { replace (get (emit_all _ _) this)
      with (get (update this clear_destructors s) this) by done.
    rewrite get_update. case_decide as Hi; [done|].
    rewrite get_invalid; [done|].
    destruct (decide (this < length (containers s))); [naive_solver | lia]. }
  split; [done|]. unfold Close. rewrite Hd. simpl. unfold ret.
  by rewrite update_clear_id.
Qed.

(** On [closing] the destructor of ["b"] fails and that of ["a"] is not
    called; a second [Close] does not call it either. *)
Lemma Close_twice_witness :
  Close 1 (after (Close 1) closing) = Done None (after (Close 1) closing).
Proof.
  apply (Close_twice closing (after (Close 1) closing) 1 (Some boom)). reflexivity.
Defined.

(** X13: [Close] does not evict cached instances.  After [Close] on any
    container, a record whose instance was cached for [this] still resolves
    on [this] to that instance, without a constructor call and without a
    new teardown closure, although its destructor may just have run. *)
Theorem Close_keeps_cache (s s' : State) (closed this f fuel : nat) (v : Value) :
  final (Close closed s) = Some s' →
  cached s this f = Some v →
  cached s' this f = Some v ∧
  createInstance (S fuel) this f s' = Done (v, None) s'.
Proof.
  intros Hclose Hv.
  assert (same_registry s s') as Hreg.
  { split.
    - by apply Close_records in Hclose.
    - unfold Close in Hclose. apply run_teardowns_state in Hclose as (-> & _ & _).
      apply length_update.
    - intros c. rewrite (Close_get _ _ _ _ Hclose).
      by case_decide as H; [destruct H as [<- _]|].
    - intros c. rewrite (Close_get _ _ _ _ Hclose).
      by case_decide as H; [destruct H as [<- _]|].
    - intros c. rewrite (Close_get _ _ _ _ Hclose).
      by case_decide as H; [destruct H as [<- _]|]. }
  assert (cached s' this f = Some v) as Hv'.
  { unfold cached in *. rewrite (same_deref _ _ Hreg), (same_cache_owner _ _ Hreg).
    destruct (cache_owner s this _) as [o|]; [|done].
    rewrite (Close_get _ _ _ _ Hclose).
    by case_decide as H; [destruct H as [<- _]|]. }
  split; [done|]. by apply createInstance_hit.
Qed.

(** The singleton ["g"] of [closing] is cached on the root; after the root
    is closed, and the destructor of ["g"] has run, scope 1 still gets it. *)
Lemma Close_keeps_cache_witness :
  createInstance 1 1 3 (after (Close 0) closing)
  = Done (VString "g", None) (after (Close 0) closing).
Proof.
  apply (Close_keeps_cache closing (after (Close 0) closing) 0 1 3 0 (VString "g"));
    reflexivity.
Defined.

(** ** More on resolution *)

(** X12: [tags.Contains] decides membership. *)
Theorem Contains_decides (tags : list string) (tag : string) :
  Contains tags tag = bool_decide (tag ∈ tags).
Proof.
  destruct (Contains tags tag) eqn:H.
  - apply Contains_elem in H. by rewrite bool_decide_eq_true_2.
  - apply Contains_false in H. by rewrite bool_decide_eq_false_2.
Qed.

Lemma create_each_result create this fs : ∀ acc s vs err s',
  create_each create this fs acc s = Done (vs, err) s' →
  match err with
  | None => length vs = length acc + length fs
  | Some _ => vs = []
  end.
Proof.
  induction fs as [|f fs IH]; intros acc s vs err s'; simpl.
  - intros [= <- <- _]. lia.
  - unfold bind. destruct (create this f s) as [[v [e|]] s1| |]; simpl; try done.
    + by intros [= <- <- _].
    + intros H. apply IH in H. destruct err; [done|].
      rewrite H, length_app. simpl. lia.
Qed.

(** X11: [ResolveAll] returns all instances or none.  When it returns
    without error there is one instance per matching record; when it
    returns an error there is no instance at all, although the records
    before the failing one were constructed. *)
Theorem ResolveAll_all_or_nothing (s s' : State) (this fuel : nat) (tag : string)
    (vs : list Value) (err : option error) :
  ResolveAll fuel this tag s = Done (vs, err) s' →
  match err with
  | None => length vs = length (matching s this tag)
  | Some _ => vs = []
  end.
Proof.
  unfold ResolveAll. rewrite ResolveAll_with_each.
  intros H. by apply create_each_result in H.
Qed.

(** Three values under ["params"], three instances. *)
Lemma ResolveAll_all_or_nothing_witness :
  length [VInt 1; VInt 2; VInt 3] = length (matching params 0 "params").
Proof.
  apply (ResolveAll_all_or_nothing params (after (ResolveAll 1 0 "params") params)
           0 1 "params" [VInt 1; VInt 2; VInt 3] None).
  reflexivity.
Defined.

Lemma inject_fields_by_value create this fs : ∀ i s s',
  inject_fields create this None fs i s = Done None s' →
  Forall (λ f, field_di f = "") fs ∧ s' = s.
Proof.
  induction fs as [|f fs IH]; intros i s s'; simpl.
  - by intros [= <-].
  - destruct (String.eqb_spec (field_di f) "") as [Hdi|Hdi].
    + intros H. apply IH in H as [Hfs ->]. split; [by constructor | done].
    + unfold bind.
      destruct (Resolve_with create this (field_di f) s) as [[x [e|]] s1| |];
        simpl; try done.
      unfold Set_field. by destruct (negb (exported f)).
Qed.

(** X15: [Inject] needs a pointer to assign through.  On a struct passed by
    value it returns nil only when no field is annotated, and then it has
    done nothing; with an annotated field it returns the error of
    [Resolve] or panics in [reflect.Value.Set]. *)
Theorem Inject_by_value (s s' : State) (this fuel : nat)
    (n : string) (fs : list StructField) (vals : list Value) :
  Inject fuel this (VStruct n fs vals) s = Done None s' →
  Forall (λ f, field_di f = "") fs ∧ s' = s.
Proof. unfold Inject, Inject_with. apply inject_fields_by_value. Qed.

(** [di.MyStruct] has no annotated field. *)
Lemma Inject_by_value_witness :
  Forall (λ f, field_di f = "") [Field "Name" TString ""; Field "Value" TString ""] ∧
  start = start.
Proof.
  apply (Inject_by_value start start 0 1 "di.MyStruct"
           [Field "Name" TString ""; Field "Value" TString ""] [VString ""; VString ""]).
  reflexivity.
Defined.

(** The newest record under [tag] on [this] is the one [Resolve] picks. *)
Lemma lookup_after_register s this r :
  this < length (containers s) →
  lookup_factory (after (register this r) s) this (factory.Tag r)
  = Some (length (records s)) ∧
  deref (after (register this r) s) (length (records s)) = r.
Proof.
  intros Hthis. set (s1 := after (register this r) s).
  assert (deref s1 (length (records s)) = r) as Hd.
  { unfold deref, s1. rewrite after_register_records.
    by rewrite lookup_app_r, Nat.sub_diag. }
  assert (factories (get s1 this) = factories (get s this) ++ [length (records s)])
    as Hfs.
  { unfold s1. rewrite after_register_get. by rewrite decide_True by done. }
  split; [|done].
  rewrite lookup_factory_last. unfold matching, registration_order.
  destruct (chain_head s1 this) as [rest ->].
  rewrite reverse_cons, map_app, concat_app, filter_app. simpl.
  rewrite app_nil_r, Hfs, filter_app.
  rewrite filter_cons_True.
  - by rewrite filter_nil, !app_assoc, last_snoc.
  - apply Is_true_true, matches_reach. fold s1. rewrite Hd. apply rtc_refl.
Qed.

(** X2: a value registered with [UseValue] is what [Resolve] returns for
    its tag, on the container it was registered on, whatever was registered
    there before; the call changes no container. *)
Theorem UseValue_Resolve (s : State) (this fuel : nat) (tag : string) (v : Value) :
  this < length (containers s) →
  let s1 := after (UseValue this tag v) s in
  ∃ s2, Resolve (S fuel) this tag s1 = Done (v, None) s2 ∧
        containers s2 = containers s1 ∧ objects s2 = objects s1 ∧
        trace s2 = trace s1 ++ [CtorCall (length (records s)) this].
Proof.
  intros Hthis s1. exists (emit (CtorCall (length (records s)) this) s1).
  split_and!; [|done..].
  destruct (lookup_after_register s this
              (factory.mk tag Transient (ValueCtor v) None) Hthis) as [Hl Hd].
  unfold Resolve, Resolve_with. fold (UseValue this tag v) in Hl, Hd. simpl in Hl.
  fold s1 in Hl, Hd. rewrite Hl.
  rewrite createInstance_miss by (unfold cached; by rewrite Hd).
  by rewrite Hd.
Qed.

(** [TestResolve_RegisteredValue_String]. *)
Lemma UseValue_Resolve_witness :
  ∃ s2, Resolve 1 0 "greet" (after (UseValue 0 "greet" (VString "Hello, world!")) start)
        = Done (VString "Hello, world!", None) s2 ∧
        containers s2 = containers (after (UseValue 0 "greet" (VString "Hello, world!")) start) ∧
        objects s2 = objects (after (UseValue 0 "greet" (VString "Hello, world!")) start) ∧
        trace s2 = trace (after (UseValue 0 "greet" (VString "Hello, world!")) start)
                   ++ [CtorCall (length (records start)) 0].
Proof.
  apply (UseValue_Resolve start 0 0 "greet" (VString "Hello, world!")).
  vm_compute; lia.
Defined.

(** ** More on constructors *)

(** X1: a [Transient] pointer type is made anew on every call.  For a
    transient record registered by [UseType] for a pointer type,
    [createInstance] returns a pointer to an object allocated by that very
    call, with a nil error.  Any two calls, from whatever containers,
    return pointers to two objects: different pointers when the type has a
    non-zero size, equal ones when it has size zero, all objects of size
    zero being at one address. *)
Theorem transient_pointer_is_fresh (s s1 s1' s2 : State) (this this2 f fuel fuel2 : nat)
    (T : GoType) (v1 v2 : Value) (e1 e2 : option error) :
  factory.Lifetime (deref s f) = Transient →
  factory.Constructor (deref s f) = TypeCtor (Some (TPtr T)) →
  createInstance fuel this f s = Done (v1, e1) s1 →
  deref s1' f = deref s f → length (objects s1) ≤ length (objects s1') →
  createInstance fuel2 this2 f s1' = Done (v2, e2) s2 →
  v1 = VPtr T (Some (length (objects s))) ∧
  v2 = VPtr T (Some (length (objects s1'))) ∧
  length (objects s) < length (objects s1) ∧
  same_pointer v1 v2 = zero_size T ∧ e1 = None ∧ e2 = None.
Proof.
  intros Hl HT H1 Hd Hlen H2.
  assert (∀ fu c st v e st',
    deref st f = deref s f → createInstance fu c f st = Done (v, e) st' →
    v = VPtr T (Some (length (objects st))) ∧ e = None ∧
    length (objects st) < length (objects st')) as Hone.
  { intros fu c st v e st' Hst Hc. destruct fu as [|fu]; [done|].
    rewrite createInstance_transient in Hc by by rewrite Hst.
    rewrite Hst, HT in Hc. simpl in Hc.
    destruct (construct_type _ c (TPtr T) _) as [[x [ex|]] sx| |] eqn:Hx; try done.
    - by apply construct_type_no_error in Hx.
    - injection Hc as <- <- <-.
      apply construct_type_fresh in Hx as [-> Hlt]; [|apply createInstance_grows].
      rewrite objects_defer. done. }
  destruct (Hone _ _ _ _ _ _ eq_refl H1) as (-> & -> & Hlt1).
  destruct (Hone _ _ _ _ _ _ Hd H2) as (-> & -> & _).
  split_and!; try done. rewrite same_pointer_objects.
  assert (length (objects s) ≠ length (objects s1')) as Hne by lia.
  apply Nat.eqb_neq in Hne. rewrite Hne. apply orb_false_r.
Qed.

(** [TestResolve_RegisteredType_PointerToStruct]: two [Resolve] calls on
    [aliased], two pointers. *)
Lemma transient_pointer_is_fresh_witness :
  same_pointer (VPtr MyStruct (Some 0)) (VPtr MyStruct (Some 1)) = false.
Proof.
  set (s1 := after (createInstance 1 1 0) aliased).
  set (s2 := after (createInstance 1 0 0) s1).
  assert (length (objects s1) ≤ length (objects s1)) as Hlen by lia.
  assert (createInstance 1 1 0 aliased = Done (VPtr MyStruct (Some 0), None) s1)
    as H1 by reflexivity.
  assert (createInstance 1 0 0 s1 = Done (VPtr MyStruct (Some 1), None) s2)
    as H2 by reflexivity.
  exact (proj1 (proj2 (proj2 (proj2
    (transient_pointer_is_fresh aliased s1 s1 s2 1 0 0 1 1 MyStruct _ _ None None
       eq_refl eq_refl H1 eq_refl Hlen H2))))).
Defined.

(** The package example registers [*di.myLogger] as a transient record:
    two calls, two objects, one address. *)
Example transient_loggers :
  let s := after (RegisterType 0 (VPtr myLogger None) Transient) start in
  let s1 := after (Resolve 1 0 "*di.myLogger") s in
  Resolve 1 0 "*di.myLogger" s = Done (VPtr myLogger (Some 0), None) s1 ∧
  result_of (Resolve 1 0 "*di.myLogger" s1) = Some (VPtr myLogger (Some 1), None) ∧
  same_pointer (VPtr myLogger (Some 0)) (VPtr myLogger (Some 1)) = true.
Proof. split_and!; reflexivity. Qed.

Lemma construct_type_plain create c typ s :
  plain (instance_type typ) →
  construct_type create c typ s
  = Done (match typ with
          | TPtr T => VPtr T (Some (length (objects s)))
          | _ => zero typ
          end, None) (after (alloc (instance_type typ)) s).
Proof.
  intros Hplain.
  assert (∀ T, objects (after (alloc T) s) !! length (objects s) = Some (zero T)) as Hobj.
  { intros T. simpl. by rewrite lookup_app_r, Nat.sub_diag. }
  assert (∀ n fs, Forall (λ f, field_di f = "") fs →
    Inject_with create c (VPtr (TStruct n fs) (Some (length (objects s))))
      (after (alloc (TStruct n fs)) s)
    = Done None (after (alloc (TStruct n fs)) s)) as Hinj.
  { intros n fs Hfs. by apply inject_fields_unannotated. }
  destruct typ as [| | |e|e|n fs]; simpl in Hplain.
  - unfold construct_type, bind; simpl. by rewrite lookup_app_r, Nat.sub_diag.
  - unfold construct_type, bind; simpl. by rewrite lookup_app_r, Nat.sub_diag.
  - unfold construct_type, bind; simpl. by rewrite lookup_app_r, Nat.sub_diag.
  - unfold construct_type, bind; simpl. by rewrite lookup_app_r, Nat.sub_diag.
  - destruct e as [| | |e'|e'|n fs]; simpl in Hplain; try reflexivity.
    by rewrite (proj2 (construct_type_record create c n fs s)), Hinj.
  - by rewrite (proj1 (construct_type_record create c n fs s)), Hinj, Hobj.
Qed.

(** X17: a type with nothing to inject resolves to its zero value.  For a
    record registered by [UseType] whose type is not a struct, or is a
    struct (or a pointer to one) without annotated fields, a first
    [createInstance] allocates one object holding the zero value and
    returns a pointer to it for a pointer type, the zero value itself
    otherwise, with a nil error. *)
Theorem UseType_zero_value (s : State) (this f fuel : nat)
    (tag : string) (l : Lifetime) (typ : GoType) :
  deref s f = factory.mk tag l (TypeCtor (Some typ)) None →
  cached s this f = None →
  plain (instance_type typ) →
  let a := length (objects s) in
  ∃ s', createInstance (S fuel) this f s
        = Done (match typ with
                | TPtr T => VPtr T (Some a)
                | _ => zero typ
                end, None) s' ∧
        objects s' = objects s ++ [zero (instance_type typ)].
Proof.
  intros Hrec Hmiss Hplain a.
  rewrite createInstance_miss, Hrec by done.
  cbn [factory.Constructor factory.Destructor factory.Lifetime call_constructor defer].
  rewrite construct_type_plain by done.
  eexists. split; [reflexivity | by rewrite objects_keep].
Qed.

(** [TestResolve_RegisteredType_Slice]: a nil slice. *)
Lemma UseType_zero_value_witness :
  ∃ s', createInstance 1 0 0
          (after (RegisterType 0 (VSlice MyStruct []) Transient) start)
        = Done (VSlice MyStruct [], None) s' ∧
        objects s' = [] ++ [VSlice MyStruct []].
Proof.
  apply (UseType_zero_value (after (RegisterType 0 (VSlice MyStruct []) Transient) start)
           0 0 0 "[]di.MyStruct" Transient (TSlice MyStruct)); reflexivity || exact I.
Defined.

(** X14: a record without a constructor is found out late.
    [RegisterType], [RegisterValue] and [RegisterFactory] panic on a nil
    value and register nothing, but [UseType] accepts a nil value and
    [UseFactory] a nil constructor: the record is registered and found
    under its tag.  In every reachable state such a record has no instance
    cached on any container, and every [createInstance] of it, hence every
    [Resolve] that picks it, from any container and under any tag, panics
    when it calls the constructor, having stored nothing. *)
Theorem nil_constructor_panics (s : State) :
  reachable s →
  (∀ this l dtor ctor, ∃ msg,
     RegisterType this VNil l s = Panic msg s ∧
     RegisterValue this VNil s = Panic msg s ∧
     RegisterFactory this VNil ctor dtor l s = Panic msg s) ∧
  (∀ this tag l dtor r,
     this < length (containers s) →
     r = factory.mk tag l (TypeCtor None) None ∨ r = factory.mk tag l NilCtor dtor →
     UseType this tag VNil l s = register this (factory.mk tag l (TypeCtor None) None) s ∧
     UseFactory this tag NilCtor dtor l s = register this (factory.mk tag l NilCtor dtor) s ∧
     let f := length (records s) in
     let s1 := after (register this r) s in
     reachable s1 ∧ lookup_factory s1 this tag = Some f ∧ f < length (records s1) ∧
     nil_constructor (factory.Constructor (deref s1 f))) ∧
  (∀ f, f < length (records s) →
        nil_constructor (factory.Constructor (deref s f)) →
        (∀ c, cache (get s c) !! f = None) ∧
        ∀ this fuel,
          (∃ msg, createInstance (S fuel) this f s
                  = Panic msg (emit (CtorCall f this) s)) ∧
          ∀ tag, lookup_factory s this tag = Some f →
                 ∃ msg, Resolve (S fuel) this tag s
                        = Panic msg (emit (CtorCall f this) s)).
Proof.
  intros Hr. split_and!.
  - intros this l dtor ctor. by eexists.
  - intros this tag l dtor r Hthis Hcase. split; [done|]. split; [done|].
    intros f s1. split_and!.
    + eapply rtc_r; [exact Hr | apply step_after_register].
    + destruct (lookup_after_register s this r Hthis) as [Hl _].
      by destruct Hcase as [->| ->].
    + unfold s1, f. rewrite after_register_records, length_app. simpl. lia.
    + destruct (lookup_after_register s this r Hthis) as [_ Hd].
      unfold s1, f. rewrite Hd. destruct Hcase as [->| ->]; [by right | by left].
  - intros f Hf Hnil.
    assert (∀ c, cache (get s c) !! f = None) as Hnone.
    { intros c. destruct (cache (get s c) !! f) as [v|] eqn:Hv; [|done].
      destruct (reachable_constructed s Hr c f); [by eexists | done]. }
    split; [done|]. intros this fuel.
    assert (cached s this f = None) as Hmiss.
    { unfold cached. by destruct (cache_owner s this _). }
    assert (∃ msg, createInstance (S fuel) this f s
                   = Panic msg (emit (CtorCall f this) s)) as Hpanic.
    { rewrite createInstance_miss by done. destruct Hnil as [->| ->]; by eexists. }
    split; [done|]. intros tag Htag. unfold Resolve, Resolve_with. by rewrite Htag.
Qed.

(** [UseType] with a nil value on the root registry, then [Resolve]. *)
Lemma nil_constructor_panics_witness :
  ∃ msg, Resolve 1 0 "t" (after (UseType 0 "t" VNil Scoped) start)
         = Panic msg (emit (CtorCall 0 0) (after (UseType 0 "t" VNil Scoped) start)).
Proof.
  assert (reachable (after (UseType 0 "t" VNil Scoped) start)) as Hr.
  { eapply rtc_r; [apply rtc_refl | apply (step_after_register 0)]. }
  destruct (nil_constructor_panics _ Hr) as (_ & _ & Hp).
  destruct (Hp 0) as [_ Hall]; [simpl; lia | by right |].
  destruct (Hall 0 0) as [_ HR]. by apply HR.
Defined.

(** ** Scopes and registrations *)

Lemma chain_from_any s (Hwf : wf s) n : ∀ m c,
  c ≤ n → c ≤ m → chain_from n s c = chain_from m s c.
Proof.
  induction n as [|n IH]; intros m c Hn Hm.
  - assert (c = 0) as -> by lia. destruct m as [|m]; simpl; [done|].
    destruct (parent (get s 0)) as [q|] eqn:Hq; [|done]. apply Hwf in Hq. lia.
  - destruct m as [|m]; simpl.
    + assert (c = 0) as -> by lia.
      destruct (parent (get s 0)) as [q|] eqn:Hq; [|done]. apply Hwf in Hq. lia.
    + destruct (parent (get s c)) as [q|] eqn:Hq; [|done].
      apply Hwf in Hq. rewrite (IH m q); [done | lia | lia].
Qed.

Lemma chain_from_ext s s' n : ∀ c,
  (∀ x, x ∈ chain_from n s c → parent (get s' x) = parent (get s x)) →
  chain_from n s' c = chain_from n s c.
Proof.
  induction n as [|n IH]; intros c Hp; simpl; [done|].
  rewrite (Hp c) by (simpl; left).
  destruct (parent (get s c)) as [q|] eqn:Hq; [|done].
  rewrite IH; [done|]. intros x Hx. apply Hp. simpl. rewrite Hq. by right.
Qed.

Lemma last_match_ext s s' tags fs n :
  (∀ f, f ∈ fs → deref s' f = deref s f) →
  last_match s' tags fs n = last_match s tags fs n.
Proof.
  intros Hd. induction n as [|n IH]; simpl; [done|].
  destruct (fs !! n) as [f|] eqn:Hf; [|done].
  unfold matches. rewrite (Hd f) by by eapply list_elem_of_lookup_2.
  by rewrite IH.
Qed.

Lemma first_in_chain_ext s s' tags cs :
  (∀ x, x ∈ cs → factories (get s' x) = factories (get s x)) →
  (∀ x f, x ∈ cs → f ∈ factories (get s x) → deref s' f = deref s f) →
  first_in_chain s' tags cs = first_in_chain s tags cs.
Proof.
  induction cs as [|c cs IH]; intros Hf Hd; simpl; [done|].
  rewrite (Hf c) by left.
  rewrite (last_match_ext s s') by (intros f; apply Hd; left).
  rewrite IH; [done | |].
  - intros x Hx. apply Hf. by right.
  - intros x f Hx. apply Hd. by right.
Qed.

Lemma expand_ext s s' c c' fuel : ∀ tags i,
  chain_aliases s' c' = chain_aliases s c →
  expand fuel s' c' tags i = expand fuel s c tags i.
Proof.
  induction fuel as [|fuel IH]; intros tags i Ha; simpl; [done|].
  destruct (tags !! i); [|done].
  by rewrite !scan_visit_all, Ha, IH.
Qed.

Lemma resolveAliases_ext s s' c c' tag :
  chain_aliases s' c' = chain_aliases s c →
  resolveAliases s' c' tag = resolveAliases s c tag.
Proof. intros Ha. unfold resolveAliases. by rewrite Ha, (expand_ext s s' c c'). Qed.

Lemma chain_aliases_ext s s' cs :
  (∀ x, x ∈ cs → aliases (get s' x) = aliases (get s x)) →
  concat (map (λ c, aliases (get s' c)) cs) = concat (map (λ c, aliases (get s c)) cs).
Proof.
  induction cs as [|c cs IH]; intros Ha; simpl; [done|].
  rewrite (Ha c) by left. rewrite IH; [done|]. intros x Hx. apply Ha. by right.
Qed.

(** Resolution from [other] reads only the containers of its chain and the
    records they list. *)
Lemma lookup_factory_ext s s' other tag :
  (∀ x, x ∈ chain s other →
        parent (get s' x) = parent (get s x) ∧
        aliases (get s' x) = aliases (get s x) ∧
        factories (get s' x) = factories (get s x)) →
  (∀ x f, x ∈ chain s other → f ∈ factories (get s x) → deref s' f = deref s f) →
  resolveAliases s' other tag = resolveAliases s other tag ∧
  lookup_factory s' other tag = lookup_factory s other tag.
Proof.
  intros Hc Hd.
  assert (chain s' other = chain s other) as Hchain.
  { apply chain_from_ext. intros x Hx. by apply Hc. }
  assert (resolveAliases s' other tag = resolveAliases s other tag) as Hal.
  { apply resolveAliases_ext. unfold chain_aliases. rewrite Hchain.
    apply chain_aliases_ext. intros x Hx. by apply Hc. }
  split; [done|]. unfold lookup_factory. rewrite Hal, Hchain.
  apply first_in_chain_ext; [|done]. intros x Hx. by apply Hc.
Qed.

Lemma after_newContainer_get p s c :
  get (after (newContainer p) s) c =
  if decide (c = length (containers s)) then empty_container p else get s c.
Proof. apply newContainer_get. Qed.

(** X3: a new scope inherits the registrations of its parent and none of
    its scoped instances.  [NewScope] on a container [p] of a well-formed
    state returns a container that has [p] as parent and the root of [p] as
    root, resolves every tag to the record [p] resolves it to, through the
    same alias set, sees the singletons cached for [p], has no instance
    cached for a scoped record and no pending destructor; the containers
    there were are unchanged. *)
Theorem NewScope_inherits (s : State) (p : nat) :
  wf s → p < length (containers s) →
  let c := length (containers s) in
  let s' := after (NewScope p) s in
  NewScope p s = Done c s' ∧
  chain s' c = c :: chain s p ∧
  root s' c = root s p ∧
  (∀ tag, resolveAliases s' c tag = resolveAliases s p tag ∧
          lookup_factory s' c tag = lookup_factory s p tag) ∧
  (∀ f, cached s' c f
        = match factory.Lifetime (deref s f) with
          | Singleton => cached s p f
          | _ => None
          end) ∧
  cache (get s' c) = ∅ ∧ destructors (get s' c) = [] ∧
  (∀ x, x < c → get s' x = get s x).
Proof.
  intros Hwf Hp c s'.
  assert (∀ x, x < c → get s' x = get s x) as Hold.
  { intros x Hx. unfold s', NewScope. rewrite after_newContainer_get.
    case_decide; [lia | done]. }
  assert (get s' c = empty_container (Some p)) as Hnew.
  { unfold s', NewScope. rewrite after_newContainer_get. by case_decide. }
  assert (∀ x, x ∈ chain s p → x < c) as Hvalid.
  { intros x Hx. by eapply chain_valid. }
  assert (chain s' c = c :: chain s p) as Hchain.
  { unfold chain at 1. destruct c as [|n] eqn:Hc; [lia|]. simpl.
    rewrite Hnew. simpl. f_equal.
    rewrite (chain_from_ext s s').
    - apply chain_from_any; [done | lia | done].
    - intros x Hx. rewrite Hold; [done|].
      rewrite (chain_from_any s Hwf n p p) in Hx by lia. by apply Hvalid. }
  assert (root s' c = root s p) as Hroot.
  { unfold root. rewrite Hchain, last_cons.
    destruct (last (chain s p)) eqn:Hl; [done|].
    apply last_None in Hl. destruct (chain_head s p) as [rest Hrest]. congruence. }
  assert (∀ tag, resolveAliases s' c tag = resolveAliases s p tag) as Hal.
  { intros tag. apply resolveAliases_ext. unfold chain_aliases.
    rewrite Hchain. simpl. rewrite Hnew. simpl.
    apply chain_aliases_ext. intros x Hx. by rewrite Hold by by apply Hvalid. }
  split_and!; try done.
  - intros tag. split; [done|]. unfold lookup_factory. rewrite Hal, Hchain. simpl.
    rewrite Hnew. simpl.
    apply first_in_chain_ext; [|done].
    intros x Hx. by rewrite Hold by by apply Hvalid.
  - intros f. unfold cached. replace (deref s' f) with (deref s f) by done.
    destruct (factory.Lifetime (deref s f)); simpl; [done | by rewrite Hnew | | done..].
    rewrite Hroot, Hold; [done|]. apply Hvalid, root_in_chain.
  - by rewrite Hnew.
  - by rewrite Hnew.
Qed.

(** A third scope of [scopes], after scope 1 has resolved both records. *)
Lemma NewScope_inherits_witness :
  let s := after (Resolve 1 1 "one") (after (Resolve 1 1 "*di.MyStruct") scopes) in
  let s' := after (NewScope 1) s in
  lookup_factory s' 3 "one" = lookup_factory s 1 "one" ∧
  cached s' 3 1 = cached s 1 1 ∧ cached s' 3 0 = None.
Proof.
  intros s s'.
  assert (wf s) as Hwf by (apply wfb_wf; reflexivity).
  assert (1 < length (containers s)) as Hp by (vm_compute; lia).
  destruct (NewScope_inherits s 1 Hwf Hp) as (_ & _ & _ & Hl & Hc & _).
  split_and!; [apply Hl | apply (Hc 1) | apply (Hc 0)].
Defined.

Lemma same_registry_handles s s' :
  same_registry s s' → handles_valid s → handles_valid s'.
Proof.
  intros Hreg Hv c f. rewrite (reg_factories _ _ Hreg), (reg_records _ _ Hreg). apply Hv.
Qed.

Lemma step_handles_valid s s' : handles_valid s → step s s' → handles_valid s'.
Proof.
  intros Hv [p _ H|this r H|this tag target H|fuel this tag H|fuel this tag H
            |fuel this v H|this H].
  - injection H as <-. intros c f. rewrite newContainer_get.
    case_decide; [by intros ?%elem_of_nil | apply Hv].
  - injection H as <-. intros c f. rewrite register_get. simpl.
    rewrite length_app. simpl. case_decide; simpl.
    + intros [Hf| ->%list_elem_of_singleton]%elem_of_app; [|lia].
      apply Hv in Hf. lia.
    + intros Hf. apply Hv in Hf. lia.
  - injection H as <-. intros c f. rewrite get_update.
    case_decide as Hd; [destruct Hd as [<- _]|]; apply Hv.
  - eapply same_registry_handles; [|done]. eapply g_registry, Resolve_grows, H.
  - eapply same_registry_handles; [|done]. eapply g_registry, ResolveAll_grows, H.
  - eapply same_registry_handles; [|done]. eapply g_registry, Inject_grows, H.
  - intros c f. rewrite (Close_get _ _ _ _ H), (Close_records _ _ _ H).
    case_decide as Hd; [destruct Hd as [<- _]|]; apply Hv.
Qed.

Lemma steps_handles_valid s s' : handles_valid s → rtc step s s' → handles_valid s'.
Proof.
  intros Hv H. induction H as [|s1 s2 s3 H12 _ IH]; [done|].
  apply IH. by eapply step_handles_valid.
Qed.

Lemma reachable_handles_valid s : reachable s → handles_valid s.
Proof.
  apply steps_handles_valid. intros c f. unfold get, start; simpl.
  by destruct c as [|[|c]]; intros ?%elem_of_nil.
Qed.

(** X16: the invariants of the arena.  In every state a program can reach
    from the root registry, a parent handle is smaller than the child's and
    both are containers of the arena, every handle in a factory list points
    to a record, every cached instance belongs to an existing record that
    is not [Transient], and every pending teardown closure to an existing
    record with a destructor. *)
Theorem reachable_invariants (s : State) :
  reachable s →
  (∀ c p, parent (get s c) = Some p → p < c ∧ c < length (containers s)) ∧
  (∀ c f, f ∈ factories (get s c) → f < length (records s)) ∧
  (∀ c f v, cache (get s c) !! f = Some v →
            f < length (records s) ∧ factory.Lifetime (deref s f) ≠ Transient) ∧
  (∀ c d, d ∈ destructors (get s c) →
          td_factory d < length (records s) ∧
          is_Some (factory.Destructor (deref s (td_factory d)))).
Proof.
  intros Hr. pose proof (reachable_consistent _ Hr) as Hc. split_and!.
  - intros c p Hp. split; [by apply Hc|].
    destruct (decide (c < length (containers s))); [done|].
    by rewrite get_invalid in Hp by lia.
  - by apply reachable_handles_valid.
  - intros c f v Hv. split; [by eapply cached_valid|].
    destruct (c_cache _ Hc c f v Hv) as [->|[-> _]]; done.
  - intros c d Hd. split; [by eapply teardown_valid|].
    by apply (c_teardown _ Hc) in Hd as [? _].
Qed.

(** Record 3 is in the factory list of the root of [closing]. *)
Lemma reachable_invariants_witness : 3 < length (records closing).
Proof.
  apply (proj1 (proj2 (reachable_invariants closing closing_reachable)) 0 3).
  vm_compute. by repeat constructor.
Defined.

(** X4: registrations are local to a scope and its descendants.  When
    [this] is neither [other] nor one of its ancestors, registering a record
    or declaring an alias on [this] changes neither the alias set nor the
    record that any tag resolves to from [other]. *)
Theorem registration_is_local (s : State) (this other : nat) (tag : string) :
  wf s → handles_valid s → ¬ ancestor s other this →
  (∀ r, let s' := after (register this r) s in
        resolveAliases s' other tag = resolveAliases s other tag ∧
        lookup_factory s' other tag = lookup_factory s other tag) ∧
  (∀ t target, let s' := after (Use this t target) s in
        resolveAliases s' other tag = resolveAliases s other tag ∧
        lookup_factory s' other tag = lookup_factory s other tag).
Proof.
  intros Hwf Hv Hnot.
  assert (∀ x, x ∈ chain s other → x ≠ this) as Hne.
  { intros x Hx ->. by apply Hnot, chain_ancestors. }
  split.
  - intros r s'. apply lookup_factory_ext.
    + intros x Hx. unfold s'. rewrite after_register_get.
      case_decide as Hd; [destruct Hd as [<- _]; by destruct (Hne this)|done].
    + intros x f Hx Hf. apply deref_prefix; [|by eapply Hv].
      unfold s'. rewrite after_register_records. by apply prefix_app_r.
  - intros t target s'. apply lookup_factory_ext; [|done].
    intros x Hx. unfold s', after, Use; simpl. rewrite get_update.
    case_decide as Hd; [destruct Hd as [<- _]; by destruct (Hne this)|done].
Qed.

(** Registering ["one"] anew on scope 2 of [scopes] does not change what
    scope 1 resolves it to. *)
Lemma registration_is_local_witness :
  lookup_factory (after (register 2 (factory.mk "one" Transient (ValueCtor (VInt 1)) None))
                    scopes) 1 "one"
  = lookup_factory scopes 1 "one".
Proof.
  assert (wf scopes) as Hwf by (apply wfb_wf; reflexivity).
  assert (¬ ancestor scopes 1 2) as Hnot.
  { intros H. apply (ancestor_le _ _ _ Hwf) in H. lia. }
  destruct (registration_is_local scopes 2 1 "one" Hwf
              (reachable_handles_valid _ scopes_reachable) Hnot) as [H _].
  apply H.
Defined.

(** X5: what is registered is found.  When [this] or one of its ancestors
    holds a record whose tag can be reached from [tag] along the visible
    aliases, [Resolve] picks such a record and returns what
    [createInstance] returns for it: it does not answer
    [ErrNoMatchingTag] by itself. *)
Theorem registered_is_found (s : State) (this fuel : nat) (tag : string) (c f : nat) :
  wf s → ancestor s this c → f ∈ factories (get s c) →
  rtc (alias_edge s this) tag (factory.Tag (deref s f)) →
  ∃ g c', lookup_factory s this tag = Some g ∧
          ancestor s this c' ∧ g ∈ factories (get s c') ∧
          rtc (alias_edge s this) tag (factory.Tag (deref s g)) ∧
          Resolve fuel this tag s = createInstance fuel this g s.
Proof.
  intros Hwf Hc Hf Hreach.
  assert (f ∈ matching s this tag) as Hin.
  { apply elem_of_matching. exists c. split_and!; try done. by apply chain_ancestors. }
  destruct (last (matching s this tag)) as [g|] eqn:Hlast.
  - assert (g ∈ matching s this tag) as Hg.
    { apply last_Some in Hlast as [l' ->]. apply elem_of_app. right. by left. }
    apply elem_of_matching in Hg as (c' & Hc' & Hg & Hr).
    exists g, c'. rewrite lookup_factory_last. split_and!; try done.
    + by apply chain_ancestors.
    + unfold Resolve, Resolve_with. by rewrite lookup_factory_last, Hlast.
  - apply last_None in Hlast. rewrite Hlast in Hin. by apply elem_of_nil in Hin.
Qed.

(** [TestResolve_Aliased_Hierarchical]: ["param"] on the scope leads to
    ["struct"] and that, on the root, to [*di.MyStruct]. *)
Lemma registered_is_found_witness :
  ∃ g c', lookup_factory aliased 1 "param" = Some g ∧
          ancestor aliased 1 c' ∧ g ∈ factories (get aliased c') ∧
          rtc (alias_edge aliased 1) "param" (factory.Tag (deref aliased g)) ∧
          Resolve 1 1 "param" aliased = createInstance 1 1 g aliased.
Proof.
  assert (wf aliased) as Hwf by (apply wfb_wf; reflexivity).
  apply (registered_is_found aliased 1 1 "param" 0 0 Hwf).
  - apply chain_ancestors; [done|]. vm_compute. right. left.
  - vm_compute. left.
  - apply resolveAliases_reach. vm_compute. right. right. left.
Defined.

(** ** Injecting registered values *)

(** X10: [Inject] wires registered values into a record.  When every
    annotated field of the struct behind the pointer is exported and its
    tag resolves to a record registered with [UseValue] whose value may be
    assigned to it, [Inject] returns nil; afterwards every annotated field
    holds the value registered for its tag and every other field what it
    held before, and no other object and no container has changed. *)
Theorem Inject_wires (s : State) (this a fuel : nat) (n : string)
    (fs : list StructField) (vals : list Value) :
  Forall (wirable s this) fs →
  objects s !! a = Some (VStruct n fs vals) →
  ∃ s' vals',
    Inject (S fuel) this (VPtr (TStruct n fs) (Some a)) s = Done None s' ∧
    objects s' !! a = Some (VStruct n fs vals') ∧
    length vals' = length vals ∧
    (∀ j f, fs !! j = Some f → vals' !! j = dependency s this f <$> vals !! j) ∧
    (∀ b, b ≠ a → objects s' !! b = objects s !! b) ∧
    length (objects s') = length (objects s) ∧
    containers s' = containers s ∧ records s' = records s.
Proof.
  intros Hw Hobj.
  destruct (inject_fields_wires s this a n fs fuel fs 0 s vals eq_refl eq_refl Hw Hobj)
    as (s' & vals' & Hrun & Hc' & Hr' & Hobj' & Hlen & Hlo & Hother & _ & Hafter & _).
  exists s', vals'. split_and!; try done.
Qed.

(** Object 0 of [wirable_state] is a [di.Module] whose [Logger] is nil;
    ["logger"] is registered with the value ["stdout"]. *)
Lemma Inject_wires_witness :
  ∃ s' vals',
    Inject 1 0 (VPtr Module_ (Some 0)) wirable_state = Done None s' ∧
    objects s' !! 0
    = Some (VStruct "di.Module"
              [Field "Name" TString ""; Field "Logger" TInterface "logger"] vals') ∧
    vals' !! 1 = Some (VString "stdout").
Proof.
  assert (Forall (wirable wirable_state 0)
            [Field "Name" TString ""; Field "Logger" TInterface "logger"]) as Hw.
  { constructor; [by left|]. constructor; [|by constructor].
    right. split; [reflexivity|].
    exists 1, (VString "stdout"), TString. by split_and!. }
  destruct (Inject_wires wirable_state 0 0 0 "di.Module" _ [VString ""; VNil] Hw eq_refl)
    as (s' & vals' & HI & Hobj & _ & Hdep & _).
  exists s', vals'. split_and!; [exact HI | exact Hobj |].
  apply (Hdep 1 (Field "Logger" TInterface "logger") eq_refl).
Defined.

(** ** Values, all of them, and wiring through [UseType] *)

Lemma createInstance_value fuel this f s :
  value_record s f →
  createInstance (S fuel) this f s = Done (record_value s f, None) (emit (CtorCall f this) s).
Proof.
  intros Hv.
  assert (factory.Lifetime (deref s f) = Transient) as Hl by by rewrite Hv.
  assert (factory.Constructor (deref s f) = ValueCtor (record_value s f)) as Hc
    by by rewrite Hv.
  assert (factory.Destructor (deref s f) = None) as Hd by by rewrite Hv.
  rewrite createInstance_transient by done. by rewrite Hc, Hd.
Qed.

Lemma create_each_values fuel this s fs : ∀ acc es,
  Forall (value_record s) fs →
  create_each (createInstance (S fuel)) this fs acc (emit_all es s)
  = Done (acc ++ map (record_value s) fs, None)
         (emit_all (es ++ map (λ f, CtorCall f this) fs) s).
Proof.
  induction fs as [|f fs IH]; intros acc es Hfs.
  - simpl. by rewrite !app_nil_r.
  - apply Forall_cons in Hfs as [Hf Hfs]. cbn [create_each]. unfold bind.
    rewrite (createInstance_value fuel this f (emit_all es s)) by exact Hf.
    cbn [fst snd].
    replace (emit (CtorCall f this) (emit_all es s))
      with (emit_all (es ++ [CtorCall f this]) s)
      by (unfold emit, emit_all; simpl; by rewrite app_assoc).
    replace (record_value (emit_all es s) f) with (record_value s f) by done.
    rewrite IH by done. simpl. by rewrite <- !app_assoc.
Qed.

(** X18: [ResolveAll] returns registered values in registration order.
    When every record matching [tag] was registered with [UseValue],
    [ResolveAll] returns their values, the root's first and oldest first,
    those of the calling container last, after one constructor call per
    record in that order, and changes no container. *)
Theorem ResolveAll_values (s : State) (this fuel : nat) (tag : string) :
  Forall (value_record s) (matching s this tag) →
  ∃ s', ResolveAll (S fuel) this tag s
        = Done (map (record_value s) (matching s this tag), None) s' ∧
        containers s' = containers s ∧ objects s' = objects s ∧
        trace s' = trace s ++ map (λ f, CtorCall f this) (matching s this tag).
Proof.
  intros Hv. eexists. split.
  - unfold ResolveAll. rewrite ResolveAll_with_each.
    pose proof (create_each_values fuel this s (matching s this tag) [] [] Hv) as H.
    rewrite emit_all_nil in H. exact H.
  - by split_and!.
Qed.

(** [TestResolveAll]. *)
Lemma ResolveAll_values_witness :
  ∃ s', ResolveAll 1 0 "params" params = Done ([VInt 1; VInt 2; VInt 3], None) s' ∧
        containers s' = containers params ∧ objects s' = objects params ∧
        trace s' = trace params ++ [CtorCall 0 0; CtorCall 1 0; CtorCall 2 0].
Proof.
  assert (Forall (value_record params) (matching params 0 "params")) as H.
  { change (matching params 0 "params") with [0; 1; 2].
    by repeat constructor. }
  exact (ResolveAll_values params 0 0 "params" H).
Defined.

(** X19: [Inject] does not roll back.  When the annotated fields before
    the field [f] can be filled from registered values and the tag of [f]
    has no record, [Inject] returns [ErrNoMatchingTag]; the fields before
    [f] keep the values they were given, [f] and the fields after it are
    left as they were. *)
Theorem Inject_no_rollback (s : State) (this a fuel : nat) (n : string)
    (before rest : list StructField) (f : StructField) (vals : list Value) :
  Forall (wirable s this) before →
  field_di f ≠ "" → lookup_factory s this (field_di f) = None →
  objects s !! a = Some (VStruct n (before ++ f :: rest) vals) →
  ∃ s' vals',
    Inject (S fuel) this (VPtr (TStruct n (before ++ f :: rest)) (Some a)) s
    = Done (Some ErrNoMatchingTag) s' ∧
    objects s' !! a = Some (VStruct n (before ++ f :: rest) vals') ∧
    (∀ j g, before !! j = Some g → vals' !! j = dependency s this g <$> vals !! j) ∧
    (∀ j, length before ≤ j → vals' !! j = vals !! j).
Proof.
  intros Hw Hdi Hnone Hobj.
  destruct (inject_record_unmatched s this a fuel n before f rest vals Hw Hdi Hnone Hobj)
    as (s' & vals' & HI & Hobj' & Hdep & Hkeep & _).
  by exists s', vals'.
Qed.

(** On [half_wired], object 1 is a [di.Pair]: its field [First] gets the
    value of ["logger"], then ["absent"] is not found. *)
Lemma Inject_no_rollback_witness :
  ∃ s' vals',
    Inject 1 0 (VPtr Pair_ (Some 1)) half_wired = Done (Some ErrNoMatchingTag) s' ∧
    objects s' !! 1
    = Some (VStruct "di.Pair"
              [Field "First" TInterface "logger"; Field "Second" TInterface "absent"]
              vals') ∧
    vals' !! 0 = Some (VString "stdout") ∧ vals' !! 1 = Some VNil.
Proof.
  assert (Forall (wirable half_wired 0) [Field "First" TInterface "logger"]) as Hw.
  { constructor; [|by constructor].
    right. split; [reflexivity|].
    exists 1, (VString "stdout"), TString. by split_and!. }
  assert ("absent" ≠ "") as Hne by discriminate.
  destruct (Inject_no_rollback half_wired 0 1 0 "di.Pair"
              [Field "First" TInterface "logger"] [] (Field "Second" TInterface "absent")
              [VNil; VNil] Hw Hne eq_refl eq_refl)
    as (s' & vals' & HI & Hobj & Hdep & Hkeep).
  exists s', vals'. split_and!; [exact HI | exact Hobj | |].
  - apply (Hdep 0 (Field "First" TInterface "logger") eq_refl).
  - apply (Hkeep 1). simpl. lia.
Defined.

(** X20: a type registered with [UseType] is wired on the container that
    resolves it.  For a pointer to a struct whose annotated fields can all
    be filled from values visible from [this], a first [createInstance] on
    [this] returns a pointer to a new object in which every annotated field
    holds the value [this] resolves its tag to and every other field its
    zero value, wherever the type itself was registered. *)
Theorem UseType_wires (s : State) (this f fuel : nat) (tag : string) (l : Lifetime)
    (n : string) (fs : list StructField) :
  deref s f = factory.mk tag l (TypeCtor (Some (TPtr (TStruct n fs)))) None →
  cached s this f = None →
  Forall (wirable s this) fs →
  let a := length (objects s) in
  ∃ s' vals',
    createInstance (S (S fuel)) this f s = Done (VPtr (TStruct n fs) (Some a), None) s' ∧
    objects s' !! a = Some (VStruct n fs vals') ∧
    ∀ j g, fs !! j = Some g →
           vals' !! j = dependency s this g <$> (map zero_field fs) !! j.
Proof.
  intros Hrec Hmiss Hw a.
  set (sA := after (alloc (TStruct n fs)) (emit (CtorCall f this) s)).
  assert (objects sA !! a = Some (VStruct n fs (map zero_field fs))) as Hobj.
  { unfold sA, a. simpl. by rewrite lookup_app_r, Nat.sub_diag. }
  assert (Forall (wirable sA this) fs) as HwA.
  { eapply Forall_impl; [exact Hw|]. intros g. by apply wirable_same. }
  destruct (inject_record_wires sA this a fuel n fs (map zero_field fs) HwA Hobj)
    as (s1 & vals' & HI & Hobj1 & Hdep).
  exists (keep (cache_owner s this l) f (VPtr (TStruct n fs) (Some a)) s1), vals'.
  split_and!.
  - rewrite createInstance_miss, Hrec by done.
    cbn [factory.Constructor factory.Destructor factory.Lifetime call_constructor defer].
    rewrite (proj2 (construct_type_record _ this n fs _)).
    change (length (objects (emit (CtorCall f this) s))) with a. fold sA.
    unfold Inject in HI. by rewrite HI.
  - by rewrite objects_keep.
  - intros j g Hg. rewrite (Hdep j g Hg).
    destruct (map zero_field fs !! j); simpl; [|done].
    by rewrite (dependency_same s sA).
Qed.

(** The example of the package: resolved on the scope, the module gets the
    logger the scope has registered. *)
Lemma UseType_wires_witness :
  ∃ s' vals',
    createInstance 2 1 0 example = Done (VPtr Module_ (Some 0), None) s' ∧
    objects s' !! 0
    = Some (VStruct "di.Module"
              [Field "Name" TString ""; Field "Logger" TInterface "logger"] vals') ∧
    vals' !! 1 = Some (VString "stdout").
Proof.
  assert (Forall (wirable example 1)
            [Field "Name" TString ""; Field "Logger" TInterface "logger"]) as Hw.
  { constructor; [by left|]. constructor; [|by constructor].
    right. split; [reflexivity|].
    exists 1, (VString "stdout"), TString. by split_and!. }
  destruct (UseType_wires example 1 0 0 "*di.Module" Transient "di.Module" _
              eq_refl eq_refl Hw) as (s' & vals' & HC & Hobj & Hdep).
  exists s', vals'. split_and!; [exact HC | exact Hobj |].
  apply (Hdep 1 (Field "Logger" TInterface "logger") eq_refl).
Defined.
